(** * Content-based and hybrid recommenders with leave-one-out evaluation

    A shallow embedding of [recommendations.py]: the two collaborative
    similarity functions ([sim_distance], [sim_pearson]), the TF-IDF and
    hybrid scorers with their single-item variants, the feature-encoding
    recommender, the leave-one-out loop [loo_cv_sim], the item-item
    matrix ([topMatches], [calculateSimilarItems]) and the conversions
    ([transformPrefs], [prefs_to_2D_list], [to_array], [to_string],
    [to_docs], [movie_to_ID]).

    Conventions of the embedding.
    - A Python [float] is an exact rational ([Qc], rationals in lowest
      terms, so that equal numbers are equal terms).  Rounding is not
      modelled.  A numpy [float64] that comes out of an unguarded division
      is an [npf]: a rational, an infinity or NaN.
    - A [dict] is a [gmap]; iterating over it visits [map_to_list].
    - A catalog key [str(i)] is represented by the integer [i] itself, and
      [int(movies2[t])] by the integer stored under [t].
    - A raised exception is the [Raise] constructor of [result].
    - A character of a [str] is its Latin-1 code, the encoding the data
      files are read in. *)

From Stdlib Require Import QArith Qcanon Lqa.
From stdpp Require Import gmap strings list fin_maps numbers sorting pretty.
Import Ascii.AsciiSyntax.

Open Scope Qc_scope.
Delimit Scope char_scope with char.

(** ** Numbers *)

Definition qc (n : Z) (d : positive) : Qc := Q2Qc (n # d).

Definition Qc_of_nat (n : nat) : Qc := Qc_of_Z (Z.of_nat n).

(** [sum(...)] and the [x += ...] loops add from the left, starting at 0. *)
Definition sum_Qc (l : list Qc) : Qc := foldl Qcplus 0 l.

(** Module constants. *)
Definition SIM_WEIGHTING : Qc := qc 25 1.
Definition HYBRID_WEIGHTING : Qc := qc 3 4.

(** ** Exceptions *)

Inductive exn := KeyError | IndexError | ValueError | TypeError.

Inductive result (A : Type) :=
  | Ok (a : A)
  | Raise (e : exn).
Arguments Ok {A} a.
Arguments Raise {A} e.

#[global] Instance exn_eq_dec : EqDecision exn.
Proof. solve_decision. Defined.
#[global] Instance result_eq_dec `{EqDecision A} : EqDecision (result A).
Proof. solve_decision. Defined.

#[global] Instance result_ret : MRet result := @Ok.
#[global] Instance result_bind : MBind result := λ A B f m,
  match m with Ok a => f a | Raise e => Raise e end.
#[global] Instance result_fmap : FMap result := λ A B f m,
  match m with Ok a => Ok (f a) | Raise e => Raise e end.

(** [d[k]] on a dict. *)
Definition key `{Countable K} {V} (d : gmap K V) (k : K) : result V :=
  match d !! k with Some v => Ok v | None => Raise KeyError end.

(** A loop [for x in xs: s = body(x, s)] whose body may raise. *)
Fixpoint for_each {X S} (body : X → S → result S) (xs : list X) (s : S)
    : result S :=
  match xs with
  | [] => Ok s
  | x :: xs => s' ← body x s; for_each body xs s'
  end.

(** ** Data model *)

(** user -> (item title -> rating) *)
Abbreviation RatingMatrix := (gmap string (gmap string Qc)).

(** ** Collaborative similarity *)

Section similarity.
(** [math.sqrt]; the results below hold for any function in its place. *)
Variable sqrt : Qc → Qc.

(** [for item in prefs[p1]: if item in prefs[p2]], each shared item
    with the two ratings it indexes. *)
Definition shared_items (r1 r2 : gmap string Qc)
    : list (string * (Qc * Qc)) :=
  omap (λ '(item, x), (λ y, (item, (x, y))) <$> r2 !! item)
       (map_to_list r1).

Definition sim_distance (prefs : RatingMatrix) (p1 p2 : string)
    (sim_weighting : Qc) : result Qc :=
  r1 ← key prefs p1;
  (* [prefs[p2]] is only evaluated inside the loop over [prefs[p1]] *)
  if decide (r1 = ∅) then Ok 0 else
  r2 ← key prefs p2;
  let si := shared_items r1 r2 in
  if decide (length si = 0%nat) then Ok 0 else
  let sum_of_squares :=
    sum_Qc ((λ '(_, (x, y)), (x - y) * (x - y)) <$> si) in
  let distance_sim := 1 / (1 + sqrt sum_of_squares) in
  Ok (if decide (sim_weighting ≠ 0) then
        if decide (Qc_of_nat (length si) < sim_weighting)
        then distance_sim * (Qc_of_nat (length si) / sim_weighting)
        else distance_sim
      else distance_sim).

Definition sim_pearson (prefs : RatingMatrix) (p1 p2 : string)
    (sim_weighting : Qc) : result Qc :=
  r1 ← key prefs p1;
  if decide (r1 = ∅) then Ok 0 else
  r2 ← key prefs p2;
  let si := shared_items r1 r2 in
  if decide (length si = 0%nat) then Ok 0 else
  let x_avg := sum_Qc ((λ '(_, (x, _)), x) <$> si) / Qc_of_nat (length si) in
  let y_avg := sum_Qc ((λ '(_, (_, y)), y) <$> si) / Qc_of_nat (length si) in
  let numerator :=
    sum_Qc ((λ '(_, (x, y)), (x - x_avg) * (y - y_avg)) <$> si) in
  let denominator :=
    sqrt (sum_Qc ((λ '(_, (x, _)), (x - x_avg) ^ 2) <$> si)) *
    sqrt (sum_Qc ((λ '(_, (_, y)), (y - y_avg) ^ 2) <$> si)) in
  if decide (denominator ≠ 0) then
    let sim_pearson := numerator / denominator in
    Ok (if decide (sim_weighting ≠ 0)
        then sim_pearson * (Qc_of_nat (length si) / sim_weighting)
        else sim_pearson)
  else Ok 0.

(** The number of items both users rated. *)
Definition shared_count (prefs : RatingMatrix) (p1 p2 : string) : nat :=
  length (shared_items (default ∅ (prefs !! p1)) (default ∅ (prefs !! p2))).
End similarity.

(** A stand-in for [math.sqrt] on concrete inputs: exact on the squares of
    rationals, which is all the examples below feed it. *)
Definition sqrt_on_squares (q : Qc) : Qc :=
  Q2Qc (Z.sqrt (Qnum q) # Pos.sqrt (Qden q)).

(** ** Ranked lists *)

(** The scores that are sorted: rationals here, [npf] for the feature
    encoder below. *)
Class Score (T : Type) := {
  score_lt : relation T;
  score_eq_dec :: EqDecision T;
  score_lt_dec :: RelDecision score_lt;
}.

#[global] Instance Qc_score : Score Qc := {| score_lt := Qclt |}.

(** [a >= b] on [(score, title)] tuples: Python compares the scores and,
    when they are equal, the titles. *)
Definition rec_ge `{Score T} (a b : T * string) : Prop :=
  score_lt b.1 a.1 ∨ (a.1 = b.1 ∧ String.le b.2 a.2).

#[global] Instance rec_ge_dec `{Score T} : RelDecision (rec_ge (T := T)).
Proof. intros a b. unfold rec_ge. apply _. Defined.

(** [sorted(recs, reverse=True)] *)
Definition sorted_desc `{Score T} (recs : list (T * string))
    : list (T * string) :=
  merge_sort rec_ge recs.

(** [if len(recs) > 10: recs = recs[:n]] *)
Definition cap {A} (n : nat) (recs : list A) : list A :=
  if decide (10 < length recs)%nat then take n recs else recs.

(** Where [x] goes in a list that is sorted from high to low. *)
Fixpoint ins {A} (R : relation A) `{!RelDecision R} (x : A) (l : list A)
    : list A :=
  match l with
  | [] => [x]
  | y :: l' => if decide (R y x) then y :: ins R x l' else x :: l
  end.

(** What a full-catalog scorer prints and what it returns. *)
Record output := Output {
  printed : list (Qc * string);
  returned : list (Qc * string);
}.

#[global] Instance output_eq_dec : EqDecision output.
Proof. solve_decision. Defined.

(** ** Catalog and matrices *)

(** [movies]: item id -> title; [movies2]: title -> item id. *)
Abbreviation Catalog := (gmap Z string).
Abbreviation TitleIndex := (gmap string Z).

(** The cosine matrix, row by row. *)
Abbreviation matrix := (list (list Qc)).

(** item title -> (item title -> similarity) *)
Abbreviation ItemSim := (gmap string (gmap string Qc)).

(** An index as numpy and Python lists read it: negative ones count from
    the end. *)
Definition py_index (len : nat) (z : Z) : result nat :=
  if decide (0 ≤ z < Z.of_nat len)%Z then Ok (Z.to_nat z)
  else if decide (- Z.of_nat len ≤ z < 0)%Z then Ok (Z.to_nat (Z.of_nat len + z))
  else Raise IndexError.

Definition get {A} (l : list A) (z : Z) : result A :=
  i ← py_index (length l) z;
  match l !! i with Some a => Ok a | None => Raise IndexError end.

(** [m[r][c]] *)
Definition cell (m : matrix) (r c : Z) : result Qc :=
  row ← get m r; get row c.

(** [m[r][c] = v] *)
Definition set_cell (m : matrix) (r c : Z) (v : Qc) : result matrix :=
  i ← py_index (length m) r;
  row ← get m r;
  j ← py_index (length row) c;
  Ok (<[i := <[j := v]> row]> m).

(** [range(1, n + 1)] *)
Definition range1 (n : nat) : list Z := seqZ 1 (Z.of_nat n).

(** ** TF-IDF scoring *)

(** One pass of the inner loop of [get_TFIDF_recommendations]. *)
Definition tfidf_pair (userRatings : gmap string Qc) (cosim_matrix : matrix)
    (sim_threshold : Qc) (movies : Catalog) (i j : Z) (acc : Qc * Qc)
    : result (Qc * Qc) :=
  tj ← key movies j;
  match userRatings !! tj with
  | None => Ok acc
  | Some rating =>
      if decide (i = j) then Ok acc else
      c ← cell cosim_matrix (i - 1) (j - 1);
      if decide (c < sim_threshold) then Ok acc else
      Ok (acc.1 + rating * c, acc.2 + c)
  end.

(** The inner loop: the numerator and denominator for item [i]. *)
Definition tfidf_row (userRatings : gmap string Qc) (cosim_matrix : matrix)
    (sim_threshold : Qc) (movies : Catalog) (i : Z) : result (Qc * Qc) :=
  for_each (tfidf_pair userRatings cosim_matrix sim_threshold movies i)
    (range1 (size movies)) (0, 0).

(** One pass of the outer loop. *)
Definition tfidf_item (userRatings : gmap string Qc) (cosim_matrix : matrix)
    (sim_threshold : Qc) (movies : Catalog) (i : Z)
    (recs : list (Qc * string)) : result (list (Qc * string)) :=
  ti ← key movies i;
  if decide (is_Some (userRatings !! ti)) then Ok recs else
  '(num, denom) ← tfidf_row userRatings cosim_matrix sim_threshold movies i;
  if decide (0 < num ∧ 0 < denom)
  then Ok (recs ++ [(num / denom, ti)])
  else Ok recs.

Definition get_TFIDF_recommendations (prefs : RatingMatrix)
    (cosim_matrix : matrix) (user : string) (sim_threshold : Qc)
    (movies : Catalog) (n : nat) : result output :=
  userRatings ← key prefs user;
  recs ← for_each (tfidf_item userRatings cosim_matrix sim_threshold movies)
           (range1 (size movies)) [];
  Ok {| printed := take n (sorted_desc recs); returned := recs |}.

(** One pass of the loop of [get_TFIDF_recommendations_single]. *)
Definition tfidf_single_pair (userRatings : gmap string Qc)
    (cosim_matrix : matrix) (sim_threshold : Qc) (movies : Catalog)
    (movies2 : TitleIndex) (excluded : string) (j : Z) (acc : Qc * Qc)
    : result (Qc * Qc) :=
  tj ← key movies j;
  match userRatings !! tj with
  | None => Ok acc
  | Some rating =>
      e ← key movies2 excluded;
      if decide (e = j) then Ok acc else
      c ← cell cosim_matrix (e - 1) (j - 1);
      if decide (c < sim_threshold) then Ok acc else
      Ok (acc.1 + rating * c, acc.2 + c)
  end.

Definition tfidf_single_row (userRatings : gmap string Qc)
    (cosim_matrix : matrix) (sim_threshold : Qc) (movies : Catalog)
    (movies2 : TitleIndex) (excluded : string) : result (Qc * Qc) :=
  for_each (tfidf_single_pair userRatings cosim_matrix sim_threshold movies
              movies2 excluded)
    (range1 (size movies)) (0, 0).

(** [ii_matrix] is accepted and not used. *)
Definition get_TFIDF_recommendations_single (prefs : RatingMatrix)
    (cosim_matrix : matrix) (user : string) (sim_threshold : Qc)
    (movies : Catalog) (movies2 : TitleIndex) (ii_matrix : ItemSim)
    (excluded : string) : result (option Qc * string) :=
  userRatings ← key prefs user;
  '(num, denom) ← tfidf_single_row userRatings cosim_matrix sim_threshold
                     movies movies2 excluded;
  if decide (0 < num ∧ 0 < denom)
  then Ok (Some (num / denom), excluded)
  else Ok (None, excluded).

(** ** Hybrid scoring *)

(** The hybrid scorers write into a matrix, so matrices live in a store:
    a reference is a location, [deepcopy] allocates a fresh one, and a
    computation threads the store and may raise. *)
Abbreviation loc := positive.

(** The objects that are written to: cosine matrices and the dicts of
    ratings of the users. *)
Inductive obj :=
  | Matrix (m : matrix)
  | Dict (d : gmap string Qc).

#[global] Instance obj_eq_dec : EqDecision obj.
Proof. solve_decision. Defined.

Abbreviation store := (gmap loc obj).
Definition M (A : Type) : Type := store → result A * store.

#[global] Instance M_ret : MRet M := λ A a h, (Ok a, h).
#[global] Instance M_bind : MBind M := λ A B f m h,
  match m h with
  | (Ok a, h') => f a h'
  | (Raise e, h') => (Raise e, h')
  end.

(** A computation that does not touch the store. *)
Definition lift {A} (r : result A) : M A := λ h, (r, h).

(** The matrix a reference points to. *)
Definition deref (l : loc) (h : store) : matrix :=
  match h !! l with Some (Matrix m) => m | _ => [] end.

(** [deepcopy(m)] *)
Definition deepcopy (l : loc) : M loc := λ h,
  let l' := fresh (dom h) in (Ok l', <[l' := Matrix (deref l h)]> h).

(** [len(m)] *)
Definition len (l : loc) : M nat := λ h, (Ok (length (deref l h)), h).

(** [m[r][c]] *)
Definition read_cell (l : loc) (r c : Z) : M Qc := λ h, (cell (deref l h) r c, h).

(** [m[r][c] = v] *)
Definition write_cell (l : loc) (r c : Z) (v : Qc) : M unit := λ h,
  match set_cell (deref l h) r c v with
  | Ok m' => (Ok (), <[l := Matrix m']> h)
  | Raise e => (Raise e, h)
  end.

Fixpoint for_eachM {X S} (body : X → S → M S) (xs : list X) (s : S) : M S :=
  match xs with
  | [] => mret s
  | x :: xs => s' ← body x s; for_eachM body xs s'
  end.

(** What both hybrid scorers do with a rated neighbour [j] (title [tj],
    rating [rating]) of the item in row [r] (title [t]), once [j] is known
    not to be the item itself: the threshold test, the fill-in of an exact
    zero from [ii_matrix], and the two accumulations. *)
Definition hybrid_pair (ii_matrix : ItemSim) (weighted : bool)
    (sim_threshold : Qc) (copy_cosim : loc) (r : Z) (t : string)
    (j : Z) (tj : string) (rating : Qc) (acc : Qc * Qc) : M (Qc * Qc) :=
  let accumulate : M (Qc * Qc) :=
    w ← read_cell copy_cosim r (j - 1);
    mret (acc.1 + rating * w, acc.2 + w) in
  c ← read_cell copy_cosim r (j - 1);
  if decide (c < sim_threshold) then mret acc else
  if decide (c = 0) then
    row ← lift (key ii_matrix t);
    match row !! tj with
    | None => mret acc
    | Some v =>
        if decide (v ≤ 0) then mret acc else
        _ ← write_cell copy_cosim r (j - 1) v;
        _ ← (if weighted then
               w ← read_cell copy_cosim r (j - 1);
               write_cell copy_cosim r (j - 1) (w * HYBRID_WEIGHTING)
             else mret ());
        accumulate
    end
  else accumulate.

(** The inner loop of [get_hybrid_recommendations] for item [i]. *)
Definition hybrid_row (userRatings : gmap string Qc) (copy_cosim : loc)
    (sim_threshold : Qc) (movies : Catalog) (ii_matrix : ItemSim)
    (weighted : bool) (i : Z) (ti : string) : M (Qc * Qc) :=
  n ← len copy_cosim;
  for_eachM (λ j acc,
      tj ← lift (key movies j);
      match userRatings !! tj with
      | None => mret acc
      | Some rating =>
          if decide (i = j) then mret acc else
          hybrid_pair ii_matrix weighted sim_threshold copy_cosim
            (i - 1) ti j tj rating acc
      end)
    (range1 n) (0, 0).

(** One pass of the outer loop. *)
Definition hybrid_item (userRatings : gmap string Qc) (copy_cosim : loc)
    (sim_threshold : Qc) (movies : Catalog) (ii_matrix : ItemSim)
    (weighted : bool) (i : Z) (recs : list (Qc * string))
    : M (list (Qc * string)) :=
  ti ← lift (key movies i);
  if decide (is_Some (userRatings !! ti)) then mret recs else
  '(num, denom) ← hybrid_row userRatings copy_cosim sim_threshold movies
                     ii_matrix weighted i ti;
  if decide (0 < num ∧ 0 < denom)
  then mret (recs ++ [(num / denom, ti)])
  else mret recs.

Definition get_hybrid_recommendations (prefs : RatingMatrix)
    (cosim_matrix : loc) (user : string) (sim_threshold : Qc)
    (movies : Catalog) (ii_matrix : ItemSim) (weighted : bool) (n : nat)
    : M output :=
  userRatings ← lift (key prefs user);
  copy_cosim ← deepcopy cosim_matrix;
  rows ← len copy_cosim;
  recs ← for_eachM (hybrid_item userRatings copy_cosim sim_threshold movies
                      ii_matrix weighted)
           (range1 rows) [];
  mret {| printed := take n (sorted_desc recs); returned := recs |}.

(** The loop of [get_hybrid_recommendations_single]. *)
Definition hybrid_single_row (userRatings : gmap string Qc) (copy_cosim : loc)
    (sim_threshold : Qc) (movies : Catalog) (movies2 : TitleIndex)
    (ii_matrix : ItemSim) (excluded : string) (weighted : bool)
    : M (Qc * Qc) :=
  n ← len copy_cosim;
  for_eachM (λ j acc,
      tj ← lift (key movies j);
      match userRatings !! tj with
      | None => mret acc
      | Some rating =>
          e ← lift (key movies2 excluded);
          if decide (e = j) then mret acc else
          hybrid_pair ii_matrix weighted sim_threshold copy_cosim
            (e - 1) excluded j tj rating acc
      end)
    (range1 n) (0, 0).

Definition get_hybrid_recommendations_single (prefs : RatingMatrix)
    (cosim_matrix : loc) (user : string) (sim_threshold : Qc)
    (movies : Catalog) (movies2 : TitleIndex) (ii_matrix : ItemSim)
    (excluded : string) (weighted : bool) : M (option Qc * string) :=
  userRatings ← lift (key prefs user);
  copy_cosim ← deepcopy cosim_matrix;
  '(num, denom) ← hybrid_single_row userRatings copy_cosim sim_threshold
                     movies movies2 ii_matrix excluded weighted;
  if decide (0 < num ∧ 0 < denom)
  then mret (Some (num / denom), excluded)
  else mret (None, excluded).

(** ** Feature encoding *)

(** A numpy [float64] where a division by zero may have happened: numpy
    warns and carries on with an infinity or NaN.  Signed zeros are not
    modelled. *)
Inductive npf :=
  | Fin (q : Qc)
  | PInf
  | NInf
  | NaN.

#[global] Instance npf_eq_dec : EqDecision npf.
Proof. solve_decision. Defined.

Definition npf_add (x y : npf) : npf :=
  match x, y with
  | NaN, _ | _, NaN => NaN
  | Fin a, Fin b => Fin (a + b)
  | PInf, NInf | NInf, PInf => NaN
  | PInf, _ | _, PInf => PInf
  | NInf, _ | _, NInf => NInf
  end.

(** The infinity with the sign of [a], NaN for 0. *)
Definition signed_inf (a : Qc) : npf :=
  if decide (0 < a) then PInf else if decide (a < 0) then NInf else NaN.

Definition npf_neg (x : npf) : npf :=
  match x with
  | Fin a => Fin (- a)
  | PInf => NInf
  | NInf => PInf
  | NaN => NaN
  end.

Definition npf_mul (x y : npf) : npf :=
  match x, y with
  | NaN, _ | _, NaN => NaN
  | Fin a, Fin b => Fin (a * b)
  | Fin a, PInf | PInf, Fin a => signed_inf a
  | Fin a, NInf | NInf, Fin a => npf_neg (signed_inf a)
  | PInf, PInf | NInf, NInf => PInf
  | PInf, NInf | NInf, PInf => NInf
  end.

Definition npf_div (x y : npf) : npf :=
  match x, y with
  | NaN, _ | _, NaN => NaN
  | Fin a, Fin b => if decide (b = 0) then signed_inf a else Fin (a / b)
  | Fin _, (PInf | NInf) => Fin 0
  | PInf, Fin b => if decide (b < 0) then NInf else PInf
  | NInf, Fin b => if decide (b < 0) then PInf else NInf
  | (PInf | NInf), (PInf | NInf) => NaN
  end.

(** [<] on floats.  Every comparison with NaN is false in Python, which is
    no order to sort by; here NaN is put below everything.  The scores the
    feature encoder sorts come out of [np.nansum], which is NaN only when
    it adds infinities of both signs. *)
Definition npf_lt (x y : npf) : Prop :=
  match x, y with
  | _, NaN => False
  | NaN, _ => True
  | _, NInf => False
  | NInf, _ => True
  | PInf, _ => False
  | _, PInf => True
  | Fin a, Fin b => a < b
  end.

#[global] Instance npf_lt_dec : RelDecision npf_lt.
Proof. intros [] []; simpl; apply _. Defined.

#[global] Instance npf_score : Score npf := {| score_lt := npf_lt |}.

(** [np.sum] and [np.nansum] of a vector. *)
Definition np_sum (v : list npf) : npf := foldl npf_add (Fin 0) v.
Definition np_nansum (v : list npf) : npf :=
  np_sum (filter (λ x, x ≠ NaN) v).

(** The feature matrix: one row of integers per item. *)
Abbreviation Features := (list (list Z)).

(** [features.astype('float64')] *)
Definition as_float (features : Features) : list (list Qc) :=
  map (map Qc_of_Z) features.

(** [shape[1]] *)
Definition ncols {A} (m : list (list A)) : nat :=
  match m with [] => 0 | row :: _ => length row end.

(** [np.sum(m, axis=0)], [np.sum(m)] and [np.count_nonzero(m, axis=0)] *)
Definition col_sums (m : list (list Qc)) : list Qc :=
  foldl (zip_with Qcplus) (replicate (ncols m) 0) m.
Definition overall_sum (m : list (list Qc)) : Qc := sum_Qc (concat m).
Definition nonzero_count (m : list (list Qc)) : list nat :=
  foldl (zip_with (λ k x, if decide (x = 0) then k else S k))
    (replicate (ncols m) 0%nat) m.

(** [m[id] *= r] *)
Definition scale_row (m : list (list Qc)) (id : Z) (r : Qc)
    : result (list (list Qc)) :=
  i ← py_index (length m) id;
  Ok (alter (map (λ x, x * r)) i m).

(** [set(range(0, n))] *)
Definition id_set (n : nat) : gset Z := list_to_set (seqZ 0 (Z.of_nat n)).

(** The vectors every score is computed from. *)
Record encoding := Encoding {
  feature_preference : list (list Qc);
  unrated_ids : list Z;
}.

Section feature_encoding.
(** The order in which [for id in unrated_ids] visits a set of ints. *)
Variable set_iter : gset Z → list Z.

(** The first loop: scale the row of every rated item by its rating. *)
Definition fe_rate (movie_title_to_id : TitleIndex)
    (entry : string * Qc) (st : list (list Qc) * gset Z)
    : result (list (list Qc) * gset Z) :=
  idz ← key movie_title_to_id entry.1;
  m ← scale_row st.1 (idz - 1) entry.2;
  Ok (m, {[(idz - 1)%Z]} ∪ st.2).

(** Up to [norm_vector]: the matrix of rating-scaled rows with the
    unrated rows set to 0, and the unrated ids in the order they are
    visited. *)
Definition fe_encode (prefs : RatingMatrix) (features : Features)
    (movie_title_to_id : TitleIndex) (user : string) : result encoding :=
  userRatings ← key prefs user;
  '(m, rated) ← for_each (fe_rate movie_title_to_id) (map_to_list userRatings)
                  (as_float features, ∅);
  let unrated := set_iter (id_set (length features) ∖ rated) in
  m ← for_each (λ id m, scale_row m id 0) unrated m;
  Ok {| feature_preference := m; unrated_ids := unrated |}.

Definition norm_vector (m : list (list Qc)) : list npf :=
  map (λ c, npf_div (Fin c) (Fin (overall_sum m))) (col_sums m).

(** [features[id] * norm_vector] and its sum. *)
Definition norm_weight (m : list (list Qc)) (row : list Z) : list npf :=
  zip_with (λ f v, npf_mul (Fin (Qc_of_Z f)) v) row (norm_vector m).

(** From [norm_weight = norm_weight/norm_sum] to [final_rec]. *)
Definition final_rec (m : list (list Qc)) (row : list Z) : npf :=
  let norm_sum := np_sum (norm_weight m row) in
  let norm_weight := map (λ x, npf_div x norm_sum) (norm_weight m row) in
  let avgs :=
    zip_with (λ c k, npf_div (Fin c) (Fin (Qc_of_nat k)))
      (col_sums m) (nonzero_count m) in
  let avgs := zip_with (λ a f, npf_mul a (Fin (Qc_of_Z f))) avgs row in
  let weight_avg := zip_with npf_mul avgs norm_weight in
  np_nansum weight_avg.

(** One pass of the loop over the unrated items. *)
Definition fe_item (features : Features) (movies : Catalog)
    (m : list (list Qc)) (n : nat) (id : Z) (recs : list (npf * string))
    : result (list (npf * string)) :=
  row ← get features id;
  if decide (np_sum (norm_weight m row) = Fin 0) then Ok recs else
  t ← key movies (id + 1)%Z;
  Ok (cap n (sorted_desc (recs ++ [(final_rec m row, t)]))).

Definition get_FE_recommendations (prefs : RatingMatrix) (features : Features)
    (movie_title_to_id : TitleIndex) (movies : Catalog) (user : string)
    (n : nat) : result (list (npf * string)) :=
  e ← fe_encode prefs features movie_title_to_id user;
  for_each (fe_item features movies (feature_preference e) n)
    (unrated_ids e) [].

(** The variant the specification allows: append every candidate, sort
    once after the loop, then truncate to [n] if more than 10 are left. *)
Definition fe_append (features : Features) (movies : Catalog)
    (m : list (list Qc)) (id : Z) (recs : list (npf * string))
    : result (list (npf * string)) :=
  row ← get features id;
  if decide (np_sum (norm_weight m row) = Fin 0) then Ok recs else
  t ← key movies (id + 1)%Z;
  Ok (recs ++ [(final_rec m row, t)]).

Definition get_FE_recommendations_sort_once (prefs : RatingMatrix)
    (features : Features) (movie_title_to_id : TitleIndex) (movies : Catalog)
    (user : string) (n : nat) : result (list (npf * string)) :=
  e ← fe_encode prefs features movie_title_to_id user;
  recs ← for_each (fe_append features movies (feature_preference e))
           (unrated_ids e) [];
  Ok (cap n (sorted_desc recs)).

(** The block under [try]. *)
Definition fe_guarded (features : Features) (movies2 : TitleIndex)
    (m : list (list Qc)) (excluded : string) : result npf :=
  idz ← key movies2 excluded;
  row ← get features (idz - 1);
  Ok (final_rec m row).

(** [sim_threshold], [movies] and [ii_matrix] are accepted and not used. *)
Definition get_FE_recommendations_single (prefs : RatingMatrix)
    (features : Features) (user : string) (sim_threshold : Qc)
    (movies : Catalog) (movies2 : TitleIndex) (ii_matrix : ItemSim)
    (excluded : string) : result (option npf * string) :=
  e ← fe_encode prefs features movies2 user;
  idz ← key movies2 excluded;
  row ← get features (idz - 1);
  if decide (np_sum (norm_weight (feature_preference e) row) = Fin 0)
  then Ok (None, excluded) else
  match fe_guarded features movies2 (feature_preference e) excluded with
  | Ok final => Ok (Some final, excluded)
  | Raise _ => Ok (None, excluded)
  end.
End feature_encoding.

(** An id a title can have in a catalog of [n] items, counting the ids
    that Python reads from the end. *)
Definition valid_id (n : nat) (movies2 : TitleIndex) (t : string) : Prop :=
  ∃ idz, movies2 !! t = Some idz ∧
         (- Z.of_nat n ≤ idz - 1 < Z.of_nat n)%Z.

(** [c] times a float, a matrix and a recommendation. *)
Definition npf_scale (c : Qc) (x : npf) : npf :=
  match x with Fin q => Fin (c * q) | _ => x end.
Definition smul (c : Qc) (m : list (list Qc)) : list (list Qc) :=
  map (map (Qcmult c)) m.
Definition rec_scale (c : Qc) (rec : npf * string) : npf * string :=
  (npf_scale c rec.1, rec.2).

(** The matrix with the rows in [D] multiplied by [c]. *)
Definition scale_rows (c : Qc) (D : gset nat) (m : list (list Qc))
    : list (list Qc) :=
  imap (λ j row, if decide (j ∈ D) then Qcmult c <$> row else row) m.

(** The rating matrix with every rating of [user] multiplied by [c]. *)
Definition scale_ratings (c : Qc) (user : string) (prefs : RatingMatrix)
    : RatingMatrix :=
  alter (fmap (Qcmult c)) user prefs.

(** The row of the feature matrix that the first loop of the encoder
    multiplies for the title [t], when it has one. *)
Definition row_of (n : nat) (movie_title_to_id : TitleIndex) (t : string)
    : option nat :=
  match movie_title_to_id !! t with
  | Some idz =>
      match py_index n (idz - 1) with Ok i => Some i | Raise _ => None end
  | None => None
  end.

(** The rows multiplied for the titles [user] has rated, in the order of
    the loop. *)
Definition rated_rows (prefs : RatingMatrix) (features : Features)
    (movie_title_to_id : TitleIndex) (user : string) : list nat :=
  omap (row_of (length features) movie_title_to_id)
    (map_to_list (default ∅ (prefs !! user))).*1.

(** Two runs that end the same way: with the same exception, or with
    results that [P] relates. *)
Definition both {A B} (P : A → B → Prop) (x : result A) (y : result B)
    : Prop :=
  match x, y with
  | Ok a, Ok b => P a b
  | Raise e, Raise e' => e = e'
  | _, _ => False
  end.

(** A set of ints visited from low to high, as CPython visits
    [set(range(n))] less a few of its elements. *)
Definition ascending (s : gset Z) : list Z := merge_sort Z.le (elements s).

(** ** Leave-one-out cross-validation *)

(** [loo_cv_sim] deletes from and writes to the dicts of ratings, so here a
    rating matrix is what Python holds: an outer dict from each user to
    the location of that user's dict of ratings. *)
Abbreviation prefs_ref := (gmap string loc).

(** The dict of ratings a location holds. *)
Definition dict_at (l : loc) (h : store) : gmap string Qc :=
  match h !! l with Some (Dict d) => d | _ => ∅ end.

(** The rating matrix a reference denotes in a store. *)
Definition snapshot (p : prefs_ref) (h : store) : RatingMatrix :=
  (λ l, dict_at l h) <$> p.

(** [deepcopy(prefs)]: every dict of ratings is copied once, to a fresh
    location, and the new outer dict points to the copies. *)
Definition copy_dicts (ls : list loc) (h : store) : gmap loc loc * store :=
  foldr (λ l '(memo, h'),
           let l' := fresh (dom h') in
           (<[l := l']> memo, <[l' := Dict (dict_at l h)]> h'))
        (∅, h) ls.

Definition deepcopy_prefs (p : prefs_ref) : M prefs_ref := λ h,
  let '(memo, h') := copy_dicts (elements (map_img p : gset loc)) h in
  (Ok ((λ l, default l (memo !! l)) <$> p), h').

(** [d[k]], [del d[k]] and [d[k] = v] on the dict at [l]. *)
Definition get_item (l : loc) (k : string) : M Qc := λ h,
  (key (dict_at l h) k, h).

Definition del_item (l : loc) (k : string) : M () := λ h,
  match dict_at l h !! k with
  | Some _ => (Ok (), <[l := Dict (delete k (dict_at l h))]> h)
  | None => (Raise KeyError, h)
  end.

Definition set_item (l : loc) (k : string) (v : Qc) : M () := λ h,
  (Ok (), <[l := Dict (<[k := v]> (dict_at l h))]> h).

(** [list(d.keys())] for the dict at [l]. *)
Definition keys_at (l : loc) : M (list string) := λ h,
  (Ok (map_to_list (dict_at l h)).*1, h).

(** [{v: k for k, v in movies.items()}]: a later item wins. *)
Definition swap_ids (movies : Catalog) : TitleIndex :=
  list_to_map (reverse ((λ '(k, v), (v, k)) <$> map_to_list movies)).

(** The three lists the loop fills. *)
Record tallies := Tallies {
  true_list : list Qc;
  pred_list : list Qc;
  error_list : list Qc;
}.

(** The [if rec[1] == out and rec[0] != None and rec[0] != 0] block; a
    failure inside its [try] leaves the lists as they are. *)
Definition record_error (prefs : prefs_ref) (i out : string)
    (rec : option Qc * string) (t : tallies) : M tallies := λ h,
  match rec.1 with
  | Some pred =>
      if decide (rec.2 = out ∧ pred ≠ 0) then
        match li ← key prefs i; key (dict_at li h) rec.2 with
        | Ok actual =>
            (Ok {| true_list := true_list t ++ [actual];
                   pred_list := pred_list t ++ [pred];
                   error_list := error_list t ++ [(actual - pred) ^ 2] |}, h)
        | Raise _ => (Ok t, h)
        end
      else (Ok t, h)
  | None => (Ok t, h)
  end.

Section loo_cv.
(** The scorer under evaluation, called as
    [algo(newPrefs, sim_matrix, i, sim_threshold, movies, newMovies,
    itemsim, out)] with [sim_matrix], [sim_threshold] and [itemsim] fixed.
    The last argument is the keyword [weighted], when it is passed. *)
Variable algo :
  prefs_ref → string → Catalog → TitleIndex → string → option bool →
  M (option Qc * string).
(** The metrics and the spreadsheet cells computed from the lists once the
    loop is over; they may raise. *)
Variable report : tallies → result ().

(** One trial: hide the rating, score, put the rating back, tally. *)
Definition trial (prefs newPrefs : prefs_ref) (movies : Catalog)
    (newMovies : TitleIndex) (weighted : bool) (i out : string) (t : tallies)
    : M tallies :=
  li ← lift (key newPrefs i);
  save ← get_item li out;
  _ ← del_item li out;
  rec ← algo newPrefs i movies newMovies out
          (if weighted then Some weighted else None);
  li ← lift (key newPrefs i);
  _ ← set_item li out save;
  record_error prefs i out rec t.

(** The trials of one user, over [list(prefs[i].keys())]. *)
Definition user_trials (prefs newPrefs : prefs_ref) (movies : Catalog)
    (newMovies : TitleIndex) (weighted : bool) (i : string) (t : tallies)
    : M tallies :=
  li ← lift (key prefs i);
  outs ← keys_at li;
  for_eachM (trial prefs newPrefs movies newMovies weighted i) outs t.

Definition loo_cv_sim (prefs : prefs_ref) (movies : Catalog) (weighted : bool)
    : M (list Qc) :=
  newPrefs ← deepcopy_prefs prefs;
  let newMovies := swap_ids movies in
  t ← for_eachM (user_trials prefs newPrefs movies newMovies weighted)
        (map_to_list prefs).*1 (Tallies [] [] []);
  _ ← lift (report t);
  mret (error_list t).
End loo_cv.

(** The scorers as [loo_cv_sim] calls them.  The TF-IDF one has no
    [weighted] parameter; the hybrid one has, with default [True]. *)
Definition algo_TFIDF (sim_matrix : loc) (sim_threshold : Qc)
    (itemsim : ItemSim) (newPrefs : prefs_ref) (i : string) (movies : Catalog)
    (newMovies : TitleIndex) (out : string) (weighted : option bool)
    : M (option Qc * string) := λ h,
  match weighted with
  | Some _ => (Raise TypeError, h)
  | None =>
      (get_TFIDF_recommendations_single (snapshot newPrefs h)
         (deref sim_matrix h) i sim_threshold movies newMovies itemsim out, h)
  end.

Definition algo_hybrid (sim_matrix : loc) (sim_threshold : Qc)
    (itemsim : ItemSim) (newPrefs : prefs_ref) (i : string)
    (movies : Catalog) (newMovies : TitleIndex) (out : string)
    (weighted : option bool) : M (option Qc * string) := λ h,
  get_hybrid_recommendations_single (snapshot newPrefs h) sim_matrix i
    sim_threshold movies newMovies itemsim out (default true weighted) h.

(** ** The hybrid scorers without the store

    The same three loops, reading the caller's matrix and writing nothing.
    They are what the properties below compare the scorers with. *)

(** The weight [hybrid_pair] gives a pair; [None] when it drops it. *)
Definition hybrid_weight (ii_matrix : ItemSim) (weighted : bool)
    (sim_threshold : Qc) (cosim_matrix : matrix) (r : Z) (t : string)
    (j : Z) (tj : string) : result (option Qc) :=
  c ← cell cosim_matrix r (j - 1);
  if decide (c < sim_threshold) then Ok None else
  if decide (c = 0) then
    row ← key ii_matrix t;
    match row !! tj with
    | None => Ok None
    | Some v =>
        if decide (v ≤ 0) then Ok None
        else Ok (Some (if weighted then v * HYBRID_WEIGHTING else v))
    end
  else Ok (Some c).

(** [num += rating * w; denom += w] for a pair that was not dropped. *)
Definition add_weight (acc : Qc * Qc) (rating : Qc) (w : option Qc) : Qc * Qc :=
  match w with
  | None => acc
  | Some w => (acc.1 + rating * w, acc.2 + w)
  end.

Definition hybrid_row_pure (userRatings : gmap string Qc)
    (cosim_matrix : matrix) (sim_threshold : Qc) (movies : Catalog)
    (ii_matrix : ItemSim) (weighted : bool) (i : Z) (ti : string)
    : result (Qc * Qc) :=
  for_each (λ j acc,
      tj ← key movies j;
      match userRatings !! tj with
      | None => Ok acc
      | Some rating =>
          if decide (i = j) then Ok acc else
          w ← hybrid_weight ii_matrix weighted sim_threshold cosim_matrix
                (i - 1) ti j tj;
          Ok (add_weight acc rating w)
      end)
    (range1 (length cosim_matrix)) (0, 0).

Definition hybrid_single_row_pure (userRatings : gmap string Qc)
    (cosim_matrix : matrix) (sim_threshold : Qc) (movies : Catalog)
    (movies2 : TitleIndex) (ii_matrix : ItemSim) (excluded : string)
    (weighted : bool) : result (Qc * Qc) :=
  for_each (λ j acc,
      tj ← key movies j;
      match userRatings !! tj with
      | None => Ok acc
      | Some rating =>
          e ← key movies2 excluded;
          if decide (e = j) then Ok acc else
          w ← hybrid_weight ii_matrix weighted sim_threshold cosim_matrix
                (e - 1) excluded j tj;
          Ok (add_weight acc rating w)
      end)
    (range1 (length cosim_matrix)) (0, 0).

(** One pass of the outer loop of a full-catalog scorer whose inner loop
    is [row]. *)
Definition score_item (row : Z → string → result (Qc * Qc))
    (userRatings : gmap string Qc) (movies : Catalog) (i : Z)
    (recs : list (Qc * string)) : result (list (Qc * string)) :=
  ti ← key movies i;
  if decide (is_Some (userRatings !! ti)) then Ok recs else
  '(num, denom) ← row i ti;
  if decide (0 < num ∧ 0 < denom)
  then Ok (recs ++ [(num / denom, ti)])
  else Ok recs.

(** Item [i] yields the recommendation [(s, t)]: it is unrated, both of
    its sums are positive and [s] is their quotient. *)
Definition yields (row : Z → string → result (Qc * Qc))
    (userRatings : gmap string Qc) (movies : Catalog)
    (i : Z) (s : Qc) (t : string) : Prop :=
  movies !! i = Some t ∧ userRatings !! t = None ∧
  ∃ num denom, row i t = Ok (num, denom) ∧
               0 < num ∧ 0 < denom ∧ s = num / denom.

(** ** Transposition, title index and neighbours *)

(** [result.setdefault(item, {}); result[item][person] = prefs[person][item]] *)
Definition flip_rating (person : string) (result : RatingMatrix)
    (entry : string * Qc) : RatingMatrix :=
  <[entry.1 := <[person := entry.2]> (default ∅ (result !! entry.1))]> result.

Definition transformPrefs (prefs : RatingMatrix) : RatingMatrix :=
  foldl (λ result '(person, ratings),
           foldl (flip_rating person) result (map_to_list ratings))
        ∅ (map_to_list prefs).

(** [m[a][b]] on a dict of dicts, when both keys are there. *)
Definition rating_of (m : RatingMatrix) (a b : string) : option Qc :=
  m !! a ≫= λ row, row !! b.

(** [for id in movies.keys(): movie_title_to_id[movies[id]] = id] *)
Definition movie_to_ID (movies : Catalog) : result TitleIndex :=
  for_each (λ id movie_title_to_id,
              title ← key movies id;
              Ok (<[title := id]> movie_title_to_id))
    (map_to_list movies).*1 ∅.

(** The similarity function [topMatches] and [calculateSimilarItems] are
    given: [sim_distance] or [sim_pearson]. *)
Abbreviation similarity_fn := (RatingMatrix → string → string → Qc → result Qc).

(** [sim_threshold] is accepted and not used; the result is a dict from
    each of the best [n] others to its score. *)
Definition topMatches (similarity : similarity_fn) (prefs : RatingMatrix)
    (person : string) (n : nat) (sim_weighting sim_threshold : Qc)
    : result (gmap string Qc) :=
  scores ← for_each (λ other scores,
                       score ← similarity prefs person other sim_weighting;
                       if decide (other ≠ person)
                       then Ok (scores ++ [(score, other)])
                       else Ok scores)
             (map_to_list prefs).*1 [];
  let scores := take n (sorted_desc scores) in
  Ok (foldl (λ scores_dict sc, <[sc.2 := sc.1]> scores_dict) ∅ scores).

(** The progress messages of the loop are left out. *)
Definition calculateSimilarItems (similarity : similarity_fn)
    (prefs : RatingMatrix) (sim_weighting sim_threshold : Qc)
    : result ItemSim :=
  let itemPrefs := transformPrefs prefs in
  for_each (λ item result,
              scores ← topMatches similarity itemPrefs item 100 sim_weighting
                         sim_threshold;
              Ok (<[item := scores]> result))
    (map_to_list itemPrefs).*1 ∅.

(** ** Predicates of the statements *)

(** The pair of ratings of a shared item, the other way round. *)
Definition flip_shared (e : string * (Qc * Qc)) : string * (Qc * Qc) :=
  (e.1, (e.2.2, e.2.1)).

(** [m] leaves every location other than [c] as it found it. *)
Definition frames {A} (c : loc) (m : M A) : Prop :=
  ∀ h l, l ≠ c → (m h).2 !! l = h !! l.

(** [m'] comes from [m] by writes to row [r]. *)
Definition row_writes (r : Z) (m m' : matrix) : Prop :=
  length m' = length m ∧
  ∀ r' c', (0 ≤ r)%Z → (0 ≤ r')%Z → r' ≠ r → cell m' r' c' = cell m r' c'.

(** [m] leaves the objects of [h0] as they are in [h0]. *)
Definition keeps {A} (h0 : store) (m : M A) : Prop :=
  ∀ h, (∀ l, is_Some (h0 !! l) → h !! l = h0 !! l) →
       ∀ l, is_Some (h0 !! l) → (m h).2 !! l = h0 !! l.

(** A scorer that writes to no object that exists when it is called. *)
Definition reads_only
    (algo : prefs_ref → string → Catalog → TitleIndex → string → option bool →
            M (option Qc * string)) : Prop :=
  ∀ newPrefs i movies newMovies out weighted h l,
    is_Some (h !! l) →
    (algo newPrefs i movies newMovies out weighted h).2 !! l = h !! l.

(** The working copy [newPrefs] holds, in fresh objects, what [prefs] held
    in the caller's store [h0], and the objects of [h0] are as they were. *)
Definition restored (h0 : store) (prefs newPrefs : prefs_ref) (h : store)
    : Prop :=
  (∀ l, is_Some (h0 !! l) → h !! l = h0 !! l) ∧
  (∀ u, is_Some (prefs !! u) → is_Some (newPrefs !! u)) ∧
  (∀ u l l', prefs !! u = Some l → newPrefs !! u = Some l' →
     h0 !! l' = None ∧ h !! l' = Some (Dict (dict_at l h0))).

(** The scores are totally ordered. *)
Class ScoreLaws (T : Type) `{Score T} := {
  score_lt_strict :: StrictOrder (score_lt (T := T));
  score_lt_trichotomy (x y : T) : score_lt x y ∨ x = y ∨ score_lt y x;
}.

(** The bodies of the inner loops of the hybrid scorers, in the store and
    over the caller's matrix [m0]; [sel] tells which neighbours are
    candidates, with their title and rating. *)
Definition hybrid_body (ii_matrix : ItemSim) (weighted : bool)
    (sim_threshold : Qc) (copy_cosim : loc) (r : Z) (t : string)
    (sel : Z → result (option (string * Qc))) (j : Z) (acc : Qc * Qc)
    : M (Qc * Qc) :=
  o ← lift (sel j);
  match o with
  | None => mret acc
  | Some (tj, rating) =>
      hybrid_pair ii_matrix weighted sim_threshold copy_cosim r t j tj
        rating acc
  end.

Definition hybrid_body_pure (ii_matrix : ItemSim) (weighted : bool)
    (sim_threshold : Qc) (m0 : matrix) (r : Z) (t : string)
    (sel : Z → result (option (string * Qc))) (j : Z) (acc : Qc * Qc)
    : result (Qc * Qc) :=
  o ← sel j;
  match o with
  | None => Ok acc
  | Some (tj, rating) =>
      add_weight acc rating <$>
        hybrid_weight ii_matrix weighted sim_threshold m0 r t j tj
  end.

(** No row of the matrix is empty. *)
Definition no_empty_row (m : RatingMatrix) : Prop :=
  ∀ a row, m !! a = Some row → row ≠ ∅.

(** The sums of a weighted average of numbers from [lo] to [hi], with
    weights that are not negative. *)
Definition averages (lo hi : Qc) (acc : Qc * Qc) : Prop :=
  0 ≤ acc.2 ∧ lo * acc.2 ≤ acc.1 ∧ acc.1 ≤ hi * acc.2.

(** Every result [m] returns satisfies [P]. *)
Definition results {A} (P : A → Prop) (m : M A) : Prop :=
  ∀ h a h', m h = (Ok a, h') → P a.

(** The three lists of [loo_cv_sim] go together: one entry each per tallied
    trial, the error the square of actual less predicted, no predicted
    rating 0. *)
Definition tallies_ok (t : tallies) : Prop :=
  length (true_list t) = length (pred_list t) ∧
  error_list t = zip_with (λ a p, (a - p) ^ 2) (true_list t) (pred_list t) ∧
  Forall (λ p, p ≠ 0) (pred_list t).

(** Every entry of the matrix is 0. *)
Definition all_zero (m : list (list Qc)) : Prop :=
  Forall (Forall (λ x, x = 0)) m.

(** ** The dense user-item matrix *)

(** [l.index(x)] *)
Definition list_index (x : string) (l : list string) : result nat :=
  match list_find (λ y, y = x) l with
  | Some (i, _) => Ok i
  | None => Raise ValueError
  end.

(** [l.sort()] on a list of strings. *)
Definition sort_keys (l : list string) : list string := merge_sort String.le l.

(** One pass of the inner loop of [prefs_to_2D_list]: an exception of the
    assignment is printed and the loop goes on. *)
Definition place_rating (user_keys_list item_keys_list : list string)
    (user : string) (entry : string * Qc) (ui_matrix : matrix)
    : result matrix :=
  user_idx ← list_index user user_keys_list;
  movieid_idx ← list_index entry.1 item_keys_list;
  match set_cell ui_matrix (Z.of_nat user_idx) (Z.of_nat movieid_idx)
          entry.2 with
  | Ok m => Ok m
  | Raise _ => Ok ui_matrix
  end.

Definition prefs_to_2D_list (prefs : RatingMatrix) : result matrix :=
  let user_keys_list := sort_keys (map_to_list prefs).*1 in
  let itemPrefs := transformPrefs prefs in
  let item_keys_list := sort_keys (map_to_list itemPrefs).*1 in
  let ui_matrix :=
    replicate (length user_keys_list)
      (replicate (length item_keys_list) (0 : Qc)) in
  for_each (λ '(user, ratings) ui_matrix,
              for_each (place_rating user_keys_list item_keys_list user)
                (map_to_list ratings) ui_matrix)
    (map_to_list prefs) ui_matrix.

(** [np.array(R)] of a list of rows of one length is the matrix; the
    message printed reads [len(R[0])]. *)
Definition to_array (prefs : RatingMatrix) : result matrix :=
  R ← prefs_to_2D_list prefs;
  _ ← get R 0;
  Ok R.

(** The entry in row [i] and column [j], when there is one. *)
Definition entry (m : matrix) (i j : nat) : option Qc :=
  m !! i ≫= λ row, row !! j.

(** A matrix of [nu] rows of [ni] entries. *)
Definition dims (nu ni : nat) (m : matrix) : Prop :=
  length m = nu ∧ Forall (λ row, length row = ni) m.

(** ** Feature strings and documents *)

(** [str(x)] of an integer. *)
Definition str (x : Z) : string := pretty x.

(** [s[i]] on a string. *)
Definition char_at (s : string) (i : nat) : result Ascii.ascii :=
  match String.get i s with Some c => Ok c | None => Raise IndexError end.

(** The message printed at the end reads [len(feature_str[0])]. *)
Definition to_string (features : Features) : result (list string) :=
  feature_str ←
    for_each (λ i feature_str,
        first ← get features 0;
        row ← for_each (λ j row,
                  r ← get features i;
                  x ← get r j;
                  Ok (row +:+ str x))
                (seqZ 0 (Z.of_nat (length first))) "";
        Ok (feature_str ++ [row]))
      (seqZ 0 (Z.of_nat (length features))) [];
  _ ← get feature_str 0;
  Ok feature_str.

(** [c.isspace()]; a character is its Latin-1 code, as the files are
    read. *)
Definition isspace (c : Ascii.ascii) : bool :=
  let n := Ascii.nat_of_ascii c in
  bool_decide (9 ≤ n ≤ 13 ∨ 28 ≤ n ≤ 32 ∨ n = 133 ∨ n = 160)%nat.

(** [s.lstrip()], [s.rstrip()] and [s.strip()] *)
Fixpoint lstrip (s : string) : string :=
  match s with
  | String c s' => if isspace c then lstrip s' else s
  | EmptyString => EmptyString
  end.

Fixpoint rstrip (s : string) : string :=
  match s with
  | String c s' =>
      let r := rstrip s' in
      if isspace c && bool_decide (r = "") then "" else String c r
  | EmptyString => EmptyString
  end.

Definition strip (s : string) : string := rstrip (lstrip s).

(** The genre names by genre index. *)
Abbreviation Genres := (gmap Z string).

Definition to_docs (features_str : list string) (genres : Genres)
    : result (list string) :=
  for_each (λ doc_str feature_docs,
      row ← for_each (λ i row,
                c ← char_at doc_str i;
                if decide (c = "1"%char) then
                  g ← key genres (Z.of_nat i);
                  Ok (row +:+ (g +:+ " "))
                else Ok row)
              (seq 0 (String.length doc_str)) "";
      Ok (feature_docs ++ [strip row]))
    features_str [].

(** The character of a digit. *)
Definition digit (x : Z) : Ascii.ascii := Ascii.ascii_of_nat (48 + Z.to_nat x).

(** The positions of a string that hold the character 1, and the genres
    they name. *)
Definition ones (s : string) : list nat :=
  filter (λ i, String.get i s = Some "1"%char) (seq 0 (String.length s)).

Definition genre_names (genres : Genres) (s : string) : list string :=
  omap (λ i, genres !! Z.of_nat i) (ones s).

Definition named (genres : Genres) (s : string) : Prop :=
  Forall (λ i, is_Some (genres !! Z.of_nat i)) (ones s).

(** The genres of the columns in which a row of features holds 1. *)
Definition row_genres (genres : Genres) (row : list Z) : list string :=
  omap (λ j, genres !! Z.of_nat j)
    (filter (λ j, row !! j = Some 1%Z) (seq 0 (length row))).

(** A name as [from_file_to_2D] stores it: stripped, and not empty. *)
Definition stripped (g : string) : Prop := g ≠ "" ∧ strip g = g.

(** Rows of one width, of digits. *)
Definition digit_rows (features : Features) : Prop :=
  Forall (λ row, length row = ncols features ∧
                 Forall (λ x, 0 ≤ x ≤ 9)%Z row) features.

(** The row [to_docs] builds from a list of names, before [strip]. *)
Definition spaced (gs : list string) : string :=
  foldr (λ g acc, g +:+ (" " +:+ acc)) "" gs.

(** Every column has a genre. *)
Definition columns_named (genres : Genres) (features : Features) : Prop :=
  ∀ j, (j < ncols features)%nat → is_Some (genres !! Z.of_nat j).

(** ** Concrete inputs *)

(** Two users who rated the same four items. *)
Definition ratings_A : gmap string Qc :=
  {[ "w" := qc 1 1; "x" := qc 1 1; "y" := qc 3 1; "z" := qc 3 1 ]}.
Definition ratings_B : gmap string Qc :=
  {[ "w" := qc 2 1; "x" := qc 2 1; "y" := qc 4 1; "z" := qc 4 1 ]}.
Definition prefs_pearson : RatingMatrix :=
  {[ "A" := ratings_A; "B" := ratings_B ]}.

(** A catalog of four items; user [u] rated the first two. *)
Definition movies4 : Catalog := {[ 1%Z := "A"; 2%Z := "B"; 3%Z := "C"; 4%Z := "D" ]}.
Definition movies4_ids : TitleIndex :=
  {[ "A" := 1%Z; "B" := 2%Z; "C" := 3%Z; "D" := 4%Z ]}.
Definition prefs_u : RatingMatrix :=
  {[ "u" := {[ "A" := qc 1 1; "B" := qc 5 1 ]} ]}.
Definition cosim4 : matrix :=
  [ [qc 1 1; qc 0 1; qc 1 1; qc 0 1];
    [qc 0 1; qc 1 1; qc 0 1; qc 1 1];
    [qc 1 1; qc 0 1; qc 1 1; qc 0 1];
    [qc 0 1; qc 1 1; qc 0 1; qc 1 1] ].
Definition itemsim4 : ItemSim :=
  {[ "C" := {[ "B" := qc 4 5 ]}; "D" := ∅ ]}.
(** A store holding [cosim4] at location 1. *)
Definition store4 : store := {[ 1%positive := Matrix cosim4 ]}.

(** A store with [cosim4] at location 1 and the ratings of [u] at
    location 2, and the rating matrix that points to them. *)
Definition store_u : store :=
  {[ 1%positive := Matrix cosim4;
     2%positive := Dict {[ "A" := qc 1 1; "B" := qc 5 1 ]} ]}.
Definition prefs_ref_u : prefs_ref := {[ "u" := 2%positive ]}.
Definition itemsim_u : ItemSim :=
  {[ "A" := {[ "B" := qc 1 2 ]}; "B" := {[ "A" := qc 1 1 ]} ]}.

(** Thirteen items with the one feature; [u] rated the first. *)
Definition features13 : Features := replicate 13 [1%Z].
Definition titles13 : list string :=
  ["a"; "b"; "c"; "d"; "e"; "f"; "g"; "h"; "i"; "j"; "k"; "l"; "m"].
Definition movies13 : Catalog := list_to_map (zip (seqZ 1 13) titles13).
Definition movies13_ids : TitleIndex := list_to_map (zip titles13 (seqZ 1 13)).
Definition prefs13 : RatingMatrix := {[ "u" := {[ "a" := qc 3 1 ]} ]}.

(** Five items with two features; the user has rated the first two. *)
Definition features5 : Features :=
  [[1; 0]; [0; 1]; [1; 1]; [1; 0]; [0; 1]]%Z.
Definition titles5 : list string := ["a"; "b"; "c"; "d"; "e"].
Definition movies5 : Catalog := list_to_map (zip (seqZ 1 5) titles5).
Definition movies5_ids : TitleIndex := list_to_map (zip titles5 (seqZ 1 5)).
Definition prefs5 : RatingMatrix :=
  {[ "u" := {[ "a" := qc 4 1; "b" := qc 2 1 ]} ]}.

(** Two items over three genres. *)
Definition features3 : Features := [[1; 0; 1]; [0; 0; 0]]%Z.
Definition genres3 : Genres :=
  {[ 0%Z := "Action"; 1%Z := "Sci-Fi"; 2%Z := "War" ]}.

(** * Properties *)

(** Closed decidable statements are settled by evaluation. *)
Ltac by_compute := apply (bool_decide_eq_true_1 _); vm_compute; reflexivity.

(** ** Sums of rationals *)

Lemma foldl_Qcplus_acc (l : list Qc) (a : Qc) :
  foldl Qcplus a l = a + foldl Qcplus 0 l.
Proof.
  revert a. induction l as [|x l IH]; intros a; simpl.
  - ring.
  - rewrite (IH (a + x)), (IH (0 + x)). ring.
Qed.

Lemma sum_Qc_cons (x : Qc) (l : list Qc) : sum_Qc (x :: l) = x + sum_Qc l.
Proof. unfold sum_Qc. simpl. rewrite foldl_Qcplus_acc. ring. Qed.

Lemma sum_Qc_perm (l1 l2 : list Qc) : l1 ≡ₚ l2 → sum_Qc l1 = sum_Qc l2.
Proof.
  induction 1 as [|x l1 l2 _ IH|x y l|l1 l2 l3 _ IH1 _ IH2].
  - done.
  - by rewrite !sum_Qc_cons, IH.
  - rewrite !sum_Qc_cons. ring.
  - congruence.
Qed.

Lemma sum_Qc_ext {A} (f g : A → Qc) (l : list A) :
  (∀ a, a ∈ l → f a = g a) → sum_Qc (f <$> l) = sum_Qc (g <$> l).
Proof.
  induction l as [|a l IH]; intros Hfg; [done|].
  rewrite !fmap_cons, !sum_Qc_cons, Hfg, IH; [done| |left].
  intros b Hb. apply Hfg. by right.
Qed.

(** ** Shared items *)

Lemma elem_of_shared_items (r1 r2 : gmap string Qc) item x y :
  (item, (x, y)) ∈ shared_items r1 r2 ↔ r1 !! item = Some x ∧ r2 !! item = Some y.
Proof.
  unfold shared_items. rewrite list_elem_of_omap. split.
  - intros [[i x'] [Hin Heq]]. apply elem_of_map_to_list in Hin.
    destruct (r2 !! i) as [y'|] eqn:E; simplify_eq/=. done.
  - intros [H1 H2]. exists (item, x). split; [by apply elem_of_map_to_list|].
    by rewrite H2.
Qed.

Lemma NoDup_shared_items (r1 r2 : gmap string Qc) : NoDup (shared_items r1 r2).
Proof.
  apply (NoDup_fmap_1 fst).
  assert (Hsub : fst <$> shared_items r1 r2 `sublist_of` (map_to_list r1).*1).
  { unfold shared_items. induction (map_to_list r1) as [|[i x] l IH]; [done|].
    simpl. destruct (r2 !! i); simpl; by constructor. }
  eapply sublist_NoDup; [|exact Hsub]. apply NoDup_fst_map_to_list.
Qed.

Lemma shared_items_flip (r1 r2 : gmap string Qc) :
  shared_items r2 r1 ≡ₚ flip_shared <$> shared_items r1 r2.
Proof.
  apply NoDup_Permutation.
  - apply NoDup_shared_items.
  - apply NoDup_fmap_2; [|apply NoDup_shared_items].
    intros [i [x y]] [i' [x' y']]. unfold flip_shared. naive_solver.
  - intros [i [y x]]. rewrite elem_of_shared_items, list_elem_of_fmap. split.
    + intros [H2 H1]. exists (i, (x, y)). split; [done|].
      by apply elem_of_shared_items.
    + intros [[i' [x' y']] [Heq [??]%elem_of_shared_items]].
      unfold flip_shared in Heq. naive_solver.
Qed.

Lemma shared_items_length_flip (r1 r2 : gmap string Qc) :
  length (shared_items r2 r1) = length (shared_items r1 r2).
Proof. by rewrite shared_items_flip, length_fmap. Qed.

Lemma shared_items_empty_l (r : gmap string Qc) : shared_items ∅ r = [].
Proof. unfold shared_items. by rewrite map_to_list_empty. Qed.

Lemma shared_items_empty_r (r : gmap string Qc) : shared_items r ∅ = [].
Proof.
  unfold shared_items. induction (map_to_list r) as [|[i x] l IH]; [done|].
  simpl. by rewrite lookup_empty.
Qed.

Lemma sum_shared_flip (f : string * (Qc * Qc) → Qc) (r1 r2 : gmap string Qc) :
  sum_Qc (f <$> shared_items r2 r1) = sum_Qc ((f ∘ flip_shared) <$> shared_items r1 r2).
Proof.
  rewrite (list_fmap_compose flip_shared f). apply sum_Qc_perm.
  by rewrite shared_items_flip.
Qed.

(** ** Symmetry of the two similarity functions *)

Section similarity_facts.
Variable sqrt : Qc → Qc.

Lemma sim_distance_sym_present (prefs : RatingMatrix) p1 p2 k r1 r2 :
  prefs !! p1 = Some r1 → prefs !! p2 = Some r2 →
  sim_distance sqrt prefs p1 p2 k = sim_distance sqrt prefs p2 p1 k.
Proof.
  intros H1 H2. unfold sim_distance, key. rewrite H1, H2. simpl.
  rewrite (shared_items_length_flip r1 r2).
  destruct (decide (r1 = ∅)) as [->|Hr1], (decide (r2 = ∅)) as [->|Hr2];
    rewrite ?shared_items_empty_l, ?shared_items_empty_r; simpl; try done.
  destruct (decide (length (shared_items r1 r2) = 0%nat)); [done|].
  rewrite (sum_shared_flip _ r1 r2).
  rewrite (sum_Qc_ext ((λ '(_, (x, y)), (x - y) * (x - y)) ∘ flip_shared)
             (λ '(_, (x, y)), (x - y) * (x - y))); [done|].
  intros [i [x y]] _. simpl. ring.
Qed.

Lemma sim_pearson_sym_present (prefs : RatingMatrix) p1 p2 k r1 r2 :
  prefs !! p1 = Some r1 → prefs !! p2 = Some r2 →
  sim_pearson sqrt prefs p1 p2 k = sim_pearson sqrt prefs p2 p1 k.
Proof.
  intros H1 H2. unfold sim_pearson, key. rewrite H1, H2. simpl.
  rewrite (shared_items_length_flip r1 r2).
  destruct (decide (r1 = ∅)) as [->|Hr1], (decide (r2 = ∅)) as [->|Hr2];
    rewrite ?shared_items_empty_l, ?shared_items_empty_r; simpl; try done.
  destruct (decide (length (shared_items r1 r2) = 0%nat)); [done|].
  set (m := Qc_of_nat (length (shared_items r1 r2))).
  rewrite !(sum_shared_flip _ r1 r2).
  rewrite (sum_Qc_ext ((λ '(_, (x, _)), x) ∘ flip_shared) (λ '(_, (_, y)), y))
    by (by intros [i [x y]] _).
  rewrite (sum_Qc_ext ((λ '(_, (_, y)), y) ∘ flip_shared) (λ '(_, (x, _)), x))
    by (by intros [i [x y]] _).
  set (xa := sum_Qc ((λ '(_, (x, _)), x) <$> shared_items r1 r2) / m).
  set (ya := sum_Qc ((λ '(_, (_, y)), y) <$> shared_items r1 r2) / m).
  rewrite (sum_Qc_ext ((λ '(_, (x, y)), (x - ya) * (y - xa)) ∘ flip_shared)
             (λ '(_, (x, y)), (x - xa) * (y - ya)))
    by (intros [i [x y]] _; simpl; ring).
  rewrite (sum_Qc_ext ((λ '(_, (x, _)), (x - ya) ^ 2) ∘ flip_shared)
             (λ '(_, (_, y)), (y - ya) ^ 2)) by (by intros [i [x y]] _).
  rewrite (sum_Qc_ext ((λ '(_, (_, y)), (y - xa) ^ 2) ∘ flip_shared)
             (λ '(_, (x, _)), (x - xa) ^ 2)) by (by intros [i [x y]] _).
  by rewrite (Qcmult_comm (sqrt (sum_Qc ((λ '(_, (_, y)), (y - ya) ^ 2) <$> _)))).
Qed.
End similarity_facts.

(** C10: both similarity functions are symmetric in their two users,
    for every rating matrix that contains both and every weighting factor. *)
Theorem similarity_symmetric (sqrt : Qc → Qc) (prefs : RatingMatrix)
    (p1 p2 : string) (k : Qc) :
  is_Some (prefs !! p1) → is_Some (prefs !! p2) →
  sim_distance sqrt prefs p1 p2 k = sim_distance sqrt prefs p2 p1 k ∧
  sim_pearson sqrt prefs p1 p2 k = sim_pearson sqrt prefs p2 p1 k.
Proof.
  intros [r1 H1] [r2 H2]. split.
  - by eapply sim_distance_sym_present.
  - by eapply sim_pearson_sym_present.
Qed.

(** ** Significance weighting *)

Section weighting_facts.
Variable sqrt : Qc → Qc.

Lemma shared_count_eq (prefs : RatingMatrix) p1 p2 r1 r2 :
  prefs !! p1 = Some r1 → prefs !! p2 = Some r2 →
  shared_count prefs p1 p2 = length (shared_items r1 r2).
Proof. intros H1 H2. unfold shared_count. by rewrite H1, H2. Qed.

(** [sim_distance] scales by m/k exactly when m < k. *)
Lemma sim_distance_weighting (prefs : RatingMatrix) p1 p2 (k : Qc) :
  is_Some (prefs !! p1) → is_Some (prefs !! p2) → 0 < k →
  let m := Qc_of_nat (shared_count prefs p1 p2) in
  (0 < m → m < k →
     sim_distance sqrt prefs p1 p2 k
     = (λ s, s * (m / k)) <$> sim_distance sqrt prefs p1 p2 0) ∧
  (k ≤ m →
     sim_distance sqrt prefs p1 p2 k = sim_distance sqrt prefs p1 p2 0).
Proof.
  intros [r1 H1] [r2 H2] Hk. simpl.
  rewrite (shared_count_eq _ _ _ _ _ H1 H2).
  assert (k ≠ 0) as Hk0 by (intros ->; by apply Qclt_not_eq in Hk).
  unfold sim_distance, key. rewrite H1, H2. simpl.
  split.
  - intros Hm Hmk. destruct (decide (r1 = ∅)) as [->|_].
    { by rewrite shared_items_empty_l in Hm. }
    destruct (decide (length _ = 0%nat)) as [E|_].
    { by rewrite E in Hm. }
    simpl. by rewrite !decide_True by done.
  - intros Hkm. destruct (decide (r1 = ∅)); [done|].
    destruct (decide (length _ = 0%nat)); [done|].
    rewrite (decide_True (P := k ≠ 0)) by done.
    by rewrite decide_False by (by apply Qcle_not_lt).
Qed.

(** [sim_pearson] scales by m/k for every k other than 0: the test
    [len(si) < sim_weighting] of [sim_distance] is not there. *)
Lemma sim_pearson_weighting (prefs : RatingMatrix) p1 p2 (k : Qc) :
  is_Some (prefs !! p1) → is_Some (prefs !! p2) → k ≠ 0 →
  let m := Qc_of_nat (shared_count prefs p1 p2) in
  sim_pearson sqrt prefs p1 p2 k
  = (λ s, s * (m / k)) <$> sim_pearson sqrt prefs p1 p2 0.
Proof.
  intros [r1 H1] [r2 H2] Hk. simpl.
  rewrite (shared_count_eq _ _ _ _ _ H1 H2).
  unfold sim_pearson, key. rewrite H1, H2. simpl.
  destruct (decide (r1 = ∅)); [simpl; f_equal; ring|].
  destruct (decide (length _ = 0%nat)); [simpl; f_equal; ring|].
  destruct (decide (_ * _ ≠ 0)); [|simpl; f_equal; ring].
  by rewrite (decide_True (P := k ≠ 0)) by done.
Qed.
End weighting_facts.

(** The four shared items of [prefs_pearson], in iteration order. *)
Lemma prefs_pearson_shared :
  shared_items ratings_A ratings_B
  = [("w", (qc 1 1, qc 2 1)); ("y", (qc 3 1, qc 4 1));
     ("z", (qc 3 1, qc 4 1)); ("x", (qc 1 1, qc 2 1))].
Proof. by_compute. Qed.

Lemma prefs_pearson_unweighted (sqrt : Qc → Qc) :
  sqrt (qc 4 1) = qc 2 1 →
  sim_pearson sqrt prefs_pearson "A" "B" 0 = Ok (qc 1 1).
Proof.
  intros Hsqrt. unfold sim_pearson, key.
  assert (prefs_pearson !! "A" = Some ratings_A) as -> by by_compute.
  assert (prefs_pearson !! "B" = Some ratings_B) as -> by by_compute.
  cbn [mbind result_bind]. rewrite decide_False by by_compute.
  rewrite prefs_pearson_shared.
  set (si := [("w", _); _; _; _]).
  rewrite (decide_False (P := length si = 0%nat)) by done.
  assert (sum_Qc ((λ '(_, (x, _)), x) <$> si) / Qc_of_nat (length si) = qc 2 1)
    as -> by by_compute.
  assert (sum_Qc ((λ '(_, (_, y)), y) <$> si) / Qc_of_nat (length si) = qc 3 1)
    as -> by by_compute.
  assert (sum_Qc ((λ '(_, (x, _)), (x - qc 2 1) ^ 2) <$> si) = qc 4 1)
    as -> by by_compute.
  assert (sum_Qc ((λ '(_, (_, y)), (y - qc 3 1) ^ 2) <$> si) = qc 4 1)
    as -> by by_compute.
  assert (sum_Qc ((λ '(_, (x, y)), (x - qc 2 1) * (y - qc 3 1)) <$> si) = qc 4 1)
    as -> by by_compute.
  rewrite Hsqrt. rewrite decide_True by by_compute.
  rewrite decide_False by (by intros []). f_equal. by_compute.
Qed.

(** C3, at a failing input: two users share m = 4 items and k = 2, so
    m >= k and weighting should leave the similarity alone; [sim_distance]
    does, [sim_pearson] doubles its value to 2. *)
Theorem sim_pearson_weighting_bug (sqrt : Qc → Qc) :
  sqrt (qc 4 1) = qc 2 1 →
  shared_count prefs_pearson "A" "B" = 4%nat ∧
  sim_pearson sqrt prefs_pearson "A" "B" 0 = Ok (qc 1 1) ∧
  sim_pearson sqrt prefs_pearson "A" "B" (qc 2 1) = Ok (qc 2 1) ∧
  sim_distance sqrt prefs_pearson "A" "B" (qc 2 1)
  = sim_distance sqrt prefs_pearson "A" "B" 0.
Proof.
  intros Hsqrt.
  assert (HA : prefs_pearson !! "A" = Some ratings_A) by by_compute.
  assert (HB : prefs_pearson !! "B" = Some ratings_B) by by_compute.
  assert (Hm : shared_count prefs_pearson "A" "B" = 4%nat).
  { by rewrite (shared_count_eq _ _ _ _ _ HA HB), prefs_pearson_shared. }
  split_and!.
  - done.
  - by apply prefs_pearson_unweighted.
  - rewrite sim_pearson_weighting by (by rewrite ?HA, ?HB).
    rewrite prefs_pearson_unweighted, Hm by done. by_compute.
  - apply sim_distance_weighting; [by rewrite HA|by rewrite HB|done|].
    by rewrite Hm.
Qed.

(** The square root of the example is the one [math.sqrt] computes. *)
Lemma sim_pearson_weighting_bug_witness :
  sqrt_on_squares (qc 4 1) = qc 2 1 ∧
  sim_pearson sqrt_on_squares prefs_pearson "A" "B" (qc 2 1) = Ok (qc 2 1).
Proof.
  assert (H : sqrt_on_squares (qc 4 1) = qc 2 1) by by_compute.
  split; [exact H|]. exact (proj1 (proj2 (proj2 (sim_pearson_weighting_bug _ H)))).
Defined.

Lemma similarity_symmetric_witness :
  is_Some (prefs_pearson !! "A") ∧ is_Some (prefs_pearson !! "B") ∧
  sim_pearson sqrt_on_squares prefs_pearson "A" "B" SIM_WEIGHTING
  = sim_pearson sqrt_on_squares prefs_pearson "B" "A" SIM_WEIGHTING.
Proof.
  assert (HA : is_Some (prefs_pearson !! "A")) by by_compute.
  assert (HB : is_Some (prefs_pearson !! "B")) by by_compute.
  split_and!; [exact HA|exact HB|].
  exact (proj2 (similarity_symmetric sqrt_on_squares _ _ _ SIM_WEIGHTING HA HB)).
Defined.

(** ** What the full-catalog scorers return *)

(** C1, at a failing input: with [n = 1], both scorers print the one best
    recommendation and return the whole list in catalog order, here two
    entries in ascending order of score. *)
Theorem full_catalog_returns_unsorted :
  get_TFIDF_recommendations prefs_u cosim4 "u" 0 movies4 1
  = Ok {| printed := [(qc 5 1, "D")];
          returned := [(qc 1 1, "C"); (qc 5 1, "D")] |} ∧
  (get_hybrid_recommendations prefs_u 1%positive "u" 0 movies4 itemsim4 true 1
     store4).1
  = Ok {| printed := [(qc 5 1, "D")];
          returned := [(qc 5 2, "C"); (qc 5 1, "D")] |} ∧
  ¬ Sorted rec_ge [(qc 1 1, "C"); (qc 5 1, "D")] ∧
  ¬ Sorted rec_ge [(qc 5 2, "C"); (qc 5 1, "D")].
Proof.
  split_and!.
  - by_compute.
  - by_compute.
  - by_compute.
  - by_compute.
Qed.

(** ** The hybrid scorers write to their private copy only *)

Lemma frames_ret {A} c (a : A) : frames c (mret a).
Proof. by intros h l _. Qed.

Lemma frames_lift {A} c (r : result A) : frames c (lift r).
Proof. by intros h l _. Qed.

Lemma frames_bind {A B} c (m : M A) (f : A → M B) :
  frames c m → (∀ a, frames c (f a)) → frames c (m ≫= f).
Proof.
  intros Hm Hf h l Hl. unfold mbind, M_bind. specialize (Hm h l Hl).
  destruct (m h) as [[a|e] h']; simpl in *; [|done].
  by rewrite Hf.
Qed.

Lemma frames_len c l : frames c (len l).
Proof. by intros h l' _. Qed.

Lemma frames_read_cell c l r k : frames c (read_cell l r k).
Proof. by intros h l' _. Qed.

Lemma frames_write_cell c r k v : frames c (write_cell c r k v).
Proof.
  intros h l Hl. unfold write_cell.
  destruct (set_cell _ _ _ _); [|done]. by apply lookup_insert_ne.
Qed.

Lemma frames_for_eachM {X S} c (body : X → S → M S) xs s :
  (∀ x s, frames c (body x s)) → frames c (for_eachM body xs s).
Proof.
  intros Hbody. revert s. induction xs as [|x xs IH]; intros s; simpl.
  - apply frames_ret.
  - apply frames_bind; [apply Hbody|apply IH].
Qed.

Create HintDb frames.
#[export] Hint Resolve frames_ret frames_lift frames_len frames_read_cell
  frames_write_cell : frames.

Ltac frames_step :=
  first
    [ apply frames_bind; [|intros ?]
    | apply frames_for_eachM; intros ? ?
    | progress auto with frames
    | case_decide
    | case_match ].

Lemma frames_hybrid_pair ii weighted thr c r t j tj rating acc :
  frames c (hybrid_pair ii weighted thr c r t j tj rating acc).
Proof. unfold hybrid_pair. repeat frames_step. Qed.
#[export] Hint Resolve frames_hybrid_pair : frames.

Lemma frames_hybrid_row ur c thr movies ii weighted i ti :
  frames c (hybrid_row ur c thr movies ii weighted i ti).
Proof. unfold hybrid_row. repeat frames_step. Qed.
#[export] Hint Resolve frames_hybrid_row : frames.

Lemma frames_hybrid_item ur c thr movies ii weighted i recs :
  frames c (hybrid_item ur c thr movies ii weighted i recs).
Proof. unfold hybrid_item. repeat frames_step. Qed.
#[export] Hint Resolve frames_hybrid_item : frames.

Lemma frames_hybrid_single_row ur c thr movies movies2 ii excluded weighted :
  frames c (hybrid_single_row ur c thr movies movies2 ii excluded weighted).
Proof. unfold hybrid_single_row. repeat frames_step. Qed.
#[export] Hint Resolve frames_hybrid_single_row : frames.

(** After [deepcopy], a computation that writes to the copy only leaves
    the store the caller had untouched. *)
Lemma deepcopy_frames {A} (f : loc → M A) (l : loc) (h : store) (l' : loc) :
  (∀ c, frames c (f c)) → is_Some (h !! l') →
  ((deepcopy l ≫= f) h).2 !! l' = h !! l'.
Proof.
  intros Hf Hl'. unfold mbind, M_bind, deepcopy.
  assert (l' ≠ fresh (dom h)) as Hne.
  { intros ->. apply (is_fresh (dom h)). by apply elem_of_dom. }
  rewrite Hf by done. by apply lookup_insert_ne.
Qed.

Lemma get_hybrid_recommendations_frame (prefs : RatingMatrix)
    (cosim_matrix : loc) (user : string) (sim_threshold : Qc)
    (movies : Catalog) (ii_matrix : ItemSim) (weighted : bool) (n : nat)
    (h : store) (l : loc) :
  is_Some (h !! l) →
  (get_hybrid_recommendations prefs cosim_matrix user sim_threshold movies
     ii_matrix weighted n h).2 !! l = h !! l.
Proof.
  intros Hl. unfold get_hybrid_recommendations.
  unfold mbind at 1, M_bind at 1, lift at 1. destruct (key prefs user); [|done].
  apply deepcopy_frames; [|done]. intros c. repeat frames_step.
Qed.

Lemma get_hybrid_recommendations_single_frame (prefs : RatingMatrix)
    (cosim_matrix : loc) (user : string) (sim_threshold : Qc)
    (movies : Catalog) (movies2 : TitleIndex) (ii_matrix : ItemSim)
    (excluded : string) (weighted : bool) (h : store) (l : loc) :
  is_Some (h !! l) →
  (get_hybrid_recommendations_single prefs cosim_matrix user sim_threshold
     movies movies2 ii_matrix excluded weighted h).2 !! l = h !! l.
Proof.
  intros Hl. unfold get_hybrid_recommendations_single.
  unfold mbind at 1, M_bind at 1, lift at 1. destruct (key prefs user); [|done].
  apply deepcopy_frames; [|done]. intros c. repeat frames_step.
Qed.

(** C6: whatever the inputs and whether the call returns or raises, every
    object in the caller's store, the cosine matrix that was passed in
    among them, is the same after a call to either hybrid scorer. *)
Theorem hybrid_leaves_store (prefs : RatingMatrix) (cosim_matrix : loc)
    (user : string) (sim_threshold : Qc) (movies : Catalog)
    (movies2 : TitleIndex) (ii_matrix : ItemSim) (excluded : string)
    (weighted : bool) (n : nat) (h : store) (l : loc) :
  is_Some (h !! l) →
  (get_hybrid_recommendations prefs cosim_matrix user sim_threshold movies
     ii_matrix weighted n h).2 !! l = h !! l ∧
  (get_hybrid_recommendations_single prefs cosim_matrix user sim_threshold
     movies movies2 ii_matrix excluded weighted h).2 !! l = h !! l.
Proof.
  intros Hl. split.
  - by apply get_hybrid_recommendations_frame.
  - by apply get_hybrid_recommendations_single_frame.
Qed.

Lemma hybrid_leaves_store_witness :
  is_Some (store4 !! 1%positive) ∧
  (get_hybrid_recommendations prefs_u 1%positive "u" 0 movies4 itemsim4 true 1
     store4).2 !! 1%positive = Some (Matrix cosim4).
Proof.
  assert (H : is_Some (store4 !! 1%positive)) by by_compute.
  split; [exact H|].
  exact (proj1 (hybrid_leaves_store prefs_u 1%positive "u" 0 movies4
                  movies4_ids itemsim4 "C" true 1 store4 1%positive H)).
Defined.

(** ** Cells of a matrix *)

Lemma get_Ok {A} (l : list A) (z : Z) (a : A) :
  get l z = Ok a ↔ ∃ i, py_index (length l) z = Ok i ∧ l !! i = Some a.
Proof.
  unfold get. destruct (py_index (length l) z) as [i|e]; simpl.
  - destruct (l !! i) eqn:E; naive_solver.
  - naive_solver.
Qed.

Lemma cell_Ok (m : matrix) (r c : Z) (v : Qc) :
  cell m r c = Ok v ↔
  ∃ i row j, py_index (length m) r = Ok i ∧ m !! i = Some row ∧
             py_index (length row) c = Ok j ∧ row !! j = Some v.
Proof.
  unfold cell. split.
  - destruct (get m r) as [row|] eqn:E; simpl; [|done].
    intros (j & ? & ?)%get_Ok. apply get_Ok in E as (i & ? & ?). naive_solver.
  - intros (i & row & j & Hi & Hrow & Hj & Hv).
    assert (get m r = Ok row) as -> by (apply get_Ok; eauto).
    simpl. apply get_Ok; eauto.
Qed.

(** Writing a cell that can be read succeeds; the cell then reads as what
    was written, and a second write replaces the first. *)
Lemma set_cell_spec (m : matrix) (r c : Z) (v0 v : Qc) :
  cell m r c = Ok v0 →
  ∃ m', set_cell m r c v = Ok m' ∧ cell m' r c = Ok v ∧
        ∀ v', set_cell m' r c v' = set_cell m r c v'.
Proof.
  intros (i & row & j & Hi & Hrow & Hj & Hv)%cell_Ok.
  assert (Hget : get m r = Ok row) by (apply get_Ok; eauto).
  assert (Hilt : (i < length m)%nat) by (by eapply lookup_lt_Some).
  assert (Hjlt : (j < length row)%nat) by (by eapply lookup_lt_Some).
  exists (<[i := <[j := v]> row]> m).
  assert (Hget' : get (<[i := <[j := v]> row]> m) r = Ok (<[j := v]> row)).
  { apply get_Ok. exists i. rewrite length_insert.
    split; [done|]. by apply list_lookup_insert_eq. }
  split_and!.
  - unfold set_cell. rewrite Hi, Hget. simpl. by rewrite Hj.
  - apply cell_Ok. exists i, (<[j := v]> row), j.
    rewrite !length_insert. split_and!; [done| |done|].
    + by apply list_lookup_insert_eq.
    + by apply list_lookup_insert_eq.
  - intros v'. unfold set_cell. rewrite Hget', Hget, length_insert, Hi. simpl.
    rewrite length_insert, Hj. simpl.
    by rewrite !list_insert_insert_eq.
Qed.

(** ** The fill-in rule *)

Lemma deref_insert (l : loc) (m : matrix) (h : store) :
  deref l (<[l := Matrix m]> h) = m.
Proof. unfold deref. by rewrite lookup_insert_eq. Qed.

Lemma run_read {B} (l : loc) (r c : Z) (v : Qc) (h : store) (f : Qc → M B) :
  cell (deref l h) r c = Ok v → (read_cell l r c ≫= f) h = f v h.
Proof. intros H. unfold mbind, M_bind, read_cell. by rewrite H. Qed.

Lemma run_write {B} (l : loc) (r c : Z) (v : Qc) (m' : matrix) (h : store)
    (f : () → M B) :
  set_cell (deref l h) r c v = Ok m' →
  (write_cell l r c v ≫= f) h = f () (<[l := Matrix m']> h).
Proof. intros H. unfold mbind, M_bind, write_cell. by rewrite H. Qed.

Lemma run_lift {A B} (a : A) (h : store) (f : A → M B) :
  (lift (Ok a) ≫= f) h = f a h.
Proof. done. Qed.

Lemma run_lift_raise {A B} (e : exn) (h : store) (f : A → M B) :
  (lift (Raise e) ≫= f) h = (Raise e, h).
Proof. done. Qed.

Lemma run_ret {A B} (a : A) (h : store) (f : A → M B) :
  (mret a ≫= f) h = f a h.
Proof. done. Qed.

Lemma run_len {B} (l : loc) (h : store) (f : nat → M B) :
  (len l ≫= f) h = f (length (deref l h)) h.
Proof. done. Qed.

Lemma run_assoc {A B C} (m : M A) (f : A → M B) (g : B → M C) (h : store) :
  ((m ≫= f) ≫= g) h = (m ≫= (λ a, f a ≫= g)) h.
Proof. unfold mbind, M_bind. by destruct (m h) as [[a|e] h']. Qed.

Lemma run_bind {A B} (m : M A) (f : A → M B) (h h1 : store) (r : result A) :
  m h = (r, h1) →
  (m ≫= f) h = match r with Ok a => f a h1 | Raise e => (Raise e, h1) end.
Proof. intros H. unfold mbind, M_bind. by rewrite H. Qed.

Lemma for_eachM_cons {X S} (body : X → S → M S) x xs (s : S) (h : store) :
  for_eachM body (x :: xs) s h = (body x s ≫= for_eachM body xs) h.
Proof. done. Qed.

Lemma for_each_cons {X S} (body : X → S → result S) x xs (s : S) :
  for_each body (x :: xs) s = body x s ≫= for_each body xs.
Proof. done. Qed.

Lemma for_eachM_ext {X S} (body body' : X → S → M S) xs (s : S) (h : store) :
  (∀ x s h, body x s h = body' x s h) →
  for_eachM body xs s h = for_eachM body' xs s h.
Proof.
  intros Hext. revert s h. induction xs as [|x xs IH]; intros s h; [done|].
  rewrite !for_eachM_cons. unfold mbind, M_bind. rewrite Hext.
  destruct (body' x s h) as [[s'|e] h']; [apply IH|done].
Qed.

Lemma for_each_ext {X S} (body body' : X → S → result S) xs (s : S) :
  (∀ x s, body x s = body' x s) →
  for_each body xs s = for_each body' xs s.
Proof.
  intros Hext. revert s. induction xs as [|x xs IH]; intros s; [done|].
  rewrite !for_each_cons, Hext. destruct (body' x s); [apply IH|done].
Qed.

Lemma elem_of_range1 (n : nat) (j : Z) : j ∈ range1 n → (1 ≤ j)%Z.
Proof. unfold range1. rewrite elem_of_seqZ. lia. Qed.

Lemma run_read_raise {B} (l : loc) (r c : Z) (e : exn) (h : store)
    (f : Qc → M B) :
  cell (deref l h) r c = Raise e → (read_cell l r c ≫= f) h = (Raise e, h).
Proof. intros H. unfold mbind, M_bind, read_cell. by rewrite H. Qed.

(** [hybrid_pair] on a store whose working copy reads [c] at the pair. *)
Lemma hybrid_pair_cases (ii_matrix : ItemSim) (weighted : bool)
    (sim_threshold : Qc) (copy_cosim : loc) (r : Z) (t : string) (j : Z)
    (tj : string) (rating : Qc) (acc : Qc * Qc) (h : store) (c : Qc) :
  cell (deref copy_cosim h) r (j - 1) = Ok c →
  let run := hybrid_pair ii_matrix weighted sim_threshold copy_cosim r t j tj
               rating acc h in
  (c < sim_threshold → run = (Ok acc, h)) ∧
  (sim_threshold ≤ c → c ≠ 0 →
     run = (Ok (acc.1 + rating * c, acc.2 + c), h)) ∧
  (sim_threshold ≤ c → c = 0 → ∀ row, ii_matrix !! t = Some row →
     match row !! tj with
     | None => run = (Ok acc, h)
     | Some v =>
         if decide (v ≤ 0) then run = (Ok acc, h)
         else
           let w := if weighted then v * HYBRID_WEIGHTING else v in
           ∃ m', set_cell (deref copy_cosim h) r (j - 1) w = Ok m' ∧
                 run = (Ok (acc.1 + rating * w, acc.2 + w),
                        <[copy_cosim := Matrix m']> h)
     end).
Proof.
  intros Hc run. subst run. unfold hybrid_pair.
  rewrite (run_read _ _ _ _ _ _ Hc).
  split_and!.
  - intros Hlt. by rewrite decide_True.
  - intros Hge Hne. rewrite decide_False by (by apply Qcle_not_lt).
    rewrite decide_False by done. by rewrite (run_read _ _ _ _ _ _ Hc).
  - intros Hge -> row Hrow. rewrite decide_False by (by apply Qcle_not_lt).
    rewrite decide_True by done.
    unfold key. rewrite Hrow, run_lift.
    destruct (row !! tj) as [v|]; [|done].
    destruct (decide (v ≤ 0)); [done|].
    destruct (set_cell_spec _ _ _ _ v Hc) as (m1 & Hset1 & Hread1 & Hagain).
    rewrite (run_write _ _ _ _ _ _ _ Hset1).
    destruct weighted.
    + destruct (set_cell_spec _ _ _ _ (v * HYBRID_WEIGHTING) Hc)
        as (m2 & Hset2 & Hread2 & _).
      exists m2. split; [done|].
      rewrite <-Hagain in Hset2.
      unfold mbind at 1, M_bind at 1.
      rewrite (run_read _ _ _ v) by (by rewrite deref_insert).
      unfold write_cell at 1. rewrite deref_insert, Hset2.
      rewrite (run_read _ _ _ (v * HYBRID_WEIGHTING))
        by (by rewrite deref_insert).
      by rewrite insert_insert_eq.
    + exists m1. split; [done|].
      rewrite run_ret. by rewrite (run_read _ _ _ v) by (by rewrite deref_insert).
Qed.

Lemma hybrid_pair_missing_row (ii_matrix : ItemSim) (weighted : bool)
    (sim_threshold : Qc) (copy_cosim : loc) (r : Z) (t : string) (j : Z)
    (tj : string) (rating : Qc) (acc : Qc * Qc) (h : store) :
  cell (deref copy_cosim h) r (j - 1) = Ok 0 →
  sim_threshold ≤ 0 →
  ii_matrix !! t = None →
  hybrid_pair ii_matrix weighted sim_threshold copy_cosim r t j tj rating acc h
  = (Raise KeyError, h).
Proof.
  intros Hc Hthr Hrow. unfold hybrid_pair.
  unfold mbind at 1, M_bind at 1. unfold read_cell at 1. rewrite Hc.
  rewrite decide_False by (by apply Qcle_not_lt).
  rewrite decide_True by done.
  unfold mbind at 1, M_bind at 1, lift, key. by rewrite Hrow.
Qed.

(** C4, at a failing input: user [u] rated A and B, and for the candidate C
    and its neighbour B the cell of the copy is exactly 0 and passes the
    threshold 0, so the fill-in is tried.  [ii_matrix] has no row for C:
    the entry for the pair is missing, and both hybrid scorers raise
    [KeyError] where the pair was to be skipped.  With an empty row for C
    the pair is skipped and both return. *)
Theorem hybrid_missing_row_raises :
  (get_hybrid_recommendations prefs_u 1%positive "u" 0 movies4 ∅ true 15
     store4).1
  = Raise KeyError ∧
  (get_hybrid_recommendations_single prefs_u 1%positive "u" 0 movies4
     movies4_ids ∅ "C" true store4).1
  = Raise KeyError ∧
  (get_hybrid_recommendations prefs_u 1%positive "u" 0 movies4
     {[ "C" := ∅; "D" := ∅ ]} true 15 store4).1
  = Ok {| printed := [(qc 5 1, "D"); (qc 1 1, "C")];
          returned := [(qc 1 1, "C"); (qc 5 1, "D")] |} ∧
  (get_hybrid_recommendations_single prefs_u 1%positive "u" 0 movies4
     movies4_ids {[ "C" := ∅; "D" := ∅ ]} "C" true store4).1
  = Ok (Some (qc 1 1), "C").
Proof. split_and!; by_compute. Qed.



(** ** When a score is produced *)

Lemma bind_Ok {A B} (m : result A) (f : A → result B) (b : B) :
  m ≫= f = Ok b ↔ ∃ a, m = Ok a ∧ f a = Ok b.
Proof. destruct m; simpl; naive_solver. Qed.

Lemma for_each_cons_Ok {X S} (body : X → S → result S) x xs (s s' : S) :
  for_each body (x :: xs) s = Ok s' ↔
  ∃ s1, body x s = Ok s1 ∧ for_each body xs s1 = Ok s'.
Proof. simpl. apply bind_Ok. Qed.

Section score_items.
Variable row : Z → string → result (Qc * Qc).
Variable ur : gmap string Qc.
Variable movies : Catalog.

(** One pass of the outer loop: a rated item is passed over; an unrated
    one is appended exactly when both sums are positive, with their
    quotient as its score. *)
Lemma score_item_Ok i (recs0 recs1 : list (Qc * string)) :
  score_item row ur movies i recs0 = Ok recs1 ↔
  ∃ ti, movies !! i = Some ti ∧
    ((is_Some (ur !! ti) ∧ recs1 = recs0) ∨
     (ur !! ti = None ∧ ∃ num denom,
        row i ti = Ok (num, denom) ∧
        recs1 = if decide (0 < num ∧ 0 < denom)
                then recs0 ++ [(num / denom, ti)] else recs0)).
Proof.
  unfold score_item, key.
  destruct (movies !! i) as [ti|]; simpl; [|naive_solver].
  destruct (decide (is_Some (ur !! ti))) as [Hr|Hr].
  { split; [intros [= <-]; eauto 6|].
    intros (? & [= <-] & [[_ ->]|[Hn _]]); [done|].
    rewrite Hn in Hr. by destruct Hr. }
  apply eq_None_not_Some in Hr.
  destruct (row i ti) as [[num denom]|] eqn:Hrow; simpl.
  - split.
    + intros H. exists ti. split; [done|right]. split; [done|].
      exists num, denom. split; [done|]. by case_decide; simplify_eq.
    + intros (? & [= <-] & [[Hs _]|[_ (n' & d' & Hrow' & ->)]]).
      * rewrite Hr in Hs. by destruct Hs.
      * rewrite Hrow in Hrow'. injection Hrow' as <- <-. by case_decide.
  - split; [done|].
    intros (? & [= <-] & [[Hs _]|[_ (n' & d' & Hrow' & _)]]).
    + rewrite Hr in Hs. by destruct Hs.
    + by rewrite Hrow in Hrow'.
Qed.

Lemma score_item_elem_of i (recs0 recs1 : list (Qc * string)) s t :
  score_item row ur movies i recs0 = Ok recs1 →
  (s, t) ∈ recs1 ↔ (s, t) ∈ recs0 ∨ yields row ur movies i s t.
Proof.
  intros (ti & Hti & Hcase)%score_item_Ok. unfold yields. rewrite Hti.
  destruct Hcase as [[Hrated ->]|[Hun (num & denom & Hrow & ->)]].
  - split; [by left|]. intros [?|([= ->] & Hu & _)]; [done|].
    rewrite Hu in Hrated. by destruct Hrated.
  - case_decide as Hpos.
    + rewrite elem_of_app, list_elem_of_singleton. split.
      * intros [?|[= -> ->]]; [by left|right]. naive_solver.
      * intros [?|([= ->] & _ & n' & d' & Hr' & ?)]; [by left|right].
        rewrite Hrow in Hr'. naive_solver.
    + split; [by left|]. intros [?|([= ->] & _ & n' & d' & Hr' & ?)]; [done|].
      rewrite Hrow in Hr'. naive_solver.
Qed.

(** The recommendations the outer loop adds are those its items yield. *)
Lemma score_items_elem_of (ids : list Z) (recs0 recs : list (Qc * string)) s t :
  for_each (score_item row ur movies) ids recs0 = Ok recs →
  (s, t) ∈ recs ↔ (s, t) ∈ recs0 ∨ ∃ i, i ∈ ids ∧ yields row ur movies i s t.
Proof.
  revert recs0. induction ids as [|i ids IH]; intros recs0.
  - intros [= <-]. split; [by left|].
    by intros [?|(i & []%elem_of_nil & _)].
  - intros (recs1 & Hitem & Hrest)%for_each_cons_Ok.
    rewrite (IH _ Hrest), (score_item_elem_of _ _ _ _ _ Hitem).
    setoid_rewrite elem_of_cons. naive_solver.
Qed.
End score_items.

(** ** Writes do not reach the cells read later *)

Lemma py_index_nonneg (n : nat) (z : Z) (i : nat) :
  (0 ≤ z)%Z → py_index n z = Ok i → i = Z.to_nat z.
Proof.
  intros Hz. unfold py_index. repeat case_decide; naive_solver lia.
Qed.

Lemma cell_unfold (m : matrix) (r c : Z) :
  cell m r c =
  i ← py_index (length m) r;
  match m !! i with
  | None => Raise IndexError
  | Some row =>
      j ← py_index (length row) c;
      match row !! j with Some v => Ok v | None => Raise IndexError end
  end.
Proof.
  unfold cell, get. destruct (py_index (length m) r) as [i|]; simpl; [|done].
  by destruct (m !! i).
Qed.

Lemma set_cell_Ok (m : matrix) (r c : Z) (v : Qc) (m' : matrix) :
  set_cell m r c v = Ok m' →
  ∃ i row j, py_index (length m) r = Ok i ∧ m !! i = Some row ∧
             py_index (length row) c = Ok j ∧ m' = <[i := <[j := v]> row]> m.
Proof.
  unfold set_cell, get.
  destruct (py_index (length m) r) as [i|]; simpl; [|done].
  destruct (m !! i) as [row|] eqn:Hrow; simpl; [|done].
  destruct (py_index (length row) c) as [j|] eqn:Hj; simpl; [|done].
  intros [= <-]. by exists i, row, j.
Qed.

Lemma set_cell_length (m : matrix) (r c : Z) (v : Qc) (m' : matrix) :
  set_cell m r c v = Ok m' → length m' = length m.
Proof.
  intros (i & row & j & _ & _ & _ & ->)%set_cell_Ok. apply length_insert.
Qed.

(** A write leaves the other columns as they were. *)
Lemma set_cell_other_col (m : matrix) (r c : Z) (v : Qc) (m' : matrix)
    (r' c' : Z) :
  set_cell m r c v = Ok m' → (0 ≤ c)%Z → (0 ≤ c')%Z → c' ≠ c →
  cell m' r' c' = cell m r' c'.
Proof.
  intros (i & row & j & Hi & Hrow & Hj & ->)%set_cell_Ok Hc Hc' Hne.
  rewrite !cell_unfold, length_insert.
  destruct (py_index (length m) r') as [i'|]; simpl; [|done].
  destruct (decide (i' = i)) as [->|Hi'].
  - rewrite list_lookup_insert_eq by (by eapply lookup_lt_Some).
    rewrite Hrow, length_insert.
    destruct (py_index (length row) c') as [j'|] eqn:Hj'; simpl; [|done].
    rewrite list_lookup_insert_ne; [done|].
    apply py_index_nonneg in Hj, Hj'; [|done..]. lia.
  - by rewrite list_lookup_insert_ne.
Qed.

(** A write leaves the other rows as they were. *)
Lemma set_cell_other_row (m : matrix) (r c : Z) (v : Qc) (m' : matrix)
    (r' c' : Z) :
  set_cell m r c v = Ok m' → (0 ≤ r)%Z → (0 ≤ r')%Z → r' ≠ r →
  cell m' r' c' = cell m r' c'.
Proof.
  intros (i & row & j & Hi & Hrow & Hj & ->)%set_cell_Ok Hr Hr' Hne.
  rewrite !cell_unfold, length_insert.
  destruct (py_index (length m) r') as [i'|] eqn:Hi'; simpl; [|done].
  rewrite list_lookup_insert_ne; [done|].
  apply py_index_nonneg in Hi, Hi'; [|done..]. lia.
Qed.

Lemma row_writes_refl r m : row_writes r m m.
Proof. by split. Qed.

Lemma row_writes_trans r m1 m2 m3 :
  row_writes r m1 m2 → row_writes r m2 m3 → row_writes r m1 m3.
Proof.
  intros [Hl1 H1] [Hl2 H2]. split; [congruence|].
  intros r' c' ???. rewrite H2, H1; done.
Qed.

Lemma row_writes_set_cell r c v m m' :
  set_cell m r c v = Ok m' → row_writes r m m'.
Proof.
  intros Hset. split; [by eapply set_cell_length|].
  intros r' c' ???. by eapply set_cell_other_row.
Qed.

(** ** The hybrid scorers compute over the caller's matrix *)

Section hybrid_refinement.
Variable ii_matrix : ItemSim.
Variable weighted : bool.
Variable sim_threshold : Qc.
Variable copy_cosim : loc.
(** The matrix the caller passed in. *)
Variable m0 : matrix.

(** As long as the cell of the pair still holds the caller's value,
    [hybrid_pair] accumulates the weight [hybrid_weight] computes from the
    caller's matrix, and writes at most that one cell. *)
Lemma hybrid_pair_pure r t j tj rating acc h :
  cell (deref copy_cosim h) r (j - 1) = cell m0 r (j - 1) →
  ∃ h', hybrid_pair ii_matrix weighted sim_threshold copy_cosim r t j tj
          rating acc h
        = (add_weight acc rating <$>
             hybrid_weight ii_matrix weighted sim_threshold m0 r t j tj, h') ∧
        (h' = h ∨ ∃ v m', set_cell (deref copy_cosim h) r (j - 1) v = Ok m' ∧
                          h' = <[copy_cosim := Matrix m']> h).
Proof.
  intros Hcell. unfold hybrid_weight. rewrite <-Hcell.
  destruct (cell (deref copy_cosim h) r (j - 1)) as [c|e] eqn:Hc; simpl.
  2: { exists h. split; [|by left]. unfold hybrid_pair.
       by rewrite (run_read_raise _ _ _ _ _ _ Hc). }
  destruct (hybrid_pair_cases ii_matrix weighted sim_threshold copy_cosim r t
              j tj rating acc h c Hc) as (Hlt & Hpos & Hzero).
  destruct (decide (c < sim_threshold)) as [?|Hge%Qcnot_lt_le].
  { exists h. split; [by apply Hlt|by left]. }
  destruct (decide (c = 0)) as [->|Hne].
  2: { exists h. split; [by apply Hpos|by left]. }
  unfold key. destruct (ii_matrix !! t) as [row|] eqn:Hrow; simpl.
  2: { exists h. split; [|by left]. unfold hybrid_pair.
       rewrite (run_read _ _ _ _ _ _ Hc).
       rewrite decide_False by (by apply Qcle_not_lt).
       rewrite decide_True by done. unfold key. by rewrite Hrow. }
  specialize (Hzero Hge eq_refl row eq_refl).
  destruct (row !! tj) as [v|]; [|exists h; split; [done|by left]].
  destruct (decide (v ≤ 0)); [exists h; split; [done|by left]|].
  destruct Hzero as (m' & Hset & Hrun).
  exists (<[copy_cosim := Matrix m']> h). split; [done|right]. eauto.
Qed.

Section inner_loop.
Variable r : Z.
Variable t : string.
(** Which neighbours are candidates, with their title and rating. *)
Variable sel : Z → result (option (string * Qc)).

Lemma bodyM_eq j acc :
  hybrid_body ii_matrix weighted sim_threshold copy_cosim r t sel j acc =
  match sel j with
  | Ok (Some (tj, rating)) =>
      hybrid_pair ii_matrix weighted sim_threshold copy_cosim r t j tj
        rating acc
  | Ok None => mret acc
  | Raise e => lift (Raise e)
  end.
Proof. unfold hybrid_body. by destruct (sel j) as [[[]|]|]. Qed.

Lemma bodyP_eq j acc :
  hybrid_body_pure ii_matrix weighted sim_threshold m0 r t sel j acc =
  match sel j with
  | Ok (Some (tj, rating)) =>
      add_weight acc rating <$>
        hybrid_weight ii_matrix weighted sim_threshold m0 r t j tj
  | Ok None => Ok acc
  | Raise e => Raise e
  end.
Proof. unfold hybrid_body_pure. by destruct (sel j) as [[[]|]|]. Qed.

Lemma inner_loop_pure (cols : list Z) (acc : Qc * Qc) (h : store) :
  NoDup cols → (∀ j, j ∈ cols → (1 ≤ j)%Z) →
  (∀ j, j ∈ cols →
     cell (deref copy_cosim h) r (j - 1) = cell m0 r (j - 1)) →
  ∃ h', for_eachM (hybrid_body ii_matrix weighted sim_threshold copy_cosim r t sel) cols acc h
        = (for_each (hybrid_body_pure ii_matrix weighted sim_threshold m0 r t sel) cols acc, h') ∧
        row_writes r (deref copy_cosim h) (deref copy_cosim h').
Proof.
  revert acc h. induction cols as [|j cols IH]; intros acc h Hnd Hpos Hag.
  { exists h. split; [done|apply row_writes_refl]. }
  apply NoDup_cons in Hnd as [Hj Hnd].
  assert (Hpos' : ∀ j', j' ∈ cols → (1 ≤ j')%Z)
    by (intros; apply Hpos; by right).
  rewrite for_eachM_cons, for_each_cons, bodyM_eq, bodyP_eq.
  destruct (sel j) as [[[tj rating]|]|e].
  - destruct (hybrid_pair_pure r t j tj rating acc h) as (h1 & Hrun & Hh1).
    { apply Hag. by left. }
    unfold mbind at 1, M_bind at 1. rewrite Hrun.
    assert (Hw : row_writes r (deref copy_cosim h) (deref copy_cosim h1)).
    { destruct Hh1 as [->|(v & m' & Hset & ->)]; [apply row_writes_refl|].
      rewrite deref_insert. by eapply row_writes_set_cell. }
    destruct (hybrid_weight _ _ _ _ _ _ _ _) as [w|e]; simpl.
    2: { by exists h1. }
    destruct (IH (add_weight acc rating w) h1 Hnd Hpos') as (h' & Hloop & Hw').
    { intros j' Hj'. rewrite <-Hag by (by right).
      destruct Hh1 as [->|(v & m' & Hset & ->)]; [done|].
      rewrite deref_insert.
      eapply set_cell_other_col; [done| | |].
      - assert (1 ≤ j)%Z by (apply Hpos; by left). lia.
      - specialize (Hpos' j' Hj'). lia.
      - intros ?. assert (j' = j) as -> by lia. done. }
    exists h'. split; [done|]. by eapply row_writes_trans.
  - rewrite run_ret. simpl.
    apply IH; [done..|]. intros j' Hj'. apply Hag. by right.
  - exists h. split; [done|apply row_writes_refl].
Qed.
End inner_loop.

Variable ur : gmap string Qc.
Variable movies : Catalog.

(** The inner loop of the full-catalog scorer. *)
Lemma hybrid_row_pure_eq i ti h :
  length (deref copy_cosim h) = length m0 →
  (∀ c, cell (deref copy_cosim h) (i - 1) c = cell m0 (i - 1) c) →
  ∃ h', hybrid_row ur copy_cosim sim_threshold movies ii_matrix weighted
          i ti h
        = (hybrid_row_pure ur m0 sim_threshold movies ii_matrix weighted
             i ti, h') ∧
        row_writes (i - 1) (deref copy_cosim h) (deref copy_cosim h').
Proof.
  intros Hlen Hrow. unfold hybrid_row, hybrid_row_pure.
  rewrite run_len, Hlen.
  set (sel := λ j : Z,
         tj ← key movies j;
         match ur !! tj with
         | None => Ok None
         | Some rating =>
             if decide (i = j) then Ok None else Ok (Some (tj, rating))
         end).
  rewrite (for_eachM_ext _ (hybrid_body ii_matrix weighted sim_threshold copy_cosim (i - 1) ti sel)).
  2: { intros j acc h1. unfold hybrid_body, sel, key.
       destruct (movies !! j) as [tj|]; [|reflexivity].
       rewrite run_lift. cbn [mbind result_bind].
       destruct (ur !! tj); [|reflexivity]. case_decide; reflexivity. }
  destruct (inner_loop_pure (i - 1) ti sel (range1 (length m0)) (0, 0) h)
    as (h' & Hloop & Hw).
  { apply NoDup_seqZ. }
  { apply elem_of_range1. }
  { intros j _. apply Hrow. }
  exists h'. split; [|done]. rewrite Hloop. f_equal.
  apply for_each_ext. intros j acc.
  unfold hybrid_body_pure, sel, key. destruct (movies !! j) as [tj|]; [|reflexivity].
  simpl. destruct (ur !! tj); [|reflexivity]. case_decide; [reflexivity|].
  simpl. by destruct (hybrid_weight _ _ _ _ _ _ _ _).
Qed.

(** The loop of the single-item scorer. *)
Lemma hybrid_single_row_pure_eq movies2 excluded h :
  deref copy_cosim h = m0 →
  ∃ h', hybrid_single_row ur copy_cosim sim_threshold movies movies2
          ii_matrix excluded weighted h
        = (hybrid_single_row_pure ur m0 sim_threshold movies movies2
             ii_matrix excluded weighted, h').
Proof.
  intros Hm. unfold hybrid_single_row, hybrid_single_row_pure.
  rewrite run_len, Hm.
  set (r := (default 0%Z (movies2 !! excluded) - 1)%Z).
  set (sel := λ j : Z,
         tj ← key movies j;
         match ur !! tj with
         | None => Ok None
         | Some rating =>
             e ← key movies2 excluded;
             if decide (e = j) then Ok None else Ok (Some (tj, rating))
         end).
  rewrite (for_eachM_ext _ (hybrid_body ii_matrix weighted sim_threshold copy_cosim r excluded sel)).
  2: { intros j acc h1. unfold hybrid_body, sel, key, r.
       destruct (movies !! j) as [tj|]; [|reflexivity].
       rewrite run_lift. cbn [mbind result_bind].
       destruct (ur !! tj); [|reflexivity].
       destruct (movies2 !! excluded) as [e|]; [|reflexivity].
       rewrite run_lift. cbn [mbind result_bind default].
       case_decide; reflexivity. }
  destruct (inner_loop_pure r excluded sel (range1 (length m0)) (0, 0) h)
    as (h' & Hloop & Hw).
  { apply NoDup_seqZ. }
  { apply elem_of_range1. }
  { intros j _. by rewrite Hm. }
  exists h'. rewrite Hloop. f_equal.
  apply for_each_ext. intros j acc.
  unfold hybrid_body_pure, sel, key, r.
  destruct (movies !! j) as [tj|]; [|reflexivity]. simpl.
  destruct (ur !! tj); [|reflexivity].
  destruct (movies2 !! excluded) as [e|]; [|reflexivity]. simpl.
  case_decide; [reflexivity|]. simpl.
  by destruct (hybrid_weight _ _ _ _ _ _ _ _).
Qed.

(** The outer loop of the full-catalog scorer. *)
Lemma hybrid_items_pure (ids : list Z) (recs : list (Qc * string)) h :
  NoDup ids → (∀ i, i ∈ ids → (1 ≤ i)%Z) →
  length (deref copy_cosim h) = length m0 →
  (∀ i c, i ∈ ids → cell (deref copy_cosim h) (i - 1) c = cell m0 (i - 1) c) →
  ∃ h', for_eachM (hybrid_item ur copy_cosim sim_threshold movies ii_matrix
                     weighted) ids recs h
        = (for_each (score_item (hybrid_row_pure ur m0 sim_threshold movies
                                   ii_matrix weighted) ur movies) ids recs,
           h').
Proof.
  revert recs h. induction ids as [|i ids IH]; intros recs h Hnd Hpos Hlen Hag.
  { by exists h. }
  apply NoDup_cons in Hnd as [Hi Hnd].
  assert (Hpos' : ∀ i', i' ∈ ids → (1 ≤ i')%Z)
    by (intros; apply Hpos; by right).
  rewrite for_eachM_cons, for_each_cons.
  assert (hybrid_item ur copy_cosim sim_threshold movies ii_matrix weighted
            i recs
          = (ti ← lift (key movies i);
             if decide (is_Some (ur !! ti)) then mret recs else
             '(num, denom) ← hybrid_row ur copy_cosim sim_threshold movies
                                ii_matrix weighted i ti;
             if decide (0 < num ∧ 0 < denom)
             then mret (recs ++ [(num / denom, ti)])
             else mret recs)) as -> by done.
  assert (score_item (hybrid_row_pure ur m0 sim_threshold movies ii_matrix
                        weighted) ur movies i recs
          = (ti ← key movies i;
             if decide (is_Some (ur !! ti)) then Ok recs else
             '(num, denom) ← hybrid_row_pure ur m0 sim_threshold movies
                                ii_matrix weighted i ti;
             if decide (0 < num ∧ 0 < denom)
             then Ok (recs ++ [(num / denom, ti)])
             else Ok recs)) as -> by done.
  unfold key. rewrite run_assoc.
  destruct (movies !! i) as [ti|]; [|by exists h].
  rewrite run_lift. cbn [mbind result_bind].
  destruct (decide (is_Some (ur !! ti))).
  { rewrite run_ret. apply IH; [done..|]. intros; apply Hag. by right. }
  destruct (hybrid_row_pure_eq i ti h Hlen) as (h1 & Hrun & [Hlen1 Hw]).
  { intros c. apply Hag. by left. }
  rewrite run_assoc, (run_bind _ _ _ _ _ Hrun).
  destruct (hybrid_row_pure _ _ _ _ _ _ _ _) as [[num denom]|]; [|by exists h1].
  cbn [mbind result_bind].
  assert (Hlen' : length (deref copy_cosim h1) = length m0) by congruence.
  assert (Hag1 : ∀ i' c, i' ∈ ids →
            cell (deref copy_cosim h1) (i' - 1) c = cell m0 (i' - 1) c).
  { intros i' c Hi'. rewrite <-Hag by (by right).
    assert (1 ≤ i)%Z by (apply Hpos; by left).
    assert (1 ≤ i')%Z by (by apply Hpos').
    apply Hw; [lia..|]. intros ?. assert (i' = i) as -> by lia. done. }
  case_decide; rewrite run_ret; by apply IH.
Qed.
End hybrid_refinement.

Lemma run_deepcopy {B} (l : loc) (h : store) (f : loc → M B) :
  (deepcopy l ≫= f) h
  = f (fresh (dom h)) (<[fresh (dom h) := Matrix (deref l h)]> h).
Proof. done. Qed.

(** The full-catalog hybrid scorer returns what the loops over the
    caller's matrix compute. *)
Lemma get_hybrid_recommendations_pure (prefs : RatingMatrix) (l : loc)
    (user : string) (thr : Qc) (movies : Catalog) (ii : ItemSim)
    (weighted : bool) (n : nat) (h : store) :
  (get_hybrid_recommendations prefs l user thr movies ii weighted n h).1 =
  (ur ← key prefs user;
   recs ← for_each
            (score_item (hybrid_row_pure ur (deref l h) thr movies ii weighted)
               ur movies)
            (range1 (length (deref l h))) [];
   Ok {| printed := take n (sorted_desc recs); returned := recs |}).
Proof.
  unfold get_hybrid_recommendations.
  destruct (key prefs user) as [ur|e]; [|done].
  rewrite run_lift, run_deepcopy, run_len, deref_insert.
  cbn [mbind result_bind].
  set (c := fresh (dom h)). set (m0 := deref l h).
  destruct (hybrid_items_pure ii weighted thr c m0 ur movies
              (range1 (length m0)) [] (<[c := Matrix m0]> h)) as (h' & Hloop).
  { apply NoDup_seqZ. }
  { apply elem_of_range1. }
  { by rewrite deref_insert. }
  { intros. by rewrite deref_insert. }
  rewrite (run_bind _ _ _ _ _ Hloop).
  by destruct (for_each _ _ _).
Qed.

(** So does the single-item one. *)
Lemma get_hybrid_recommendations_single_pure (prefs : RatingMatrix) (l : loc)
    (user : string) (thr : Qc) (movies : Catalog) (movies2 : TitleIndex)
    (ii : ItemSim) (excluded : string) (weighted : bool) (h : store) :
  (get_hybrid_recommendations_single prefs l user thr movies movies2 ii
     excluded weighted h).1 =
  (ur ← key prefs user;
   '(num, denom) ← hybrid_single_row_pure ur (deref l h) thr movies movies2
                      ii excluded weighted;
   if decide (0 < num ∧ 0 < denom)
   then Ok (Some (num / denom), excluded)
   else Ok (None, excluded)).
Proof.
  unfold get_hybrid_recommendations_single.
  destruct (key prefs user) as [ur|e]; [|done].
  rewrite run_lift, run_deepcopy. cbn [mbind result_bind].
  set (c := fresh (dom h)). set (m0 := deref l h).
  destruct (hybrid_single_row_pure_eq ii weighted thr c m0 ur movies movies2
              excluded (<[c := Matrix m0]> h)) as (h' & Hloop).
  { by rewrite deref_insert. }
  rewrite (run_bind _ _ _ _ _ Hloop).
  destruct (hybrid_single_row_pure _ _ _ _ _ _ _ _) as [[num denom]|]; [|done].
  cbn [mbind result_bind]. by case_decide.
Qed.

(** C5: a score is produced exactly when the numerator and the denominator
    the inner loop accumulates are both positive, and it is their quotient.
    The full-catalog scorers return the recommendations their unrated items
    yield in this sense and nothing else; the single-item scorers return the
    quotient for the excluded item, or [None] when a sum is not positive.
    For the hybrid scorers the sums are those over the caller's matrix. *)
Theorem score_iff_sums_positive (prefs : RatingMatrix) (cosim_matrix : matrix)
    (l : loc) (h : store) (user : string) (thr : Qc) (movies : Catalog)
    (movies2 : TitleIndex) (ii : ItemSim) (excluded : string)
    (weighted : bool) (n : nat) :
  (∀ ur out, prefs !! user = Some ur →
     get_TFIDF_recommendations prefs cosim_matrix user thr movies n = Ok out →
     ∀ s t, (s, t) ∈ returned out ↔
       ∃ i, i ∈ range1 (size movies) ∧
            yields (λ i _, tfidf_row ur cosim_matrix thr movies i) ur movies
              i s t) ∧
  (∀ ur out, prefs !! user = Some ur →
     (get_hybrid_recommendations prefs l user thr movies ii weighted n h).1
     = Ok out →
     ∀ s t, (s, t) ∈ returned out ↔
       ∃ i, i ∈ range1 (length (deref l h)) ∧
            yields (hybrid_row_pure ur (deref l h) thr movies ii weighted)
              ur movies i s t) ∧
  (∀ ur num denom, prefs !! user = Some ur →
     tfidf_single_row ur cosim_matrix thr movies movies2 excluded
     = Ok (num, denom) →
     get_TFIDF_recommendations_single prefs cosim_matrix user thr movies
       movies2 ii excluded
     = Ok (if decide (0 < num ∧ 0 < denom) then Some (num / denom) else None,
           excluded)) ∧
  (∀ ur num denom, prefs !! user = Some ur →
     hybrid_single_row_pure ur (deref l h) thr movies movies2 ii excluded
       weighted = Ok (num, denom) →
     (get_hybrid_recommendations_single prefs l user thr movies movies2 ii
        excluded weighted h).1
     = Ok (if decide (0 < num ∧ 0 < denom) then Some (num / denom) else None,
           excluded)).
Proof.
  split_and!.
  - intros ur out Hur. unfold get_TFIDF_recommendations, key. rewrite Hur.
    cbn [mbind result_bind].
    destruct (for_each _ _ _) as [recs|] eqn:Hloop; [|done].
    intros [= <-] s t. simpl.
    rewrite (score_items_elem_of (λ i _, tfidf_row ur cosim_matrix thr movies i)
               ur movies _ [] recs s t Hloop).
    rewrite elem_of_nil. naive_solver.
  - intros ur out Hur. rewrite get_hybrid_recommendations_pure.
    unfold key. rewrite Hur. cbn [mbind result_bind].
    destruct (for_each _ _ _) as [recs|] eqn:Hloop; [|done].
    intros [= <-] s t. simpl.
    rewrite (score_items_elem_of _ ur movies _ [] recs s t Hloop).
    rewrite elem_of_nil. naive_solver.
  - intros ur num denom Hur Hrow.
    unfold get_TFIDF_recommendations_single, key. rewrite Hur.
    cbn [mbind result_bind]. rewrite Hrow. cbn [mbind result_bind].
    by case_decide.
  - intros ur num denom Hur Hrow.
    rewrite get_hybrid_recommendations_single_pure.
    unfold key. rewrite Hur. cbn [mbind result_bind].
    rewrite Hrow. cbn [mbind result_bind]. by case_decide.
Qed.

Lemma score_iff_sums_positive_witness :
  tfidf_single_row {[ "A" := qc 1 1; "B" := qc 5 1 ]} cosim4 0 movies4
    movies4_ids "C" = Ok (qc 1 1, qc 1 1) ∧
  get_TFIDF_recommendations_single prefs_u cosim4 "u" 0 movies4 movies4_ids
    itemsim4 "C"
  = Ok (if decide (0 < qc 1 1 ∧ 0 < qc 1 1) then Some (qc 1 1 / qc 1 1)
        else None, "C").
Proof.
  assert (H1 : prefs_u !! "u"
               = Some ({[ "A" := qc 1 1; "B" := qc 5 1 ]} : gmap string Qc))
    by by_compute.
  assert (H2 : tfidf_single_row {[ "A" := qc 1 1; "B" := qc 5 1 ]} cosim4 0
                 movies4 movies4_ids "C" = Ok (qc 1 1, qc 1 1)) by by_compute.
  split; [exact H2|].
  exact (proj1 (proj2 (proj2 (score_iff_sums_positive prefs_u cosim4
                                1%positive store4 "u" 0 movies4 movies4_ids
                                itemsim4 "C" true 1))) _ _ _ H1 H2).
Defined.

(** ** The leave-one-out loop and the caller's matrix *)

Lemma keeps_ret {A} h0 (a : A) : keeps h0 (mret a).
Proof. intros h Hh l Hl. by apply Hh. Qed.

Lemma keeps_lift {A} h0 (r : result A) : keeps h0 (lift r).
Proof. intros h Hh l Hl. by apply Hh. Qed.

Lemma keeps_bind {A B} h0 (m : M A) (f : A → M B) :
  keeps h0 m → (∀ a, keeps h0 (f a)) → keeps h0 (m ≫= f).
Proof.
  intros Hm Hf h Hh l Hl. unfold mbind, M_bind. specialize (Hm h Hh).
  destruct (m h) as [[a|e] h']; simpl in *; [|by apply Hm].
  by apply Hf.
Qed.

Lemma keeps_bind_lift {A B} h0 (r : result A) (f : A → M B) :
  (∀ a, r = Ok a → keeps h0 (f a)) → keeps h0 (lift r ≫= f).
Proof.
  intros Hf. destruct r as [a|e].
  - intros h. rewrite run_lift. by apply Hf.
  - intros h Hh l Hl. by apply Hh.
Qed.

Lemma keeps_for_eachM {X S} h0 (body : X → S → M S) xs s :
  (∀ x s, keeps h0 (body x s)) → keeps h0 (for_eachM body xs s).
Proof.
  intros Hbody. revert s. induction xs as [|x xs IH]; intros s; simpl.
  - apply keeps_ret.
  - apply keeps_bind; [apply Hbody|apply IH].
Qed.

Lemma keeps_get_item h0 l k : keeps h0 (get_item l k).
Proof. intros h Hh l' Hl'. by apply Hh. Qed.

Lemma keeps_keys_at h0 l : keeps h0 (keys_at l).
Proof. intros h Hh l' Hl'. by apply Hh. Qed.

Lemma keeps_del_item h0 l k : h0 !! l = None → keeps h0 (del_item l k).
Proof.
  intros Hnew h Hh l' Hl'. unfold del_item.
  destruct (dict_at l h !! k); simpl; [|by apply Hh].
  rewrite lookup_insert_ne; [by apply Hh|].
  intros ->. rewrite Hnew in Hl'. by destruct Hl'.
Qed.

Lemma keeps_set_item h0 l k v : h0 !! l = None → keeps h0 (set_item l k v).
Proof.
  intros Hnew h Hh l' Hl'. unfold set_item. simpl.
  rewrite lookup_insert_ne; [by apply Hh|].
  intros ->. rewrite Hnew in Hl'. by destruct Hl'.
Qed.

Lemma keeps_record_error h0 prefs i out rec t :
  keeps h0 (record_error prefs i out rec t).
Proof.
  intros h Hh l Hl. unfold record_error.
  repeat case_match; simpl; by apply Hh.
Qed.

Lemma run_get_item {B} (l : loc) (k : string) (v : Qc) (h : store)
    (f : Qc → M B) :
  key (dict_at l h) k = Ok v → (get_item l k ≫= f) h = f v h.
Proof. intros H. unfold mbind, M_bind, get_item. by rewrite H. Qed.

Lemma run_del_item {B} (l : loc) (k : string) (v : Qc) (h : store)
    (f : () → M B) :
  dict_at l h !! k = Some v →
  (del_item l k ≫= f) h = f () (<[l := Dict (delete k (dict_at l h))]> h).
Proof. intros H. unfold mbind, M_bind, del_item. by rewrite H. Qed.

Lemma run_set_item {B} (l : loc) (k : string) (v : Qc) (h : store)
    (f : () → M B) :
  (set_item l k v ≫= f) h = f () (<[l := Dict (<[k := v]> (dict_at l h))]> h).
Proof. done. Qed.

(** What [deepcopy] allocates. *)
Lemma copy_dicts_spec (ls : list loc) (h : store) memo h' :
  copy_dicts ls h = (memo, h') →
  (∀ l, is_Some (h !! l) → h' !! l = h !! l) ∧
  (∀ l l', memo !! l = Some l' →
     h !! l' = None ∧ h' !! l' = Some (Dict (dict_at l h))) ∧
  (∀ l, l ∈ ls → is_Some (memo !! l)).
Proof.
  revert memo h'. induction ls as [|l0 ls IH]; intros memo h'; simpl.
  { intros [= <- <-]. split_and!; [done| |by intros ? ?%elem_of_nil].
    intros l l'. by rewrite lookup_empty. }
  destruct (copy_dicts ls h) as [memo1 h1].
  destruct (IH memo1 h1 eq_refl) as (Hkeep & Hmemo & Hdom).
  intros [= <- <-].
  assert (Hfresh : h1 !! fresh (dom h1) = None).
  { apply not_elem_of_dom, is_fresh. }
  assert (Hfresh0 : h !! fresh (dom h1) = None).
  { destruct (h !! fresh (dom h1)) eqn:E; [|done].
    rewrite <-Hkeep, Hfresh in E by (by rewrite E). done. }
  split_and!.
  - intros l Hl. rewrite lookup_insert_ne; [by apply Hkeep|].
    intros <-. rewrite Hfresh0 in Hl. by destruct Hl.
  - intros l l'. rewrite lookup_insert. case_decide as Hl.
    + intros [= <-]. subst l. by rewrite lookup_insert_eq.
    + intros [Hnone Hcopy]%Hmemo. split; [done|].
      rewrite lookup_insert_ne; [done|]. intros <-. by rewrite Hfresh in Hcopy.
  - intros l [->|Hl]%elem_of_cons.
    + by rewrite lookup_insert_eq.
    + rewrite lookup_insert. case_decide; [done|]. by apply Hdom.
Qed.

Lemma deepcopy_prefs_spec (prefs : prefs_ref) (h : store) :
  ∃ newPrefs h1,
    deepcopy_prefs prefs h = (Ok newPrefs, h1) ∧
    (∀ l, is_Some (h !! l) → h1 !! l = h !! l) ∧
    (∀ u, is_Some (newPrefs !! u) ↔ is_Some (prefs !! u)) ∧
    (∀ u l l', prefs !! u = Some l → newPrefs !! u = Some l' →
       h !! l' = None ∧ h1 !! l' = Some (Dict (dict_at l h))).
Proof.
  unfold deepcopy_prefs.
  destruct (copy_dicts _ h) as [memo h1] eqn:Hcopy.
  apply copy_dicts_spec in Hcopy as (Hkeep & Hmemo & Hdom).
  eexists _, h1. split_and!; [done|done| |].
  - intros u. by rewrite lookup_fmap, fmap_is_Some.
  - intros u l l' Hu. rewrite lookup_fmap, Hu. simpl.
    destruct (Hdom l) as [l1 Hl1].
    { apply elem_of_elements, elem_of_map_img. eauto. }
    rewrite Hl1. simpl. intros [= <-]. by apply Hmemo.
Qed.

Lemma algo_TFIDF_reads_only sim_matrix thr itemsim :
  reads_only (algo_TFIDF sim_matrix thr itemsim).
Proof. intros ?????? h l _. unfold algo_TFIDF. by case_match. Qed.

Lemma algo_hybrid_reads_only sim_matrix thr itemsim :
  reads_only (algo_hybrid sim_matrix thr itemsim).
Proof.
  intros ?????? h l Hl. unfold algo_hybrid.
  by apply get_hybrid_recommendations_single_frame.
Qed.

Section loo_cv_facts.
Variable algo :
  prefs_ref → string → Catalog → TitleIndex → string → option bool →
  M (option Qc * string).
Variable report : tallies → result ().
Hypothesis algo_reads_only : reads_only algo.

Lemma keeps_algo h0 newPrefs i movies newMovies out weighted :
  keeps h0 (algo newPrefs i movies newMovies out weighted).
Proof.
  intros h Hh l Hl. rewrite algo_reads_only; [by apply Hh|].
  by rewrite Hh.
Qed.

Lemma keeps_trial h0 prefs newPrefs movies newMovies weighted i out t :
  (∀ u l', newPrefs !! u = Some l' → h0 !! l' = None) →
  keeps h0 (trial algo prefs newPrefs movies newMovies weighted i out t).
Proof.
  intros Hnew. unfold trial.
  assert (Hkey : ∀ li, key newPrefs i = Ok li → h0 !! li = None).
  { unfold key. intros li. destruct (newPrefs !! i) eqn:E; naive_solver. }
  apply keeps_bind_lift. intros li Hli%Hkey.
  apply keeps_bind; [apply keeps_get_item|intros save].
  apply keeps_bind; [by apply keeps_del_item|intros _].
  apply keeps_bind; [apply keeps_algo|intros rec].
  apply keeps_bind_lift. intros li' Hli'%Hkey.
  apply keeps_bind; [by apply keeps_set_item|intros _].
  apply keeps_record_error.
Qed.

Lemma keeps_user_trials h0 prefs newPrefs movies newMovies weighted i t :
  (∀ u l', newPrefs !! u = Some l' → h0 !! l' = None) →
  keeps h0 (user_trials algo prefs newPrefs movies newMovies weighted i t).
Proof.
  intros Hnew. unfold user_trials.
  apply keeps_bind; [apply keeps_lift|intros li].
  apply keeps_bind; [apply keeps_keys_at|intros outs].
  apply keeps_for_eachM. intros out t'. by apply keeps_trial.
Qed.

(** Every object of the caller's store is the same after [loo_cv_sim],
    whether it returns or raises. *)
Lemma loo_cv_sim_frame prefs movies weighted h l :
  is_Some (h !! l) →
  (loo_cv_sim algo report prefs movies weighted h).2 !! l = h !! l.
Proof.
  intros Hl. unfold loo_cv_sim.
  destruct (deepcopy_prefs_spec prefs h)
    as (newPrefs & h1 & Hcopy & Hkeep & Hdom & Hnew).
  rewrite (run_bind _ _ _ _ _ Hcopy).
  assert (Hfresh : ∀ u l', newPrefs !! u = Some l' → h !! l' = None).
  { intros u l' Hu. destruct (proj1 (Hdom u)) as [l0 Hl0]; [by eexists|].
    by destruct (Hnew u l0 l' Hl0 Hu). }
  assert (Hk : keeps h
            (t ← for_eachM (user_trials algo prefs newPrefs movies
                              (swap_ids movies) weighted)
                   (map_to_list prefs).*1 (Tallies [] [] []);
             _ ← lift (report t);
             mret (error_list t))).
  { apply keeps_bind; [|intros t; apply keeps_bind; [|intros ?]].
    - apply keeps_for_eachM. intros i t. by apply keeps_user_trials.
    - apply keeps_lift.
    - apply keeps_ret. }
  exact (Hk h1 Hkeep l Hl).
Qed.

(** One trial hides exactly the rating [(i, out)] from the scorer, and
    puts it back when the scorer returns; when the scorer raises, so does
    the trial, without putting it back. *)
Lemma trial_run prefs newPrefs movies newMovies (weighted : bool) i out t
    (li : loc) (d : gmap string Qc) (v : Qc) (h1 : store) :
  newPrefs !! i = Some li → h1 !! li = Some (Dict d) → d !! out = Some v →
  let h2 : store := <[li := Dict (delete out d)]> h1 in
  let run : result (option Qc * string) * store :=
    algo newPrefs i movies newMovies out
      (if weighted then Some weighted else None) h2 in
  match run.1 with
  | Raise e =>
      trial algo prefs newPrefs movies newMovies weighted i out t h1
      = (Raise e, run.2)
  | Ok rec =>
      ∃ t', trial algo prefs newPrefs movies newMovies weighted i out t h1
            = (Ok t', <[li := Dict d]> run.2)
  end.
Proof.
  intros Hli Hd Hout h2 run.
  assert (Hdict : dict_at li h1 = d) by (unfold dict_at; by rewrite Hd).
  pose proof (algo_reads_only newPrefs i movies newMovies out
                (if weighted then Some weighted else None) h2 li) as Hframe.
  assert (Hrun : algo newPrefs i movies newMovies out
                   (if weighted then Some weighted else None) h2
                 = (run.1, run.2))
    by (unfold run; by destruct (algo _ _ _ _ _ _ _)).
  fold run in Hframe. clearbody run. destruct run as [r h3]. simpl in *.
  assert (Htrial :
    trial algo prefs newPrefs movies newMovies weighted i out t h1
    = match r with
      | Ok rec =>
          (li' ← lift (key newPrefs i);
           _ ← set_item li' out v;
           record_error prefs i out rec t) h3
      | Raise e => (Raise e, h3)
      end).
  { unfold trial, key. rewrite Hli, run_lift.
    rewrite (run_get_item _ _ v) by (unfold key; by rewrite Hdict, Hout).
    rewrite (run_del_item _ _ v) by (by rewrite Hdict).
    rewrite Hdict. fold h2. by rewrite (run_bind _ _ _ _ _ Hrun). }
  rewrite Htrial. destruct r as [rec|e]; [|done].
  unfold key. rewrite Hli, run_lift, run_set_item.
  assert (Hdict3 : dict_at li h3 = delete out d).
  { unfold dict_at. rewrite Hframe by (unfold h2; by rewrite lookup_insert_eq).
    unfold h2. by rewrite lookup_insert_eq. }
  rewrite Hdict3, insert_delete_id by done.
  unfold record_error. repeat case_match; eauto.
Qed.

(** The scorer returns, whatever it is given. *)
Hypothesis algo_returns :
  ∀ newPrefs i movies newMovies out weighted h,
    ∃ rec, (algo newPrefs i movies newMovies out weighted h).1 = Ok rec.

Lemma trial_restores h0 prefs newPrefs movies newMovies weighted i out t l v h :
  restored h0 prefs newPrefs h →
  prefs !! i = Some l → dict_at l h0 !! out = Some v →
  ∃ t' h', trial algo prefs newPrefs movies newMovies weighted i out t h
           = (Ok t', h') ∧ restored h0 prefs newPrefs h'.
Proof.
  intros (Hkeep & Hdom & Hcopy) Hl Hv.
  destruct (Hdom i) as [li Hli]; [by eexists|].
  destruct (Hcopy i l li Hl Hli) as [Hfresh Hd].
  pose proof (trial_run prefs newPrefs movies newMovies weighted i out t li
                _ v h Hli Hd Hv) as Hrun.
  pose proof (algo_reads_only newPrefs i movies newMovies out
                (if weighted then Some weighted else None)
                (<[li := Dict (delete out (dict_at l h0))]> h)) as Hframe.
  destruct (algo_returns newPrefs i movies newMovies out
              (if weighted then Some weighted else None)
              (<[li := Dict (delete out (dict_at l h0))]> h)) as [rec Hrec].
  simpl in Hrun. rewrite Hrec in Hrun. destruct Hrun as [t' Hrun].
  eexists t', _. split; [exact Hrun|].
  split_and!; [|done|].
  - intros l0 Hl0. assert (l0 ≠ li).
    { intros ->. rewrite Hfresh in Hl0. by destruct Hl0. }
    rewrite lookup_insert_ne by done.
    rewrite Hframe by (rewrite lookup_insert_ne, Hkeep; done).
    rewrite lookup_insert_ne by done. by apply Hkeep.
  - intros u l1 l1' Hl1 Hl1'. destruct (Hcopy u l1 l1' Hl1 Hl1') as [Hf1 Hd1].
    split; [done|]. destruct (decide (l1' = li)) as [->|Hne].
    + rewrite lookup_insert_eq. congruence.
    + rewrite lookup_insert_ne by done.
      rewrite Hframe by (rewrite lookup_insert_ne, Hd1; done).
      by rewrite lookup_insert_ne.
Qed.

Lemma trials_restore h0 prefs newPrefs movies newMovies weighted i l outs t h :
  restored h0 prefs newPrefs h → prefs !! i = Some l →
  (∀ out, out ∈ outs → is_Some (dict_at l h0 !! out)) →
  ∃ t' h', for_eachM (trial algo prefs newPrefs movies newMovies weighted i)
             outs t h = (Ok t', h') ∧ restored h0 prefs newPrefs h'.
Proof.
  intros Hres Hl. revert t h Hres.
  induction outs as [|out outs IH]; intros t h Hres Houts.
  { by exists t, h. }
  destruct (Houts out) as [v Hv]; [by left|].
  destruct (trial_restores h0 prefs newPrefs movies newMovies weighted i out t
              l v h Hres Hl Hv) as (t1 & h1 & Hrun & Hres1).
  rewrite for_eachM_cons, (run_bind _ _ _ _ _ Hrun).
  apply IH; [done|]. intros; apply Houts. by right.
Qed.

Lemma user_trials_restore h0 prefs newPrefs movies newMovies weighted i t h :
  (∀ u l, prefs !! u = Some l → is_Some (h0 !! l)) →
  restored h0 prefs newPrefs h → is_Some (prefs !! i) →
  ∃ t' h', user_trials algo prefs newPrefs movies newMovies weighted i t h
           = (Ok t', h') ∧ restored h0 prefs newPrefs h'.
Proof.
  intros Hwf Hres [l Hl]. unfold user_trials, key. rewrite Hl, run_lift.
  unfold keys_at. rewrite (run_bind _ _ h h (Ok _)) by done.
  eapply trials_restore; [done..|].
  intros out ([out' v] & -> & Hin)%list_elem_of_fmap.
  apply elem_of_map_to_list in Hin. simpl.
  assert (dict_at l h = dict_at l h0) as <-.
  { unfold dict_at. destruct Hres as [Hkeep _]. rewrite Hkeep; eauto. }
  by rewrite Hin.
Qed.

(** With a scorer that returns, the loop runs to its end: every trial
    finds the rating it hides and puts it back, and only the report that
    follows the loop can make [loo_cv_sim] raise. *)
Lemma loo_cv_sim_runs prefs movies weighted h :
  (∀ u l, prefs !! u = Some l → is_Some (h !! l)) →
  ∃ t, (loo_cv_sim algo report prefs movies weighted h).1
       = (_ ← report t; Ok (error_list t)).
Proof.
  intros Hwf. unfold loo_cv_sim.
  destruct (deepcopy_prefs_spec prefs h)
    as (newPrefs & h1 & Hcopy & Hkeep & Hdom & Hnew).
  rewrite (run_bind _ _ _ _ _ Hcopy). cbv zeta.
  assert (Hres : restored h prefs newPrefs h1).
  { split_and!; [done|by intros; apply Hdom|done]. }
  assert (Hloop : ∀ users t0 h2, restored h prefs newPrefs h2 →
            (∀ u, u ∈ users → is_Some (prefs !! u)) →
            ∃ t' h', for_eachM (user_trials algo prefs newPrefs movies
                                  (swap_ids movies) weighted) users t0 h2
                     = (Ok t', h') ∧ restored h prefs newPrefs h').
  { induction users as [|u users IH]; intros t0 h2 Hres2 Husers.
    { by exists t0, h2. }
    destruct (user_trials_restore h prefs newPrefs movies (swap_ids movies)
                weighted u t0 h2 Hwf Hres2) as (t1 & h3 & Hrun & Hres3).
    { apply Husers. by left. }
    rewrite for_eachM_cons, (run_bind _ _ _ _ _ Hrun).
    apply IH; [done|]. intros; apply Husers. by right. }
  destruct (Hloop (map_to_list prefs).*1 (Tallies [] [] []) h1 Hres)
    as (t & h' & Hrun & _).
  { intros u ([u' l] & -> & Hin)%list_elem_of_fmap.
    apply elem_of_map_to_list in Hin. by eexists. }
  exists t. rewrite (run_bind _ _ _ _ _ Hrun).
  by destruct (report t).
Qed.
End loo_cv_facts.

(** C2: with a scorer that writes to no object that exists when it is
    called (the three scorers of the program are such), and whether
    [loo_cv_sim] returns or raises, every object of the caller's store is
    afterwards what it was, so the rating matrix passed in is the same user
    by user and item by item.  A trial hides exactly the rating [(i, out)]
    in the working copy before it calls the scorer and puts it back when
    the scorer returns; a scorer that raises ends the call there.  With a
    scorer that always returns the loop runs to its end. *)
Theorem loo_cv_sim_restores_prefs
    (algo : prefs_ref → string → Catalog → TitleIndex → string → option bool →
            M (option Qc * string))
    (report : tallies → result ()) (prefs : prefs_ref) (movies : Catalog)
    (weighted : bool) (h : store) :
  reads_only algo →
  (∀ u l, prefs !! u = Some l → is_Some (h !! l)) →
  let run := loo_cv_sim algo report prefs movies weighted h in
  (∀ l, is_Some (h !! l) → run.2 !! l = h !! l) ∧
  snapshot prefs run.2 = snapshot prefs h ∧
  (∀ newPrefs newMovies i out t (li : loc) (d : gmap string Qc) (v : Qc)
     (h1 : store),
     newPrefs !! i = Some li → h1 !! li = Some (Dict d) → d !! out = Some v →
     let scored : result (option Qc * string) * store :=
       algo newPrefs i movies newMovies out
         (if weighted then Some weighted else None)
         (<[li := Dict (delete out d)]> h1) in
     match scored.1 with
     | Raise e =>
         trial algo prefs newPrefs movies newMovies weighted i out t h1
         = (Raise e, scored.2)
     | Ok rec =>
         ∃ t', trial algo prefs newPrefs movies newMovies weighted i out t h1
               = (Ok t', <[li := Dict d]> scored.2)
     end) ∧
  ((∀ newPrefs i movies newMovies out weighted h,
      ∃ rec, (algo newPrefs i movies newMovies out weighted h).1 = Ok rec) →
   ∃ t, run.1 = (_ ← report t; Ok (error_list t))).
Proof.
  intros Hreads Hwf run.
  assert (Hframe : ∀ l, is_Some (h !! l) → run.2 !! l = h !! l).
  { intros l Hl. by apply loo_cv_sim_frame. }
  split_and!.
  - done.
  - unfold snapshot. apply map_fmap_ext. intros u l Hu.
    unfold dict_at. rewrite Hframe; eauto.
  - intros. by eapply trial_run.
  - intros Hreturns. by apply loo_cv_sim_runs.
Qed.

Lemma loo_cv_sim_restores_prefs_witness :
  reads_only (algo_hybrid 1%positive 0 itemsim_u) ∧
  (∀ u l, prefs_ref_u !! u = Some l → is_Some (store_u !! l)) ∧
  snapshot prefs_ref_u
    (loo_cv_sim (algo_hybrid 1%positive 0 itemsim_u) (λ _, Ok ()) prefs_ref_u
       movies4 false store_u).2
  = snapshot prefs_ref_u store_u.
Proof.
  assert (Hwf : ∀ u l, prefs_ref_u !! u = Some l → is_Some (store_u !! l)).
  { unfold prefs_ref_u. intros u l [_ <-]%lookup_singleton_Some. by_compute. }
  split_and!; [apply algo_hybrid_reads_only|exact Hwf|].
  exact (proj1 (proj2 (loo_cv_sim_restores_prefs _ (λ _, Ok ()) prefs_ref_u
                         movies4 false store_u
                         (algo_hybrid_reads_only 1%positive 0 itemsim_u) Hwf))).
Defined.

(** The run of the witness: each rating of [u] is hidden in turn and
    predicted from the other through the fill-in; both errors are 16. *)
Lemma loo_cv_sim_example :
  (loo_cv_sim (algo_hybrid 1%positive 0 itemsim_u) (λ _, Ok ()) prefs_ref_u
     movies4 false store_u).1
  = Ok [qc 16 1; qc 16 1].
Proof. by_compute. Qed.

(** ** Sorting from high to low *)

Section sorting.
Context {A : Type} (R : relation A) `{!RelDecision R}.
Context `{!Total R, !Transitive R, !AntiSymm (=) R}.

Lemma sort_perm (l1 l2 : list A) :
  l1 ≡ₚ l2 → merge_sort R l1 = merge_sort R l2.
Proof.
  intros Hperm. apply (Sorted_unique R); [apply Sorted_merge_sort; done..|].
  by rewrite !merge_sort_Permutation.
Qed.

Lemma sort_sorted (l : list A) : Sorted R l → merge_sort R l = l.
Proof.
  intros Hl. apply (Sorted_unique R); [by apply Sorted_merge_sort|done|].
  apply merge_sort_Permutation.
Qed.

Lemma ins_perm (x : A) (l : list A) : ins R x l ≡ₚ x :: l.
Proof.
  induction l as [|y l IH]; simpl; [done|].
  case_decide; [|done]. rewrite IH. apply Permutation_swap.
Qed.

Lemma ins_sorted (x : A) (l : list A) : Sorted R l → Sorted R (ins R x l).
Proof.
  induction 1 as [|y l Hl IH Hhd]; simpl.
  { repeat constructor. }
  case_decide as Hyx.
  - constructor; [done|]. destruct Hhd as [|z l Hyz]; simpl.
    + by repeat constructor.
    + case_decide; by constructor.
  - constructor; [by constructor|]. constructor.
    by destruct (total R x y).
Qed.

Lemma sort_snoc (l : list A) (x : A) :
  merge_sort R (l ++ [x]) = ins R x (merge_sort R l).
Proof.
  apply (Sorted_unique R).
  - by apply Sorted_merge_sort.
  - by apply ins_sorted, Sorted_merge_sort.
  - rewrite ins_perm, !merge_sort_Permutation.
    by rewrite Permutation_app_comm.
Qed.

Lemma length_ins (x : A) (l : list A) : length (ins R x l) = S (length l).
Proof. by rewrite ins_perm. Qed.

(** Only the first [n] elements decide the first [n] after an insertion. *)
Lemma take_ins (n : nat) (x : A) (l : list A) :
  take n (ins R x (take n l)) = take n (ins R x l).
Proof.
  revert n. induction l as [|y l IH]; intros [|n]; simpl; try done.
  case_decide; simpl.
  - by rewrite IH.
  - f_equal. destruct n; simpl; [done|]. f_equal.
    rewrite take_take. f_equal. lia.
Qed.

(** Sorting and capping after every insertion keeps what sorting and
    capping once keeps, when the cap is not below the length it is
    applied from. *)
Lemma cap_sort_step (n : nat) (x : A) (l : list A) :
  (10 ≤ n)%nat →
  cap n (merge_sort R (cap n (merge_sort R l) ++ [x]))
  = cap n (merge_sort R (l ++ [x])).
Proof.
  intros Hn. rewrite !sort_snoc. unfold cap at 2.
  assert (Hlen : length (merge_sort R l) = length l)
    by (by rewrite merge_sort_Permutation).
  case_decide as Hlong; [|by rewrite sort_sorted by (by apply Sorted_merge_sort)].
  set (s := merge_sort R l) in *.
  assert (Hs : Sorted R (take n s)).
  { pose proof (Sorted_merge_sort R l) as Hss.
    apply Sorted_StronglySorted in Hss; [|done].
    fold s in Hss. rewrite <-(take_drop n s) in Hss.
    apply StronglySorted_app_1_l in Hss. by apply StronglySorted_Sorted. }
  rewrite (sort_sorted (take n s)) by done.
  unfold cap. rewrite !length_ins, length_take.
  destruct (decide (n ≤ length s)%nat).
  - rewrite Nat.min_l by done. rewrite !decide_True by lia. apply take_ins.
  - rewrite (take_ge s) by lia. by rewrite Nat.min_r by lia.
Qed.

Lemma cap_sort_loop (n : nat) (xs l : list A) :
  (10 ≤ n)%nat →
  foldl (λ recs x, cap n (merge_sort R (recs ++ [x]))) (cap n (merge_sort R l)) xs
  = cap n (merge_sort R (l ++ xs)).
Proof.
  intros Hn. revert l. induction xs as [|x xs IH]; intros l; simpl.
  - by rewrite app_nil_r.
  - rewrite cap_sort_step by done. rewrite IH. by rewrite <-app_assoc.
Qed.
End sorting.

(** ** The order on recommendations *)

#[global] Instance Qc_score_laws : ScoreLaws Qc.
Proof.
  split; [apply _|]. intros x y. simpl.
  destruct (Qclt_le_dec x y) as [?|Hle]; [by left|right].
  destruct (Qcle_lt_or_eq _ _ Hle); auto.
Qed.

#[global] Instance npf_score_laws : ScoreLaws npf.
Proof.
  split; [split|].
  - intros [] Hx; simpl in *; try done. by apply (irreflexivity Qclt) in Hx.
  - intros [a| | |] [b| | |] [c| | |]; simpl; try done. apply Qclt_trans.
  - intros [a| | |] [b| | |]; simpl; auto.
    destruct (score_lt_trichotomy a b) as [?|[->|?]]; auto.
Qed.

Section rec_order.
Context `{ScoreLaws T}.

#[global] Instance rec_ge_total : Total (rec_ge (T := T)).
Proof.
  intros [a s] [b t]. unfold rec_ge. simpl.
  destruct (score_lt_trichotomy a b) as [?|[->|?]]; [by right; left| |by left; left].
  destruct (total String.le s t); [right|left]; by right.
Qed.

#[global] Instance rec_ge_trans : Transitive (rec_ge (T := T)).
Proof.
  intros [a s] [b t] [c u]. unfold rec_ge. simpl.
  intros [Hba|[-> Hts]] [Hcb|[-> Hut]].
  - left. by trans b.
  - by left.
  - by left.
  - right. split; [done|]. by trans t.
Qed.

#[global] Instance rec_ge_antisymm : AntiSymm (=) (rec_ge (T := T)).
Proof.
  intros [a s] [b t]. unfold rec_ge. simpl.
  intros [Hba|[-> Hts]] [Hab|[Heq Hst]].
  - destruct (irreflexivity score_lt a). by trans b.
  - subst. by destruct (irreflexivity score_lt a).
  - by destruct (irreflexivity score_lt b).
  - f_equal. by apply (anti_symm String.le).
Qed.

(** What is printed is sorted from high to low and has at most [n]
    entries. *)
Lemma take_sorted_desc (n : nat) (recs : list (T * string)) :
  Sorted rec_ge (take n (sorted_desc recs)) ∧
  (length (take n (sorted_desc recs)) ≤ n)%nat.
Proof.
  split; [|rewrite length_take; lia].
  pose proof (Sorted_merge_sort rec_ge recs) as Hs.
  apply Sorted_StronglySorted in Hs; [|apply _].
  unfold sorted_desc. rewrite <-(take_drop n (merge_sort rec_ge recs)) in Hs.
  apply StronglySorted_app_1_l in Hs. by apply StronglySorted_Sorted.
Qed.
End rec_order.

(** ** Capping inside the loop and capping once *)

Lemma fe_loop_sort_once (features : Features) (movies : Catalog)
    (m : list (list Qc)) (n : nat) (ids : list Z) (l : list (npf * string)) :
  (10 ≤ n)%nat →
  for_each (fe_item features movies m n) ids (cap n (sorted_desc l))
  = (recs ← for_each (fe_append features movies m) ids l;
     Ok (cap n (sorted_desc recs))).
Proof.
  intros Hn. revert l. induction ids as [|id ids IH]; intros l; [done|].
  rewrite !for_each_cons.
  assert (Hitem : fe_item features movies m n id (cap n (sorted_desc l))
            = (λ recs, cap n (sorted_desc recs)) <$>
                fe_append features movies m id l
              ∨ ∃ e, fe_item features movies m n id (cap n (sorted_desc l))
                     = Raise e ∧ fe_append features movies m id l = Raise e).
  { unfold fe_item, fe_append.
    destruct (get features id) as [row|e]; [|right; by exists e].
    cbn [mbind result_bind]. case_decide; [by left|].
    destruct (key movies (id + 1)%Z) as [t|e]; [|right; by exists e].
    left. cbn [mbind result_bind fmap result_fmap]. f_equal.
    unfold sorted_desc. by apply (cap_sort_step rec_ge). }
  destruct Hitem as [->|(e & -> & ->)]; [|done].
  destruct (fe_append features movies m id l) as [recs|]; [|done].
  apply IH.
Qed.



(** C8, at a failing input: with [n = 5] and twelve candidates the loop
    caps to five at the eleventh and then lets the twelfth in, and returns
    six entries, where sorting once and capping once returns the five that
    the limit asks for. *)
Theorem fe_cap_in_loop_differs :
  get_FE_recommendations ascending prefs13 features13 movies13_ids movies13
    "u" 5
  = Ok [(Fin (qc 3 1), "m"); (Fin (qc 3 1), "l"); (Fin (qc 3 1), "k");
        (Fin (qc 3 1), "j"); (Fin (qc 3 1), "i"); (Fin (qc 3 1), "h")] ∧
  get_FE_recommendations_sort_once ascending prefs13 features13 movies13_ids
    movies13 "u" 5
  = Ok [(Fin (qc 3 1), "m"); (Fin (qc 3 1), "l"); (Fin (qc 3 1), "k");
        (Fin (qc 3 1), "j"); (Fin (qc 3 1), "i")] ∧
  get_FE_recommendations ascending prefs13 features13 movies13_ids movies13
    "u" 5
  ≠ get_FE_recommendations_sort_once ascending prefs13 features13
      movies13_ids movies13 "u" 5.
Proof. split_and!; by_compute. Qed.

(** ** The single-item feature encoder returns *)

Lemma py_index_Ok (n : nat) (z : Z) :
  (- Z.of_nat n ≤ z < Z.of_nat n)%Z → ∃ i, py_index n z = Ok i ∧ (i < n)%nat.
Proof.
  intros Hz. unfold py_index. case_decide.
  - exists (Z.to_nat z). split; [done|lia].
  - rewrite decide_True by lia. eexists. split; [done|lia].
Qed.

Lemma get_total {A} (l : list A) (z : Z) :
  (- Z.of_nat (length l) ≤ z < Z.of_nat (length l))%Z → ∃ a, get l z = Ok a.
Proof.
  intros (i & Hi & Hlt)%py_index_Ok. unfold get. rewrite Hi. simpl.
  destruct (lookup_lt_is_Some_2 l i Hlt) as [a ->]. by exists a.
Qed.

Lemma scale_row_Ok (m : list (list Qc)) (id : Z) (r : Qc) :
  (- Z.of_nat (length m) ≤ id < Z.of_nat (length m))%Z →
  ∃ m', scale_row m id r = Ok m' ∧ length m' = length m.
Proof.
  intros (i & Hi & _)%py_index_Ok. unfold scale_row. rewrite Hi. simpl.
  eexists. split; [done|]. apply length_alter.
Qed.

Lemma fe_rate_loop_Ok (movies2 : TitleIndex) (entries : list (string * Qc))
    (st : list (list Qc) * gset Z) :
  (∀ e, e ∈ entries → valid_id (length st.1) movies2 e.1) →
  ∃ st', for_each (fe_rate movies2) entries st = Ok st' ∧
         length st'.1 = length st.1.
Proof.
  revert st. induction entries as [|[t r] entries IH]; intros [m rated] Hvalid.
  { by eexists. }
  destruct (Hvalid (t, r)) as (idz & Hid & Hrange); [by left|].
  destruct (scale_row_Ok m (idz - 1) r Hrange) as (m' & Hscale & Hlen).
  rewrite for_each_cons. simpl in Hid.
  assert (fe_rate movies2 (t, r) (m, rated)
          = Ok (m', {[(idz - 1)%Z]} ∪ rated)) as ->.
  { unfold fe_rate, key. simpl. rewrite Hid. simpl. by rewrite Hscale. }
  cbn [mbind result_bind].
  destruct (IH (m', {[(idz - 1)%Z]} ∪ rated)) as (st' & Hloop & Hlen').
  { simpl. rewrite Hlen. intros e He. apply Hvalid. by right. }
  exists st'. split; [done|]. simpl in *. congruence.
Qed.

Lemma fe_zero_loop_Ok (ids : list Z) (m : list (list Qc)) :
  (∀ id, id ∈ ids → (0 ≤ id < Z.of_nat (length m))%Z) →
  ∃ m', for_each (λ id m, scale_row m id 0) ids m = Ok m' ∧
        length m' = length m.
Proof.
  revert m. induction ids as [|id ids IH]; intros m Hids.
  { by eexists. }
  destruct (scale_row_Ok m id 0) as (m1 & Hscale & Hlen).
  { assert (0 ≤ id < Z.of_nat (length m))%Z by (apply Hids; by left). lia. }
  rewrite for_each_cons, Hscale. simpl.
  destruct (IH m1) as (m' & Hloop & Hlen').
  { rewrite Hlen. intros; apply Hids. by right. }
  exists m'. split; [done|congruence].
Qed.

Lemma elem_of_id_set (n : nat) (id : Z) :
  id ∈ id_set n ↔ (0 ≤ id < Z.of_nat n)%Z.
Proof. unfold id_set. rewrite elem_of_list_to_set, elem_of_seqZ. lia. Qed.

Lemma length_as_float (features : Features) :
  length (as_float features) = length features.
Proof. apply length_map. Qed.

(** With a user who is there and rated titles that have ids, the
    encoding is computed: nothing in it raises. *)
Lemma fe_encode_Ok (set_iter : gset Z → list Z) (prefs : RatingMatrix)
    (features : Features) (movies2 : TitleIndex) (user : string)
    (ur : gmap string Qc) :
  (∀ s id, id ∈ set_iter s → id ∈ s) →
  prefs !! user = Some ur →
  (∀ t, is_Some (ur !! t) → valid_id (length features) movies2 t) →
  ∃ e, fe_encode set_iter prefs features movies2 user = Ok e.
Proof.
  intros Hiter Hur Hvalid. unfold fe_encode, key. rewrite Hur. simpl.
  destruct (fe_rate_loop_Ok movies2 (map_to_list ur) (as_float features, ∅))
    as ([m rated] & -> & Hlen).
  { simpl. rewrite length_as_float. intros [t r] Hin%elem_of_map_to_list.
    apply Hvalid. by eexists. }
  simpl in *. rewrite length_as_float in Hlen.
  destruct (fe_zero_loop_Ok (set_iter (id_set (length features) ∖ rated)) m)
    as (m' & -> & _); [|by eexists].
  intros id Hid%Hiter. apply elem_of_difference in Hid as [Hid _].
  apply elem_of_id_set in Hid. lia.
Qed.

(** C7: on the inputs of a well-formed catalog (the user is there, and
    the rated titles and the excluded one have ids of rows of the feature
    matrix) [get_FE_recommendations_single] returns a pair for [excluded]
    and raises nothing: [None] when the weighted feature sum is 0, and
    otherwise the score of the guarded block, or [None] if that raised. *)
Theorem fe_single_never_raises (set_iter : gset Z → list Z)
    (prefs : RatingMatrix) (features : Features) (user : string)
    (sim_threshold : Qc) (movies : Catalog) (movies2 : TitleIndex)
    (ii_matrix : ItemSim) (excluded : string) (ur : gmap string Qc) :
  (∀ s id, id ∈ set_iter s → id ∈ s) →
  prefs !! user = Some ur →
  (∀ t, is_Some (ur !! t) → valid_id (length features) movies2 t) →
  valid_id (length features) movies2 excluded →
  ∃ e idz row r,
    fe_encode set_iter prefs features movies2 user = Ok e ∧
    movies2 !! excluded = Some idz ∧ get features (idz - 1) = Ok row ∧
    get_FE_recommendations_single set_iter prefs features user sim_threshold
      movies movies2 ii_matrix excluded = Ok (r, excluded) ∧
    r = if decide (np_sum (norm_weight (feature_preference e) row) = Fin 0)
        then None
        else match fe_guarded features movies2 (feature_preference e)
                     excluded with
             | Ok final => Some final
             | Raise _ => None
             end.
Proof.
  intros Hiter Hur Hvalid (idz & Hid & Hrange).
  destruct (fe_encode_Ok set_iter prefs features movies2 user ur Hiter Hur
              Hvalid) as [e He].
  destruct (get_total features (idz - 1) Hrange) as [row Hrow].
  exists e, idz, row. eexists. split_and!; [done..| |done].
  unfold get_FE_recommendations_single, key. rewrite He, Hid. simpl.
  rewrite Hrow. simpl. case_decide; [done|].
  by destruct (fe_guarded _ _ _ _).
Qed.

Lemma ascending_elem_of (s : gset Z) (id : Z) : id ∈ ascending s ↔ id ∈ s.
Proof. unfold ascending. by rewrite merge_sort_Permutation, elem_of_elements. Qed.

Lemma fe_single_never_raises_witness :
  ∃ e idz row r,
    fe_encode ascending prefs13 features13 movies13_ids "u" = Ok e ∧
    movies13_ids !! "b" = Some idz ∧ get features13 (idz - 1) = Ok row ∧
    get_FE_recommendations_single ascending prefs13 features13 "u" 0 movies13
      movies13_ids ∅ "b" = Ok (r, "b") ∧
    r = if decide (np_sum (norm_weight (feature_preference e) row) = Fin 0)
        then None
        else match fe_guarded features13 movies13_ids (feature_preference e)
                     "b" with
             | Ok final => Some final
             | Raise _ => None
             end.
Proof.
  apply (fe_single_never_raises ascending prefs13 features13 "u" 0 movies13
           movies13_ids ∅ "b" {[ "a" := qc 3 1 ]}).
  - intros s id. apply ascending_elem_of.
  - by_compute.
  - intros t [r [<- _]%lookup_singleton_Some]. exists 1%Z. split; by_compute.
  - exists 2%Z. split; by_compute.
Defined.

(** What the witness computes, and what a user without ratings gets: the
    division by the overall sum 0 gives NaN and no exception, the weighted
    sum is NaN and not 0, and the NaN-ignoring sum of the score is 0. *)
Lemma fe_single_examples :
  get_FE_recommendations_single ascending prefs13 features13 "u" 0 movies13
    movies13_ids ∅ "b" = Ok (Some (Fin (qc 3 1)), "b") ∧
  get_FE_recommendations_single ascending {[ "u" := ∅ ]} features13 "u" 0
    movies13 movies13_ids ∅ "b" = Ok (Some (Fin 0), "b").
Proof. split; by_compute. Qed.

(** ** Scaling the ratings of a user *)

Section scaling.
Variable c : Qc.
Hypothesis c_pos : 0 < c.

Lemma c_ne_0 : c ≠ 0.
Proof. intros E. rewrite E in c_pos. by apply (irreflexivity Qclt) in c_pos. Qed.

Lemma scale_pos (a : Qc) : 0 < c * a ↔ 0 < a.
Proof.
  rewrite (Qcmult_lt_mono_pos_l 0 a c) by done. by rewrite Qcmult_0_r.
Qed.

Lemma scale_neg (a : Qc) : c * a < 0 ↔ a < 0.
Proof.
  rewrite (Qcmult_lt_mono_pos_l a 0 c) by done. by rewrite Qcmult_0_r.
Qed.

Lemma scale_eq_0 (a : Qc) : c * a = 0 ↔ a = 0.
Proof.
  split; [|intros ->; ring].
  intros [?|?]%Qcmult_integral; [by destruct c_ne_0|done].
Qed.

Lemma scale_lt (a b : Qc) : c * a < c * b ↔ a < b.
Proof. by rewrite <-Qcmult_lt_mono_pos_l. Qed.

Lemma signed_inf_scale (a : Qc) : signed_inf (c * a) = signed_inf a.
Proof.
  unfold signed_inf.
  destruct (decide (0 < a)) as [Ha|Ha].
  { by rewrite decide_True by (by apply scale_pos). }
  rewrite (decide_False (P := 0 < c * a)) by (by rewrite scale_pos).
  destruct (decide (a < 0)) as [Hn|Hn].
  - by rewrite decide_True by (by apply scale_neg).
  - by rewrite decide_False by (by rewrite scale_neg).
Qed.

Lemma signed_inf_not_Fin (a q : Qc) : signed_inf a ≠ Fin q.
Proof. unfold signed_inf. by repeat case_decide. Qed.

Lemma npf_scale_signed_inf (a : Qc) : npf_scale c (signed_inf a) = signed_inf a.
Proof. unfold signed_inf. by repeat case_decide. Qed.

(** A quotient of two scaled numbers is the quotient. *)
Lemma npf_div_scale_both (a b : Qc) :
  npf_div (Fin (c * a)) (Fin (c * b)) = npf_div (Fin a) (Fin b).
Proof.
  simpl. destruct (decide (b = 0)) as [->|Hb].
  - rewrite decide_True by ring. apply signed_inf_scale.
  - rewrite decide_False by (by rewrite scale_eq_0). f_equal.
    field. split; [done|apply c_ne_0].
Qed.

Lemma npf_div_scale_l (a k : Qc) :
  npf_div (Fin (c * a)) (Fin k) = npf_scale c (npf_div (Fin a) (Fin k)).
Proof.
  simpl. case_decide.
  - by rewrite signed_inf_scale, npf_scale_signed_inf.
  - simpl. f_equal. by field.
Qed.

Lemma npf_mul_scale_l (x y : npf) :
  npf_mul (npf_scale c x) y = npf_scale c (npf_mul x y).
Proof.
  destruct x as [a| | |], y as [b| | |]; simpl;
    rewrite ?signed_inf_scale, ?npf_scale_signed_inf; try done;
    first [f_equal; ring | unfold signed_inf; by repeat case_decide].
Qed.

Lemma npf_add_scale (x y : npf) :
  npf_add (npf_scale c x) (npf_scale c y) = npf_scale c (npf_add x y).
Proof.
  destruct x as [a| | |], y as [b| | |]; simpl; try done. f_equal. ring.
Qed.

Lemma npf_scale_NaN (x : npf) : npf_scale c x = NaN ↔ x = NaN.
Proof. by destruct x. Qed.

Lemma npf_scale_lt (x y : npf) : npf_lt (npf_scale c x) (npf_scale c y) ↔ npf_lt x y.
Proof. destruct x, y; simpl; try done. apply scale_lt. Qed.

#[local] Instance npf_scale_inj : Inj (=) (=) (npf_scale c).
Proof.
  intros [a| | |] [b| | |]; simpl; try done. intros H. f_equal.
  assert (Hab : c * a = c * b)
    by exact (f_equal (λ x, match x with Fin q => q | _ => 0 end) H).
  replace a with (c * a / c) by (field; apply c_ne_0).
  rewrite Hab. field. apply c_ne_0.
Qed.

Lemma np_sum_scale (v : list npf) :
  np_sum (npf_scale c <$> v) = npf_scale c (np_sum v).
Proof.
  unfold np_sum.
  assert (Fin 0 = npf_scale c (Fin 0)) as Hz by (simpl; f_equal; ring).
  rewrite Hz at 1. generalize (Fin 0).
  induction v as [|x v IH]; intros acc; simpl; [done|].
  by rewrite npf_add_scale, IH.
Qed.

Lemma np_nansum_scale (v : list npf) :
  np_nansum (npf_scale c <$> v) = npf_scale c (np_nansum v).
Proof.
  unfold np_nansum. rewrite <-np_sum_scale. f_equal.
  induction v as [|x v IH]; [done|]. rewrite fmap_cons, !filter_cons.
  destruct (decide (x ≠ NaN)) as [Hx|Hx].
  - rewrite decide_True by (by rewrite npf_scale_NaN). by rewrite fmap_cons, IH.
  - rewrite decide_False by (by rewrite npf_scale_NaN). done.
Qed.
End scaling.

Lemma fmap_zip_with_out {A B C D} (g : C → D) (f : A → B → C) l k :
  g <$> zip_with f l k = zip_with (λ x y, g (f x y)) l k.
Proof. revert k. induction l as [|x l IH]; intros [|y k]; f_equal/=; auto. Qed.

Lemma sum_Qc_scale (c : Qc) (l : list Qc) :
  sum_Qc (Qcmult c <$> l) = c * sum_Qc l.
Proof.
  induction l as [|x l IH]; [unfold sum_Qc; simpl; ring|].
  rewrite fmap_cons, !sum_Qc_cons, IH. ring.
Qed.

Section scaling_vectors.
Variable c : Qc.
Hypothesis c_pos : 0 < c.

Lemma ncols_smul (m : list (list Qc)) : ncols (smul c m) = ncols m.
Proof. destruct m; simpl; [done|]. apply length_map. Qed.

Lemma col_sums_smul (m : list (list Qc)) :
  col_sums (smul c m) = Qcmult c <$> col_sums m.
Proof.
  unfold col_sums. rewrite ncols_smul.
  assert (replicate (ncols m) (0 : Qc) = Qcmult c <$> replicate (ncols m) 0)
    as Hz by (rewrite fmap_replicate; f_equal; ring).
  rewrite Hz at 1. clear Hz. generalize (replicate (ncols m) (0 : Qc)).
  induction m as [|row m IH]; intros acc; simpl; [done|].
  rewrite <-IH. f_equal.
  rewrite zip_with_fmap_l, zip_with_fmap_r, fmap_zip_with_out.
  apply zip_with_ext; [|done..]. intros x y. ring.
Qed.

Lemma overall_sum_smul (m : list (list Qc)) :
  overall_sum (smul c m) = c * overall_sum m.
Proof.
  unfold overall_sum. rewrite <-sum_Qc_scale. f_equal.
  induction m as [|row m IH]; simpl; [done|]. by rewrite fmap_app, IH.
Qed.

Lemma nonzero_count_smul (m : list (list Qc)) :
  nonzero_count (smul c m) = nonzero_count m.
Proof.
  unfold nonzero_count. rewrite ncols_smul.
  generalize (replicate (ncols m) 0%nat).
  induction m as [|row m IH]; intros acc; simpl; [done|].
  rewrite IH. f_equal. rewrite zip_with_fmap_r.
  apply zip_with_ext; [|done..]. intros k x.
  destruct (decide (x = 0)) as [->|Hx].
  - by rewrite decide_True by ring.
  - by rewrite decide_False by (by rewrite (scale_eq_0 c c_pos)).
Qed.

Lemma norm_vector_smul (m : list (list Qc)) :
  norm_vector (smul c m) = norm_vector m.
Proof.
  unfold norm_vector. rewrite col_sums_smul, overall_sum_smul.
  rewrite <-list_fmap_compose. apply list_fmap_ext. intros _ a _. simpl.
  by apply npf_div_scale_both.
Qed.

Lemma norm_weight_smul (m : list (list Qc)) (row : list Z) :
  norm_weight (smul c m) row = norm_weight m row.
Proof. unfold norm_weight. by rewrite norm_vector_smul. Qed.

(** Scaled ratings give the scaled score. *)
Lemma final_rec_smul (m : list (list Qc)) (row : list Z) :
  final_rec (smul c m) row = npf_scale c (final_rec m row).
Proof.
  unfold final_rec. rewrite norm_weight_smul, col_sums_smul, nonzero_count_smul.
  rewrite <-(np_nansum_scale c). f_equal.
  rewrite zip_with_fmap_l, !fmap_zip_with_out.
  generalize (map (λ x, npf_div x (np_sum (norm_weight m row)))
                (norm_weight m row)).
  generalize (nonzero_count m) row. generalize (col_sums m).
  induction l as [|a l IH]; intros [|k ks] [|f fs] [|w ws];
    cbn [zip_with]; try reflexivity.
  f_equal; [|apply IH].
  assert (npf_div (Fin (c * a)) (Fin (Qc_of_nat k))
          = npf_scale c (npf_div (Fin a) (Fin (Qc_of_nat k)))) as ->
    by apply (npf_div_scale_l c c_pos).
  by rewrite !(npf_mul_scale_l c c_pos).
Qed.
End scaling_vectors.

(** Sorting commutes with a map that keeps the order. *)
Lemma sort_fmap {A} (R : relation A) `{!RelDecision R, !Total R,
    !Transitive R, !AntiSymm (=) R} (f : A → A) (l : list A) :
  (∀ x y, R x y → R (f x) (f y)) →
  merge_sort R (f <$> l) = f <$> merge_sort R l.
Proof.
  intros Hf. apply (Sorted_unique R).
  - apply (Sorted_merge_sort R).
  - eapply Sorted_fmap; [exact Hf|]. apply (Sorted_merge_sort R).
  - rewrite merge_sort_Permutation. apply fmap_Permutation.
    by rewrite merge_sort_Permutation.
Qed.

Lemma cap_fmap {A B} (f : A → B) (n : nat) (l : list A) :
  cap n (f <$> l) = f <$> cap n l.
Proof. unfold cap. rewrite length_fmap. case_decide; [by rewrite fmap_take|done]. Qed.

Section scaling_recs.
Variable c : Qc.
Hypothesis c_pos : 0 < c.

Lemma rec_scale_ge (a b : npf * string) :
  rec_ge a b → rec_ge (rec_scale c a) (rec_scale c b).
Proof.
  unfold rec_ge, rec_scale. simpl. intros [Hlt|[-> Hle]].
  - left. by apply (npf_scale_lt c c_pos).
  - by right.
Qed.

Lemma sorted_desc_scale (recs : list (npf * string)) :
  sorted_desc (rec_scale c <$> recs) = rec_scale c <$> sorted_desc recs.
Proof. unfold sorted_desc. apply (sort_fmap rec_ge), rec_scale_ge. Qed.

(** One pass of the loop with scaled ratings gives the scaled list. *)
Lemma fe_item_scale (features : Features) (movies : Catalog)
    (m : list (list Qc)) (n : nat) (id : Z) (recs : list (npf * string)) :
  fe_item features movies (smul c m) n id (rec_scale c <$> recs)
  = fmap (M := list) (rec_scale c) <$> fe_item features movies m n id recs.
Proof.
  unfold fe_item. destruct (get features id) as [row|e]; [|done]. simpl.
  rewrite (norm_weight_smul c c_pos). case_decide; [done|].
  destruct (key movies (id + 1)%Z) as [t|e]; [|done]. simpl.
  rewrite (final_rec_smul c c_pos).
  assert ((rec_scale c <$> recs) ++ [(npf_scale c (final_rec m row), t)]
          = rec_scale c <$> (recs ++ [(final_rec m row, t)])) as ->
    by (by rewrite fmap_app).
  by rewrite sorted_desc_scale, cap_fmap.
Qed.

Lemma fe_loop_scale (features : Features) (movies : Catalog)
    (m : list (list Qc)) (n : nat) (ids : list Z) (recs : list (npf * string)) :
  for_each (fe_item features movies (smul c m) n) ids (rec_scale c <$> recs)
  = fmap (M := list) (rec_scale c) <$> for_each (fe_item features movies m n) ids recs.
Proof.
  revert recs. induction ids as [|id ids IH]; intros recs; [done|].
  rewrite !for_each_cons, fe_item_scale.
  destruct (fe_item features movies m n id recs) as [recs'|e]; [|done].
  apply IH.
Qed.
End scaling_recs.

(** ** The encoding of scaled ratings *)

Lemma both_impl {A B} (P Q : A → B → Prop) (x : result A) (y : result B) :
  (∀ a b, P a b → Q a b) → both P x y → both Q x y.
Proof. destruct x, y; simpl; auto. Qed.

Lemma py_index_nat (n j : nat) :
  (j < n)%nat → py_index n (Z.of_nat j) = Ok j.
Proof.
  intros Hj. unfold py_index. rewrite decide_True by lia. f_equal. lia.
Qed.

Section scaling_encode.
Variable c : Qc.

Lemma length_scale_rows (D : gset nat) (m : list (list Qc)) :
  length (scale_rows c D m) = length m.
Proof. apply length_imap. Qed.

Lemma lookup_scale_rows (D : gset nat) (m : list (list Qc)) (j : nat) :
  scale_rows c D m !! j
  = (λ row, if decide (j ∈ D) then Qcmult c <$> row else row) <$> m !! j.
Proof. apply list_lookup_imap. Qed.

Lemma scale_rows_empty (m : list (list Qc)) : scale_rows c ∅ m = m.
Proof.
  apply list_eq; intros j. rewrite lookup_scale_rows.
  destruct (m !! j); simpl; [|done]. by rewrite decide_False by set_solver.
Qed.

Lemma scale_rows_all (D : gset nat) (m : list (list Qc)) :
  (∀ j, (j < length m)%nat → j ∈ D) → scale_rows c D m = smul c m.
Proof.
  intros HD. apply list_eq; intros j. rewrite lookup_scale_rows.
  unfold smul. rewrite list_lookup_fmap.
  destruct (m !! j) eqn:E; simpl; [|done].
  rewrite decide_True; [done|]. apply HD. by eapply lookup_lt_Some.
Qed.

(** Changing row [i] of both matrices, in a way that leaves the new row
    of the one [c] times the new row of the other. *)
Lemma scale_rows_alter (g g' : list Qc → list Qc) (D : gset nat) (i : nat)
    (m : list (list Qc)) :
  (∀ row, g' (if decide (i ∈ D) then Qcmult c <$> row else row)
          = Qcmult c <$> g row) →
  alter g' i (scale_rows c D m) = scale_rows c ({[i]} ∪ D) (alter g i m).
Proof.
  intros Hg. apply list_eq; intros j. rewrite lookup_scale_rows.
  destruct (decide (i = j)) as [<-|Hne].
  - rewrite !list_lookup_alter_eq, lookup_scale_rows.
    destruct (m !! i); simpl; [|done].
    rewrite (decide_True (P := i ∈ {[i]} ∪ D)) by set_solver.
    f_equal. apply Hg.
  - rewrite !list_lookup_alter_ne by done. rewrite lookup_scale_rows.
    destruct (m !! j); simpl; [|done]. f_equal.
    destruct (decide (j ∈ D)).
    + by rewrite decide_True by set_solver.
    + by rewrite decide_False by set_solver.
Qed.

(** The loop that sets rows to 0. *)
Lemma fe_zero_loop_scale (ids : list Z) (D : gset nat) (m : list (list Qc)) :
  both (λ m1 m1', ∃ D', m1' = scale_rows c D' m1 ∧ length m1 = length m ∧
          D ⊆ D' ∧
          ∀ id, id ∈ ids → (0 ≤ id < Z.of_nat (length m))%Z →
                Z.to_nat id ∈ D')
    (for_each (λ id m, scale_row m id 0) ids m)
    (for_each (λ id m, scale_row m id 0) ids (scale_rows c D m)).
Proof.
  revert D m. induction ids as [|id ids IH]; intros D m.
  { simpl. exists D. split_and!; [done..|]. by intros id ?%elem_of_nil. }
  assert (∀ m0, for_each (λ id m, scale_row m id 0) (id :: ids) m0
            = py_index (length m0) id ≫= λ i,
              for_each (λ id m, scale_row m id 0) ids
                (alter (map (λ x, x * 0)) i m0)) as Hstep.
  { intros m0. simpl. unfold scale_row.
    by destruct (py_index (length m0) id). }
  rewrite !Hstep, length_scale_rows. clear Hstep.
  destruct (py_index (length m) id) as [i|e] eqn:Hi; [|done].
  cbn [mbind result_bind].
  rewrite (scale_rows_alter (map (λ x, x * 0))).
  2:{ intros row. case_decide; rewrite <-?list_fmap_compose;
        apply list_fmap_ext; intros; simpl; ring. }
  eapply both_impl; [|apply IH].
  intros m1 m1' (D' & -> & Hlen & HD & Hids). exists D'.
  rewrite length_alter in Hlen, Hids. split_and!; [done..|set_solver|].
  intros id' [->|Hin]%elem_of_cons Hr; [|by apply Hids].
  apply HD. unfold py_index in Hi. rewrite decide_True in Hi by done.
  injection Hi as <-. set_solver.
Qed.
End scaling_encode.

(** The loop over the rated titles, when no row is multiplied twice. *)
Lemma fe_rate_loop_scale (c : Qc) (movie_title_to_id : TitleIndex)
    (entries : list (string * Qc)) (T : gset nat) (m : list (list Qc))
    (rated : gset Z) :
  NoDup (omap (row_of (length m) movie_title_to_id) entries.*1) →
  (∀ i, i ∈ omap (row_of (length m) movie_title_to_id) entries.*1 → i ∉ T) →
  (∀ j, Z.of_nat j ∈ rated → (j < length m)%nat → j ∈ T) →
  both (λ st st', ∃ T', st' = (scale_rows c T' st.1, st.2) ∧
          length st.1 = length m ∧
          ∀ j, Z.of_nat j ∈ st.2 → (j < length m)%nat → j ∈ T')
    (for_each (fe_rate movie_title_to_id) entries (m, rated))
    (for_each (fe_rate movie_title_to_id) (prod_map id (Qcmult c) <$> entries)
       (scale_rows c T m, rated)).
Proof.
  revert T m rated.
  induction entries as [|[t r] entries IH]; intros T m rated Hnd Hfresh Hrated.
  { simpl. by exists T. }
  assert (∀ r0 m0, fe_rate movie_title_to_id (t, r0) (m0, rated)
            = match movie_title_to_id !! t with
              | Some idz =>
                  py_index (length m0) (idz - 1) ≫= λ i,
                  Ok (alter (map (λ x, x * r0)) i m0, {[(idz - 1)%Z]} ∪ rated)
              | None => Raise KeyError
              end) as Hstep.
  { intros r0 m0. unfold fe_rate, key, scale_row. simpl.
    destruct (movie_title_to_id !! t); [|done]. simpl.
    by destruct (py_index _ _). }
  rewrite fmap_cons, !for_each_cons.
  change (prod_map id (Qcmult c) (t, r)) with (t, c * r).
  rewrite !Hstep, length_scale_rows. clear Hstep.
  rewrite fmap_cons in Hnd, Hfresh. cbn [fst omap list_omap] in Hnd, Hfresh.
  unfold row_of at 1 in Hnd. unfold row_of at 1 in Hfresh.
  destruct (movie_title_to_id !! t) as [idz|]; [|done].
  destruct (py_index (length m) (idz - 1)) as [i|e] eqn:Hi; [|done].
  cbn [mbind result_bind].
  apply NoDup_cons in Hnd as [Hi_new Hnd].
  rewrite (scale_rows_alter c (map (λ x, x * r))).
  2:{ intros row. rewrite decide_False by (apply Hfresh; left).
      rewrite <-list_fmap_compose.
      apply list_fmap_ext; intros; simpl; ring. }
  pose proof (IH ({[i]} ∪ T) (alter (map (λ x, x * r)) i m)
                ({[(idz - 1)%Z]} ∪ rated)) as IH'.
  rewrite length_alter in IH'.
  eapply both_impl; [|apply IH'].
  - intros st st' (T' & -> & Hlen & HT'). by exists T'.
  - done.
  - intros j Hj [->%elem_of_singleton|HjT]%elem_of_union; [done|].
    revert HjT. apply Hfresh. by right.
  - intros j [Hj%elem_of_singleton|Hj]%elem_of_union Hlt.
    + rewrite <-Hj, py_index_nat in Hi by done. injection Hi as <-. set_solver.
    + specialize (Hrated j Hj Hlt). set_solver.
Qed.

(** The encoding of the scaled ratings is [c] times the encoding, with
    the same unrated ids. *)
Lemma fe_encode_scale (c : Qc) (set_iter : gset Z → list Z)
    (prefs : RatingMatrix) (features : Features)
    (movie_title_to_id : TitleIndex) (user : string) :
  (∀ s x, x ∈ s → x ∈ set_iter s) →
  NoDup (rated_rows prefs features movie_title_to_id user) →
  both (λ e e', e' = {| feature_preference := smul c (feature_preference e);
                        unrated_ids := unrated_ids e |})
    (fe_encode set_iter prefs features movie_title_to_id user)
    (fe_encode set_iter (scale_ratings c user prefs) features
       movie_title_to_id user).
Proof.
  intros Hiter Hnd. unfold fe_encode, key, scale_ratings, rated_rows in *.
  rewrite lookup_alter_eq. destruct (prefs !! user) as [ur|]; [|done].
  simpl in Hnd. cbn [fmap option_fmap option_map mbind result_bind].
  rewrite map_to_list_fmap. rewrite <-(length_as_float features) in Hnd.
  assert (Hloop := fe_rate_loop_scale c movie_title_to_id (map_to_list ur) ∅
                     (as_float features) ∅ Hnd).
  rewrite scale_rows_empty in Hloop.
  assert (Hloop' := Hloop ltac:(set_solver) ltac:(set_solver)). clear Hloop.
  destruct (for_each (fe_rate movie_title_to_id) (map_to_list ur)
              (as_float features, ∅)) as [[m rated]|e],
    (for_each (fe_rate movie_title_to_id)
       (prod_map id (Qcmult c) <$> map_to_list ur) (as_float features, ∅))
    as [[m' rated']|e']; simpl in Hloop'; try done.
  destruct Hloop' as (T' & [= -> ->] & Hlen & HT').
  cbn [mbind result_bind]. rewrite length_as_float in Hlen, HT'.
  pose proof (fe_zero_loop_scale c (set_iter (id_set (length features) ∖ rated))
                T' m) as Hzero.
  destruct (for_each (λ id m, scale_row m id 0)
              (set_iter (id_set (length features) ∖ rated)) m) as [m1|e],
    (for_each (λ id m, scale_row m id 0)
       (set_iter (id_set (length features) ∖ rated)) (scale_rows c T' m))
    as [m1'|e']; simpl in Hzero; try done.
  destruct Hzero as (D' & -> & Hlen1 & HD & Hids). simpl. f_equal.
  apply scale_rows_all. intros j Hj. rewrite Hlen1, Hlen in Hj.
  destruct (decide (Z.of_nat j ∈ rated)) as [Hr|Hr].
  { apply HD, HT'; done. }
  rewrite <-(Nat2Z.id j). apply Hids; [|lia].
  apply Hiter, elem_of_difference. split; [|done].
  apply elem_of_id_set. lia.
Qed.

(** C9.  Multiplying every rating of [user] by a constant [c > 0] multiplies
    every score of [get_FE_recommendations] by [c] and leaves the titles in
    the same order (both runs raise the same exception when one raises).
    The loop over a set has to visit every element of it, and no row of
    the feature matrix may belong to two rated titles: such a row would be
    multiplied by [c] twice.  Arithmetic is exact. *)
Theorem fe_ranking_scale_invariant (set_iter : gset Z → list Z)
    (prefs : RatingMatrix) (features : Features)
    (movie_title_to_id : TitleIndex) (movies : Catalog) (user : string)
    (n : nat) (c : Qc) :
  0 < c →
  (∀ s x, x ∈ s → x ∈ set_iter s) →
  NoDup (rated_rows prefs features movie_title_to_id user) →
  get_FE_recommendations set_iter (scale_ratings c user prefs) features
    movie_title_to_id movies user n
  = fmap (M := list) (rec_scale c) <$>
      get_FE_recommendations set_iter prefs features movie_title_to_id movies
        user n ∧
  fmap (M := list) snd <$>
    get_FE_recommendations set_iter (scale_ratings c user prefs) features
      movie_title_to_id movies user n
  = fmap (M := list) snd <$>
      get_FE_recommendations set_iter prefs features movie_title_to_id movies
        user n.
Proof.
  intros c_pos Hiter Hnd.
  assert (get_FE_recommendations set_iter (scale_ratings c user prefs) features
            movie_title_to_id movies user n
          = fmap (M := list) (rec_scale c) <$>
              get_FE_recommendations set_iter prefs features movie_title_to_id
                movies user n) as Hscaled.
  { unfold get_FE_recommendations.
    pose proof (fe_encode_scale c set_iter prefs features movie_title_to_id
                  user Hiter Hnd) as He.
    destruct (fe_encode set_iter prefs features movie_title_to_id user)
      as [e|x],
      (fe_encode set_iter (scale_ratings c user prefs) features
         movie_title_to_id user) as [e'|x']; simpl in He; try done;
      [|by subst].
    subst e'. cbn [mbind result_bind feature_preference unrated_ids].
    apply (fe_loop_scale c c_pos features movies (feature_preference e) n
             (unrated_ids e) []). }
  split; [done|]. rewrite Hscaled.
  destruct (get_FE_recommendations set_iter prefs features movie_title_to_id
              movies user n) as [recs|x]; simpl; [|done].
  f_equal. rewrite <-list_fmap_compose. by apply list_fmap_ext.
Qed.

Lemma fe_ranking_scale_invariant_witness :
  (0 < qc 2 1 ∧
   (∀ s x, x ∈ s → x ∈ ascending s) ∧
   NoDup (rated_rows prefs5 features5 movies5_ids "u")) ∧
  get_FE_recommendations ascending (scale_ratings (qc 2 1) "u" prefs5)
    features5 movies5_ids movies5 "u" 15
  = fmap (M := list) (rec_scale (qc 2 1)) <$>
      get_FE_recommendations ascending prefs5 features5 movies5_ids movies5
        "u" 15 ∧
  fmap (M := list) snd <$>
    get_FE_recommendations ascending (scale_ratings (qc 2 1) "u" prefs5)
      features5 movies5_ids movies5 "u" 15
  = fmap (M := list) snd <$>
      get_FE_recommendations ascending prefs5 features5 movies5_ids movies5
        "u" 15.
Proof.
  assert (H1 : 0 < qc 2 1) by by_compute.
  assert (H2 : ∀ s x, x ∈ s → x ∈ ascending s)
    by (intros s x; apply ascending_elem_of).
  assert (H3 : NoDup (rated_rows prefs5 features5 movies5_ids "u"))
    by by_compute.
  split; [done|].
  exact (fe_ranking_scale_invariant ascending prefs5 features5 movies5_ids
           movies5 "u" 15 (qc 2 1) H1 H2 H3).
Defined.

(** The two runs of the example: the scores double, the titles stay. *)
Lemma fe_scaled_example :
  get_FE_recommendations ascending prefs5 features5 movies5_ids movies5 "u" 15
  = Ok [(Fin (qc 4 1), "d"); (Fin (qc 10 3), "c"); (Fin (qc 2 1), "e")] ∧
  get_FE_recommendations ascending (scale_ratings (qc 2 1) "u" prefs5)
    features5 movies5_ids movies5 "u" 15
  = Ok [(Fin (qc 8 1), "d"); (Fin (qc 20 3), "c"); (Fin (qc 4 1), "e")].
Proof. split; by_compute. Qed.

Lemma NoDup_omap {A B} (f : A → option B) (l : list A) :
  (∀ x y b, x ∈ l → y ∈ l → f x = Some b → f y = Some b → x = y) →
  NoDup l → NoDup (omap f l).
Proof.
  intros Hinj. induction 1 as [|x l Hx Hnd IH]; csimpl; [constructor|].
  assert (NoDup (omap f l)) as IH'.
  { apply IH. intros y z b Hy Hz. apply Hinj; by right. }
  destruct (f x) as [b|] eqn:Hfx; [|done].
  constructor; [|done].
  intros (y & Hy & Hfy)%list_elem_of_omap.
  apply Hx. rewrite (Hinj x y b); [done|by left|by right|done..].
Qed.

(** A title index that is one-to-one, with ids from 1 to the number of
    rows, gives every rated title a row of its own. *)
Lemma rated_rows_NoDup (prefs : RatingMatrix) (features : Features)
    (movie_title_to_id : TitleIndex) (user : string) :
  (∀ t1 t2 idz, movie_title_to_id !! t1 = Some idz →
                movie_title_to_id !! t2 = Some idz → t1 = t2) →
  (∀ t idz, movie_title_to_id !! t = Some idz →
            (1 ≤ idz ≤ Z.of_nat (length features))%Z) →
  NoDup (rated_rows prefs features movie_title_to_id user).
Proof.
  intros Hinj Hrange. unfold rated_rows.
  apply NoDup_omap; [|apply NoDup_fst_map_to_list].
  intros t1 t2 i _ _. unfold row_of.
  destruct (movie_title_to_id !! t1) as [id1|] eqn:H1; [|done].
  destruct (movie_title_to_id !! t2) as [id2|] eqn:H2; [|done].
  pose proof (Hrange _ _ H1). pose proof (Hrange _ _ H2).
  unfold py_index. rewrite !decide_True by lia.
  intros [= <-] [= Heq]. apply (Hinj t1 t2 id1); [done|].
  rewrite H2. f_equal. lia.
Qed.

(** With two rated titles on one row the order can change: the row is
    multiplied by [c] twice. *)
Lemma fe_ranking_shared_row :
  let features := [[1; 0]; [0; 1]; [1; 0]; [0; 1]]%Z in
  let ids : TitleIndex := {[ "a" := 1%Z; "a2" := 1%Z; "b" := 2%Z ]} in
  let movies : Catalog := {[ 3%Z := "c"; 4%Z := "d" ]} in
  let prefs : RatingMatrix :=
    {[ "u" := {[ "a" := qc 1 1; "a2" := qc 1 1; "b" := qc 2 1 ]} ]} in
  ¬ NoDup (rated_rows prefs features ids "u") ∧
  fmap (M := list) snd <$>
    get_FE_recommendations ascending prefs features ids movies "u" 15
  = Ok ["d"; "c"] ∧
  fmap (M := list) snd <$>
    get_FE_recommendations ascending (scale_ratings (qc 4 1) "u" prefs)
      features ids movies "u" 15
  = Ok ["c"; "d"].
Proof. split_and!; by_compute. Qed.

(** ** Arithmetic on rationals in lowest terms *)

Lemma Qc_eq_Q (x y : Qc) : x = y ↔ (this x == this y)%Q.
Proof. split; [by intros ->|apply Qc_is_canon]. Qed.

(** Statements on [Qc] as statements on [Q], for [lra] and [nra]. *)
Ltac Qc_unfold :=
  rewrite ?Qc_eq_Q in *;
  unfold Qcle, Qclt, Qcdiv, Qcminus, Qcplus, Qcmult, Qcopp, Qc_of_nat,
    Qc_of_Z, Q2Qc in *;
  cbn [this] in *; rewrite ?Qred_correct in *.

(** * Further properties *)

(** ** Transposing a rating matrix *)

Lemma rating_of_flip person (res : RatingMatrix) (entry : string * Qc) i q :
  rating_of (flip_rating person res entry) i q =
  if decide (i = entry.1 ∧ q = person) then Some entry.2 else rating_of res i q.
Proof.
  unfold rating_of, flip_rating. destruct entry as [it r]; simpl.
  destruct (decide (i = it)) as [->|Hi].
  - rewrite lookup_insert_eq. simpl.
    destruct (decide (q = person)) as [->|Hq].
    + rewrite decide_True by done. by rewrite lookup_insert_eq.
    + rewrite decide_False by naive_solver. rewrite lookup_insert_ne by done.
      destruct (res !! it); simpl; [done|]. by rewrite lookup_empty.
  - rewrite decide_False by naive_solver. by rewrite lookup_insert_ne.
Qed.

Lemma rating_of_flip_list person (l : list (string * Qc)) (res : RatingMatrix) i q :
  NoDup l.*1 →
  rating_of (foldl (flip_rating person) res l) i q =
  if decide (q = person) then
    match (list_to_map l : gmap string Qc) !! i with
    | Some r => Some r
    | None => rating_of res i q
    end
  else rating_of res i q.
Proof.
  revert res. induction l as [|[it r] l IH]; intros res Hnd.
  { simpl. by case_decide. }
  rewrite fmap_cons in Hnd. apply NoDup_cons in Hnd as [Hit Hnd].
  simpl. rewrite (IH _ Hnd), rating_of_flip. simpl.
  destruct (decide (q = person)) as [->|Hq]; [|by rewrite decide_False by naive_solver].
  destruct (decide (i = it)) as [->|Hi].
  - rewrite lookup_insert_eq, decide_True by done.
    by rewrite (not_elem_of_list_to_map_1 _ _ Hit).
  - rewrite lookup_insert_ne by done. by rewrite decide_False by naive_solver.
Qed.

Lemma rating_of_flip_row person (ratings : gmap string Qc) (res : RatingMatrix) i q :
  rating_of (foldl (flip_rating person) res (map_to_list ratings)) i q =
  if decide (q = person) then
    match ratings !! i with Some r => Some r | None => rating_of res i q end
  else rating_of res i q.
Proof.
  rewrite rating_of_flip_list by apply NoDup_fst_map_to_list.
  by rewrite list_to_map_to_list.
Qed.

Lemma rating_of_flip_rows (L : list (string * gmap string Qc)) (res : RatingMatrix) i q :
  NoDup L.*1 →
  rating_of (foldl (λ result '(person, ratings),
                      foldl (flip_rating person) result (map_to_list ratings))
               res L) i q =
  match (list_to_map L : RatingMatrix) !! q ≫= λ rs, rs !! i with
  | Some r => Some r
  | None => rating_of res i q
  end.
Proof.
  revert res. induction L as [|[p rs] L IH]; intros res Hnd; [done|].
  rewrite fmap_cons in Hnd. apply NoDup_cons in Hnd as [Hp Hnd].
  simpl. rewrite (IH _ Hnd), rating_of_flip_row.
  destruct (decide (q = p)) as [->|Hq].
  - rewrite lookup_insert_eq, (not_elem_of_list_to_map_1 _ _ Hp). simpl.
    by destruct (rs !! i).
  - by rewrite lookup_insert_ne.
Qed.

Lemma rating_of_transformPrefs (prefs : RatingMatrix) (item person : string) :
  rating_of (transformPrefs prefs) item person = rating_of prefs person item.
Proof.
  unfold transformPrefs.
  rewrite rating_of_flip_rows by apply NoDup_fst_map_to_list.
  rewrite list_to_map_to_list. unfold rating_of. rewrite lookup_empty.
  simpl. by destruct (prefs !! person ≫= _).
Qed.

Lemma no_empty_row_flip person res entry :
  no_empty_row res → no_empty_row (flip_rating person res entry).
Proof.
  intros Hres a row. unfold flip_rating.
  destruct (decide (a = entry.1)) as [->|Ha].
  - rewrite lookup_insert_eq. intros [= <-]. apply insert_non_empty.
  - rewrite lookup_insert_ne by done. apply Hres.
Qed.

Lemma no_empty_row_transformPrefs (prefs : RatingMatrix) :
  no_empty_row (transformPrefs prefs).
Proof.
  unfold transformPrefs.
  assert (no_empty_row (∅ : RatingMatrix)) as H0 by (by intros a row).
  revert H0. generalize (∅ : RatingMatrix).
  induction (map_to_list prefs) as [|[p rs] L IH]; intros res Hres; [done|].
  simpl. apply IH. revert Hres. generalize res.
  induction (map_to_list rs) as [|e l IHl]; intros res' Hres'; [done|].
  simpl. by apply IHl, no_empty_row_flip.
Qed.

Lemma rating_matrix_eq (m1 m2 : RatingMatrix) :
  no_empty_row m1 → no_empty_row m2 →
  (∀ a b, rating_of m1 a b = rating_of m2 a b) → m1 = m2.
Proof.
  intros H1 H2 Heq. apply map_eq. intros a.
  destruct (m1 !! a) as [r1|] eqn:E1, (m2 !! a) as [r2|] eqn:E2.
  - f_equal. apply map_eq. intros b. specialize (Heq a b).
    unfold rating_of in Heq. by rewrite E1, E2 in Heq.
  - destruct (map_choose r1 (H1 _ _ E1)) as (b & v & Hb).
    specialize (Heq a b). unfold rating_of in Heq. rewrite E1, E2 in Heq.
    simpl in Heq. congruence.
  - destruct (map_choose r2 (H2 _ _ E2)) as (b & v & Hb).
    specialize (Heq a b). unfold rating_of in Heq. rewrite E1, E2 in Heq.
    simpl in Heq. congruence.
  - done.
Qed.

Lemma transformPrefs_twice (prefs : RatingMatrix) :
  transformPrefs (transformPrefs prefs)
  = filter (λ kv, kv.2 ≠ ∅) prefs.
Proof.
  apply rating_matrix_eq.
  - apply no_empty_row_transformPrefs.
  - intros a row [_ Hne]%map_lookup_filter_Some. done.
  - intros a b. rewrite !rating_of_transformPrefs. unfold rating_of.
    destruct (prefs !! a) as [row|] eqn:Ea; simpl.
    + destruct (decide (row = ∅)) as [->|Hne].
      * rewrite lookup_empty.
        destruct (filter _ prefs !! a) as [row'|] eqn:Ef; [|done].
        apply map_lookup_filter_Some in Ef as [Ef Hne]. simpl in Hne. congruence.
      * erewrite map_lookup_filter_Some_2; [done..|]. done.
    + by rewrite map_lookup_filter_None_2 by (by left).
Qed.

(** ** The title index *)

Lemma foldl_insert_list_to_map `{Countable K} {V X} (f : X → K) (g : X → V)
    (l : list X) (m0 : gmap K V) :
  foldl (λ m x, <[f x := g x]> m) m0 l
  = list_to_map (reverse ((λ x, (f x, g x)) <$> l)) ∪ m0.
Proof.
  revert m0. induction l as [|x l IH]; intros m0.
  { simpl. by rewrite (left_id_L ∅ (∪)). }
  simpl. rewrite IH, reverse_cons, list_to_map_app. simpl.
  rewrite <-(assoc_L (∪)). f_equal.
  by rewrite insert_union_singleton_l, insert_empty.
Qed.

Lemma movie_to_ID_loop (movies : Catalog) (L : list (Z * string)) (idx : TitleIndex) :
  (∀ id t, (id, t) ∈ L → movies !! id = Some t) →
  for_each (λ id movie_title_to_id,
              title ← key movies id;
              Ok (<[title := id]> movie_title_to_id)) L.*1 idx
  = Ok (foldl (λ m kv, <[kv.2 := kv.1]> m) idx L).
Proof.
  revert idx. induction L as [|[id t] L IH]; intros idx HL; [done|].
  assert (Hkey : key movies id = Ok t) by (unfold key; by rewrite (HL id t) by left).
  rewrite !fmap_cons, for_each_cons. cbn [fst]. rewrite Hkey.
  cbn [mbind result_bind foldl]. apply IH. intros ???. apply HL. by right.
Qed.

Lemma movie_to_ID_swap_ids (movies : Catalog) :
  movie_to_ID movies = Ok (swap_ids movies).
Proof.
  unfold movie_to_ID, swap_ids. rewrite movie_to_ID_loop.
  - rewrite (foldl_insert_list_to_map snd fst), (right_id_L ∅ (∪)).
    do 3 f_equal. apply list_fmap_ext. by intros ? [] ?.
  - intros id t. apply elem_of_map_to_list.
Qed.

Lemma swap_ids_Some (movies : Catalog) (t : string) (id : Z) :
  swap_ids movies !! t = Some id → movies !! id = Some t.
Proof.
  unfold swap_ids. intros Hin%elem_of_list_to_map_2.
  apply elem_of_reverse, list_elem_of_fmap in Hin as ([id' t'] & [= -> ->] & Hin).
  by apply elem_of_map_to_list.
Qed.

Lemma swap_ids_is_Some (movies : Catalog) (id : Z) (t : string) :
  movies !! id = Some t → is_Some (swap_ids movies !! t).
Proof.
  intros Hid. unfold swap_ids.
  apply not_eq_None_Some. intros Hnone%not_elem_of_list_to_map_2.
  apply Hnone. rewrite <-fmap_reverse, <-list_fmap_compose.
  apply list_elem_of_fmap. exists (id, t). split; [done|].
  by apply elem_of_reverse, elem_of_map_to_list.
Qed.

Lemma swap_ids_round_trip (movies : Catalog) (id : Z) (t : string) :
  (∀ i j t, movies !! i = Some t → movies !! j = Some t → i = j) →
  movies !! id = Some t → swap_ids movies !! t = Some id.
Proof.
  intros Hinj Hid. destruct (swap_ids_is_Some movies id t Hid) as [id' Hid'].
  rewrite Hid'. f_equal. apply swap_ids_Some in Hid'. by eapply Hinj.
Qed.

(** ** Nearest neighbours *)

Section top_matches.
Variable similarity : similarity_fn.
Variable prefs : RatingMatrix.
Variable person : string.
Variable w : Qc.

Lemma topMatches_loop (L : list string) (acc scores : list (Qc * string)) :
  for_each (λ other scores,
              score ← similarity prefs person other w;
              if decide (other ≠ person)
              then Ok (scores ++ [(score, other)])
              else Ok scores) L acc = Ok scores →
  ∃ new, scores = acc ++ new ∧
         new.*2 = filter (λ other, other ≠ person) L ∧
         Forall (λ sc, similarity prefs person sc.2 w = Ok sc.1) new.
Proof.
  revert acc. induction L as [|other L IH]; intros acc.
  { intros [= <-]. exists []. by rewrite (right_id_L [] (++)). }
  rewrite for_each_cons.
  destruct (similarity prefs person other w) as [score|e] eqn:Hsim; [|done].
  cbn [mbind result_bind]. rewrite filter_cons.
  destruct (decide (other ≠ person)) as [Hne|Heq]; cbn [mbind result_bind].
  - intros (new & -> & Hnames & Hall)%IH.
    exists ((score, other) :: new). rewrite <-(assoc_L (++)). split; [done|].
    split; [by rewrite fmap_cons, Hnames|]. by constructor.
  - apply IH.
Qed.
End top_matches.

Lemma NoDup_filter_fst_keys (prefs : RatingMatrix) (person : string) :
  NoDup (filter (λ other, other ≠ person) (map_to_list prefs).*1).
Proof. apply NoDup_filter, NoDup_fst_map_to_list. Qed.

(** What [topMatches] returns, when it returns. *)
Lemma topMatches_Ok (similarity : similarity_fn) (prefs : RatingMatrix)
    (person : string) (n : nat) (w thr : Qc) (d : gmap string Qc) :
  topMatches similarity prefs person n w thr = Ok d →
  ∃ scores : list (Qc * string),
    scores.*2 ≡ₚ filter (λ other, other ≠ person) (map_to_list prefs).*1 ∧
    NoDup scores.*2 ∧
    Forall (λ sc, similarity prefs person sc.2 w = Ok sc.1) scores ∧
    Sorted rec_ge scores ∧
    size d = length (take n scores) ∧
    (∀ o s, d !! o = Some s ↔ (s, o) ∈ take n scores).
Proof.
  unfold topMatches.
  destruct (for_each _ _ _) as [scores|e] eqn:Hloop; [|done].
  cbn [mbind result_bind]. intros [= <-].
  apply topMatches_loop in Hloop as (new & -> & Hnames & Hall).
  rewrite app_nil_l.
  assert (Hperm : sorted_desc new ≡ₚ new) by apply merge_sort_Permutation.
  assert (Hnd : NoDup (sorted_desc new).*2).
  { rewrite Hperm, Hnames. apply NoDup_filter_fst_keys. }
  set (l := take n (sorted_desc new)).
  assert (Hnd' : NoDup ((λ sc : Qc * string, (sc.2, sc.1)) <$> l).*1).
  { rewrite <-list_fmap_compose.
    rewrite (list_fmap_ext _ snd l) by done.
    unfold l. rewrite fmap_take. eapply sublist_NoDup; [|apply sublist_take]; done. }
  exists (sorted_desc new). split_and!.
  - by rewrite Hperm, Hnames.
  - done.
  - by rewrite Hperm.
  - apply (Sorted_merge_sort rec_ge).
  - rewrite (foldl_insert_list_to_map snd fst), (right_id_L ∅ (∪)).
    rewrite <-(list_to_map_proper _ (reverse _) Hnd')
      by (symmetry; apply reverse_Permutation).
    by rewrite map_size_list_to_map, length_fmap.
  - intros o s. rewrite (foldl_insert_list_to_map snd fst), (right_id_L ∅ (∪)).
    rewrite <-(list_to_map_proper _ (reverse _) Hnd')
      by (symmetry; apply reverse_Permutation).
    rewrite <-elem_of_list_to_map by done.
    rewrite list_elem_of_fmap. split.
    + intros ([s' o'] & [= -> ->] & Hin). done.
    + intros Hin. by exists (s, o).
Qed.

Lemma keys_delete_filter {V} (m : gmap string V) (k : string) :
  (map_to_list (delete k m)).*1 ≡ₚ filter (λ other, other ≠ k) (map_to_list m).*1.
Proof.
  apply NoDup_Permutation.
  - apply NoDup_fst_map_to_list.
  - apply NoDup_filter, NoDup_fst_map_to_list.
  - intros o. rewrite list_elem_of_filter, !list_elem_of_fmap. split.
    + intros ([o' v] & -> & Hin). apply elem_of_map_to_list in Hin. simpl.
      apply lookup_delete_Some in Hin as [Hne Hin]. split; [done|].
      exists (o', v). split; [done|]. by apply elem_of_map_to_list.
    + intros [Hne ([o' v] & -> & Hin)]. apply elem_of_map_to_list in Hin.
      exists (o', v). split; [done|]. apply elem_of_map_to_list.
      by apply lookup_delete_Some.
Qed.

Lemma elem_of_keys {V} (m : gmap string V) (k : string) :
  k ∈ (map_to_list m).*1 ↔ is_Some (m !! k).
Proof.
  rewrite list_elem_of_fmap. split.
  - intros ([k' v] & -> & Hin%elem_of_map_to_list). by exists v.
  - intros [v Hv]. exists (k, v). split; [done|]. by apply elem_of_map_to_list.
Qed.

Lemma topMatches_props (similarity : similarity_fn) (prefs : RatingMatrix)
    (person : string) (n : nat) (w thr : Qc) (d : gmap string Qc) :
  topMatches similarity prefs person n w thr = Ok d →
  d !! person = None ∧
  (∀ o s, d !! o = Some s →
     is_Some (prefs !! o) ∧ similarity prefs person o w = Ok s) ∧
  size d = (n `min` size (delete person prefs))%nat ∧
  (∀ o s o' s', d !! o = Some s →
     is_Some (prefs !! o') → o' ≠ person → d !! o' = None →
     similarity prefs person o' w = Ok s' → rec_ge (s, o) (s', o')).
Proof.
  intros (scores & Hnames & Hnd & Hall & Hsorted & Hsize & Hd)%topMatches_Ok.
  assert (Hin : ∀ s o, (s, o) ∈ scores →
            o ≠ person ∧ is_Some (prefs !! o) ∧ similarity prefs person o w = Ok s).
  { intros s o Hso.
    assert (o ∈ scores.*2) as Ho by (apply list_elem_of_fmap; by exists (s, o)).
    rewrite Hnames in Ho. apply list_elem_of_filter in Ho as [Hne Ho].
    apply elem_of_keys in Ho. split_and!; [done..|].
    rewrite Forall_forall in Hall. by apply (Hall (s, o)). }
  assert (Htake : ∀ x, x ∈ take n scores → x ∈ scores).
  { intros x Hx. rewrite <-(take_drop n scores). apply elem_of_app. by left. }
  split_and!.
  - destruct (d !! person) as [s|] eqn:E; [|done].
    apply Hd, Htake, Hin in E as [? _]. done.
  - intros o s Hos%Hd%Htake%Hin. naive_solver.
  - rewrite Hsize, length_take. f_equal.
    rewrite <-(length_fmap snd scores), Hnames, <-keys_delete_filter.
    by rewrite length_fmap, length_map_to_list.
  - intros o s o' s' Hos Ho' Hne Hnone Hsim.
    apply Hd in Hos.
    assert (o' ∈ scores.*2) as Hin'.
    { rewrite Hnames. apply list_elem_of_filter. split; [done|].
      by apply elem_of_keys. }
    apply list_elem_of_fmap in Hin' as ([s'' o''] & -> & Hin'). simpl in *.
    destruct (Hin _ _ Hin') as (_ & _ & Hs''). rewrite Hs'' in Hsim.
    injection Hsim as ->.
    rewrite <-(take_drop n scores) in Hin', Hsorted.
    apply elem_of_app in Hin' as [Hin'|Hin'].
    { apply Hd in Hin'. congruence. }
    apply Sorted_StronglySorted in Hsorted; [|apply _].
    by eapply StronglySorted_app_1_elem_of.
Qed.

Lemma topMatches_returns (similarity : similarity_fn) (prefs : RatingMatrix)
    (person : string) (n : nat) (w thr : Qc) :
  (∀ other, is_Some (prefs !! other) →
            ∃ s, similarity prefs person other w = Ok s) →
  ∃ d, topMatches similarity prefs person n w thr = Ok d.
Proof.
  intros Hsim. unfold topMatches.
  assert (∀ L acc, (∀ o, o ∈ L → is_Some (prefs !! o)) →
            ∃ scores, for_each (λ other scores,
                score ← similarity prefs person other w;
                if decide (other ≠ person)
                then Ok (scores ++ [(score, other)])
                else Ok scores) L acc = Ok scores) as Hloop.
  { induction L as [|o L IH]; intros acc HL; [by eexists|].
    rewrite for_each_cons.
    destruct (Hsim o) as [s ->]; [apply HL; by left|].
    cbn [mbind result_bind].
    case_decide; apply IH; intros; apply HL; by right. }
  destruct (Hloop (map_to_list prefs).*1 []) as [scores ->].
  { intros o. by rewrite elem_of_keys. }
  by eexists.
Qed.

Lemma sim_distance_returns (sqrt : Qc → Qc) (prefs : RatingMatrix) p1 p2 k :
  is_Some (prefs !! p1) → is_Some (prefs !! p2) →
  ∃ s, sim_distance sqrt prefs p1 p2 k = Ok s.
Proof.
  intros [r1 H1] [r2 H2]. unfold sim_distance, key. rewrite H1, H2. simpl.
  repeat case_decide; by eexists.
Qed.

Lemma sim_pearson_returns (sqrt : Qc → Qc) (prefs : RatingMatrix) p1 p2 k :
  is_Some (prefs !! p1) → is_Some (prefs !! p2) →
  ∃ s, sim_pearson sqrt prefs p1 p2 k = Ok s.
Proof.
  intros [r1 H1] [r2 H2]. unfold sim_pearson, key. rewrite H1, H2. simpl.
  repeat case_decide; by eexists.
Qed.

Lemma transformPrefs_is_Some (prefs : RatingMatrix) (item : string) :
  is_Some (transformPrefs prefs !! item) ↔
  ∃ u, is_Some (rating_of prefs u item).
Proof.
  split.
  - intros [row Hrow].
    destruct (map_choose row) as (u & r & Hu).
    { by eapply no_empty_row_transformPrefs. }
    exists u. rewrite <-rating_of_transformPrefs. unfold rating_of.
    rewrite Hrow. simpl. by rewrite Hu.
  - intros [u [r Hr]]. rewrite <-rating_of_transformPrefs in Hr.
    unfold rating_of in Hr. by destruct (transformPrefs prefs !! item).
Qed.

Section similar_items.
Variable similarity : similarity_fn.
Variable prefs : RatingMatrix.
Variable w thr : Qc.
Hypothesis similarity_returns :
  ∀ a b, is_Some (prefs !! a) → is_Some (prefs !! b) →
         ∃ s, similarity prefs a b w = Ok s.
Hypothesis similarity_sym :
  ∀ a b, is_Some (prefs !! a) → is_Some (prefs !! b) →
         similarity prefs a b w = similarity prefs b a w.

Lemma similar_items_loop (L : list string) (res0 : ItemSim) :
  (∀ i, i ∈ L → is_Some (prefs !! i)) →
  ∃ res, for_each (λ item result,
                     scores ← topMatches similarity prefs item 100 w thr;
                     Ok (<[item := scores]> result)) L res0 = Ok res ∧
         ∀ i, (i ∈ L → ∃ d, topMatches similarity prefs i 100 w thr = Ok d ∧
                            res !! i = Some d) ∧
              (i ∉ L → res !! i = res0 !! i).
Proof.
  revert res0. induction L as [|i L IH]; intros res0 HL.
  { exists res0. split; [done|]. intros i. split; [by intros ?%elem_of_nil|done]. }
  rewrite for_each_cons.
  destruct (topMatches_returns similarity prefs i 100 w thr) as [d Hd].
  { intros o Ho. apply similarity_returns; [apply HL; by left|done]. }
  rewrite Hd. cbn [mbind result_bind].
  destruct (IH (<[i := d]> res0)) as (res & -> & Hres).
  { intros; apply HL; by right. }
  exists res. split; [done|]. intros j. split.
  - intros [->|Hj]%elem_of_cons; [|by apply Hres].
    destruct (decide (i ∈ L)) as [Hi|Hi].
    + destruct (proj1 (Hres i) Hi) as (d' & Hd' & ?). exists d'. done.
    + exists d. split; [done|]. rewrite (proj2 (Hres i) Hi).
      by rewrite lookup_insert_eq.
  - intros Hj. apply not_elem_of_cons in Hj as [Hne Hj].
    rewrite (proj2 (Hres j) Hj). by rewrite lookup_insert_ne.
Qed.
End similar_items.

Lemma calculateSimilarItems_props (similarity : similarity_fn)
    (prefs : RatingMatrix) (w thr : Qc) :
  (∀ a b, is_Some (transformPrefs prefs !! a) →
          is_Some (transformPrefs prefs !! b) →
          ∃ s, similarity (transformPrefs prefs) a b w = Ok s) →
  (∀ a b, is_Some (transformPrefs prefs !! a) →
          is_Some (transformPrefs prefs !! b) →
          similarity (transformPrefs prefs) a b w
          = similarity (transformPrefs prefs) b a w) →
  ∃ result, calculateSimilarItems similarity prefs w thr = Ok result ∧
    (∀ item, is_Some (result !! item) ↔ ∃ u, is_Some (rating_of prefs u item)) ∧
    (∀ i j v, rating_of result i j = Some v →
       i ≠ j ∧ is_Some (result !! j) ∧
       similarity (transformPrefs prefs) i j w = Ok v) ∧
    (∀ i j v v', rating_of result i j = Some v → rating_of result j i = Some v' →
       v = v') ∧
    ((size (transformPrefs prefs) ≤ 101)%nat →
     ∀ i j, is_Some (result !! i) → is_Some (result !! j) → i ≠ j →
            is_Some (rating_of result i j)).
Proof.
  intros Hret Hsym. unfold calculateSimilarItems.
  destruct (similar_items_loop similarity (transformPrefs prefs) w thr Hret
              (map_to_list (transformPrefs prefs)).*1 ∅)
    as (result & -> & Hres).
  { intros i. by rewrite elem_of_keys. }
  exists result. split; [done|].
  assert (Hdom : ∀ item, is_Some (result !! item) ↔
                         is_Some (transformPrefs prefs !! item)).
  { intros item. rewrite <-(elem_of_keys (transformPrefs prefs)).
    destruct (decide (item ∈ (map_to_list (transformPrefs prefs)).*1)) as [Hi|Hi].
    - destruct (proj1 (Hres item) Hi) as (d & _ & ->). naive_solver.
    - rewrite (proj2 (Hres item) Hi), lookup_empty. split; [by intros []|done]. }
  assert (Hrow : ∀ i d, result !! i = Some d →
                        topMatches similarity (transformPrefs prefs) i 100 w thr = Ok d).
  { intros i d Hi.
    assert (i ∈ (map_to_list (transformPrefs prefs)).*1) as Hin
      by (apply elem_of_keys, Hdom; by eexists).
    destruct (proj1 (Hres i) Hin) as (d' & Hd' & Hi'). congruence. }
  assert (Hentry : ∀ i j v, rating_of result i j = Some v →
            i ≠ j ∧ is_Some (result !! j) ∧
            similarity (transformPrefs prefs) i j w = Ok v).
  { intros i j v Hv. unfold rating_of in Hv.
    destruct (result !! i) as [d|] eqn:Hi; [|done]. simpl in Hv.
    apply Hrow, topMatches_props in Hi as (Hself & Hin & _).
    destruct (Hin _ _ Hv) as [Hj Hs]. split_and!; [|by apply Hdom|done].
    intros ->. congruence. }
  split_and!.
  - intros item. by rewrite Hdom, transformPrefs_is_Some.
  - done.
  - intros i j v v' Hv Hv'.
    destruct (Hentry _ _ _ Hv) as (_ & Hj & Hs).
    destruct (Hentry _ _ _ Hv') as (_ & Hi & Hs').
    rewrite Hsym in Hs by (by apply Hdom). congruence.
  - intros Hsize i j [d Hi] Hj Hne. unfold rating_of. rewrite Hi. simpl.
    pose proof (Hrow _ _ Hi) as Htop.
    apply topMatches_props in Htop as (_ & Hin & Hsz & _).
    assert (size (delete i (transformPrefs prefs)) ≤ 100)%nat as Hle.
    { rewrite map_size_delete_Some by (apply Hdom; by eexists).
      lia. }
    rewrite Nat.min_r in Hsz by done.
    assert (dom d ⊆ dom (delete i (transformPrefs prefs))) as Hsub.
    { intros o [s Ho]%elem_of_dom. apply elem_of_dom.
      destruct (Hin _ _ Ho) as [Hpres Hs].
      assert (o ≠ i).
      { intros ->. apply Hrow, topMatches_props in Hi as (Hself & _). congruence. }
      by rewrite lookup_delete_ne. }
    apply set_subseteq_size_eq in Hsub; [|rewrite !size_dom; lia].
    apply elem_of_dom. rewrite Hsub. apply elem_of_dom.
    rewrite lookup_delete_ne by done. by apply Hdom.
Qed.

(** X1: [transformPrefs] transposes: the transposed matrix has a rating
    at (item, person) exactly when the matrix has it at (person, item), and
    none of its rows is empty. *)
Theorem transformPrefs_transposes (prefs : RatingMatrix) (item person : string) :
  rating_of (transformPrefs prefs) item person = rating_of prefs person item ∧
  no_empty_row (transformPrefs prefs).
Proof.
  split; [apply rating_of_transformPrefs|apply no_empty_row_transformPrefs].
Qed.

(** X2: transposing twice gives the matrix back without the users who have
    rated nothing: all of it when every user has a rating. *)
Theorem transformPrefs_twice_drops_empty (prefs : RatingMatrix) :
  transformPrefs (transformPrefs prefs) = filter (λ kv, kv.2 ≠ ∅) prefs ∧
  (no_empty_row prefs → transformPrefs (transformPrefs prefs) = prefs).
Proof.
  split; [apply transformPrefs_twice|].
  intros Hne. rewrite transformPrefs_twice. apply map_filter_id.
  intros u row Hu. simpl. by eapply Hne.
Qed.

(** X3: [movie_to_ID] raises nothing and builds the index that the dict
    comprehension of [loo_cv_sim] builds.  Every title of the catalog is a
    key, the id under a title is an id of that title, so no two titles
    share an id; when the titles of the catalog are all different the index
    maps each title back to its id. *)
Theorem movie_to_ID_inverts_catalog (movies : Catalog) :
  ∃ idx, movie_to_ID movies = Ok idx ∧ idx = swap_ids movies ∧
    (∀ t id, idx !! t = Some id → movies !! id = Some t) ∧
    (∀ id t, movies !! id = Some t → is_Some (idx !! t)) ∧
    (∀ t1 t2 id, idx !! t1 = Some id → idx !! t2 = Some id → t1 = t2) ∧
    ((∀ i j t, movies !! i = Some t → movies !! j = Some t → i = j) →
     ∀ id t, movies !! id = Some t → idx !! t = Some id).
Proof.
  exists (swap_ids movies). split_and!.
  - apply movie_to_ID_swap_ids.
  - done.
  - apply swap_ids_Some.
  - apply swap_ids_is_Some.
  - intros t1 t2 id H1%swap_ids_Some H2%swap_ids_Some. congruence.
  - intros Hinj id t. by apply swap_ids_round_trip.
Qed.

(** X4: when [topMatches] returns, its dict has no entry for [person]; every
    entry is another user of [prefs] with the similarity to [person] as
    value; there are [n] entries, or as many as there are other users if
    these are fewer; and every entry ranks at least as high, by score and
    then by name, as every other user that was left out.  The threshold is
    not applied. *)
Theorem topMatches_best_n (similarity : similarity_fn) (prefs : RatingMatrix)
    (person : string) (n : nat) (w thr : Qc) (d : gmap string Qc) :
  topMatches similarity prefs person n w thr = Ok d →
  d !! person = None ∧
  (∀ o s, d !! o = Some s →
     is_Some (prefs !! o) ∧ similarity prefs person o w = Ok s) ∧
  size d = (n `min` size (delete person prefs))%nat ∧
  (∀ o s o' s', d !! o = Some s →
     is_Some (prefs !! o') → o' ≠ person → d !! o' = None →
     similarity prefs person o' w = Ok s' → rec_ge (s, o) (s', o')).
Proof. apply topMatches_props. Qed.

Lemma topMatches_best_n_witness :
  topMatches (sim_distance sqrt_on_squares) prefs_pearson "A" 100 0 (qc 1 2)
  = Ok {[ "B" := qc 1 3 ]} ∧
  size ({[ "B" := qc 1 3 ]} : gmap string Qc)
  = (100 `min` size (delete "A" prefs_pearson))%nat.
Proof.
  assert (H : topMatches (sim_distance sqrt_on_squares) prefs_pearson "A" 100
                0 (qc 1 2) = Ok {[ "B" := qc 1 3 ]}) by by_compute.
  split; [exact H|].
  exact (proj1 (proj2 (proj2 (topMatches_best_n _ _ _ _ _ _ _ H)))).
Defined.

(** X5: with [sim_distance] or [sim_pearson], [calculateSimilarItems]
    raises nothing.  Its result has a row for exactly the items that have a
    rating; an entry (i, j) is never on the diagonal and holds the similarity
    of the items i and j in the transposed matrix; two entries (i, j) and
    (j, i) that are both there are equal; and with at most 101 rated items
    every pair of different items has an entry. *)
Theorem calculateSimilarItems_entries (sqrt : Qc → Qc)
    (similarity : similarity_fn) (prefs : RatingMatrix) (w thr : Qc) :
  similarity = sim_distance sqrt ∨ similarity = sim_pearson sqrt →
  ∃ result, calculateSimilarItems similarity prefs w thr = Ok result ∧
    (∀ item, is_Some (result !! item) ↔ ∃ u, is_Some (rating_of prefs u item)) ∧
    (∀ i j v, rating_of result i j = Some v →
       i ≠ j ∧ is_Some (result !! j) ∧
       similarity (transformPrefs prefs) i j w = Ok v) ∧
    (∀ i j v v', rating_of result i j = Some v → rating_of result j i = Some v' →
       v = v') ∧
    ((size (transformPrefs prefs) ≤ 101)%nat →
     ∀ i j, is_Some (result !! i) → is_Some (result !! j) → i ≠ j →
            is_Some (rating_of result i j)).
Proof.
  intros [-> | ->]; apply calculateSimilarItems_props.
  - intros a b. apply sim_distance_returns.
  - intros a b [r1 H1] [r2 H2]. by eapply sim_distance_sym_present.
  - intros a b. apply sim_pearson_returns.
  - intros a b [r1 H1] [r2 H2]. by eapply sim_pearson_sym_present.
Qed.

Lemma calculateSimilarItems_entries_witness :
  ∃ result,
    calculateSimilarItems (sim_distance sqrt_on_squares) prefs_u 0 0
    = Ok result ∧
    rating_of result "A" "B" = Some (qc 1 5) ∧
    rating_of result "B" "A" = Some (qc 1 5).
Proof.
  destruct (calculateSimilarItems_entries sqrt_on_squares
              (sim_distance sqrt_on_squares) prefs_u 0 0 (or_introl eq_refl))
    as (result & Hres & _).
  exists result. split; [exact Hres|].
  assert (Hval : calculateSimilarItems (sim_distance sqrt_on_squares) prefs_u 0 0
                 = Ok {[ "A" := {[ "B" := qc 1 5 ]}; "B" := {[ "A" := qc 1 5 ]} ]})
    by by_compute.
  rewrite Hval in Hres. injection Hres as <-. split; by_compute.
Defined.

(** ** The hybrid scorers above a positive threshold *)

Lemma hybrid_weight_positive_threshold (ii : ItemSim) (weighted : bool)
    (thr : Qc) (m : matrix) (r : Z) (t : string) (j : Z) (tj : string) :
  0 < thr →
  hybrid_weight ii weighted thr m r t j tj
  = c ← cell m r (j - 1);
    Ok (if decide (c < thr) then None else Some c).
Proof.
  intros Hthr. unfold hybrid_weight.
  destruct (cell m r (j - 1)) as [c|e]; [|done]. cbn [mbind result_bind].
  destruct (decide (c < thr)) as [Hlt|Hge]; [done|].
  rewrite decide_False; [done|]. intros ->. done.
Qed.

Lemma hybrid_row_pure_tfidf (ur : gmap string Qc) (m : matrix) (thr : Qc)
    (movies : Catalog) (ii : ItemSim) (weighted : bool) (i : Z) (ti : string) :
  0 < thr → length m = size movies →
  hybrid_row_pure ur m thr movies ii weighted i ti
  = tfidf_row ur m thr movies i.
Proof.
  intros Hthr Hlen. unfold hybrid_row_pure, tfidf_row. rewrite Hlen.
  apply for_each_ext. intros j acc. unfold tfidf_pair.
  destruct (key movies j) as [tj|e]; [|done]. cbn [mbind result_bind].
  destruct (ur !! tj) as [rating|]; [|done].
  case_decide; [done|].
  rewrite hybrid_weight_positive_threshold by done.
  destruct (cell m (i - 1) (j - 1)) as [c|e]; [|done]. cbn [mbind result_bind].
  by case_decide.
Qed.

Lemma hybrid_single_row_pure_tfidf (ur : gmap string Qc) (m : matrix) (thr : Qc)
    (movies : Catalog) (movies2 : TitleIndex) (ii : ItemSim)
    (excluded : string) (weighted : bool) :
  0 < thr → length m = size movies →
  hybrid_single_row_pure ur m thr movies movies2 ii excluded weighted
  = tfidf_single_row ur m thr movies movies2 excluded.
Proof.
  intros Hthr Hlen. unfold hybrid_single_row_pure, tfidf_single_row.
  rewrite Hlen. apply for_each_ext. intros j acc. unfold tfidf_single_pair.
  destruct (key movies j) as [tj|e]; [|done]. cbn [mbind result_bind].
  destruct (ur !! tj) as [rating|]; [|done].
  destruct (key movies2 excluded) as [e|x]; [|done]. cbn [mbind result_bind].
  case_decide; [done|].
  rewrite hybrid_weight_positive_threshold by done.
  destruct (cell m (e - 1) (j - 1)) as [c|x]; [|done]. cbn [mbind result_bind].
  by case_decide.
Qed.

(** X6: with a threshold above 0 a cell that is exactly 0 never passes the
    threshold test, so nothing is filled in from [ii_matrix]: on a matrix
    with one row per catalog entry both hybrid scorers return what the TF-IDF
    scorers return, whatever [ii_matrix] and [weighted] are. *)
Theorem hybrid_is_tfidf_above_zero (prefs : RatingMatrix) (l : loc)
    (user : string) (thr : Qc) (movies : Catalog) (movies2 : TitleIndex)
    (ii : ItemSim) (excluded : string) (weighted : bool) (n : nat)
    (h : store) :
  0 < thr → length (deref l h) = size movies →
  (get_hybrid_recommendations prefs l user thr movies ii weighted n h).1
  = get_TFIDF_recommendations prefs (deref l h) user thr movies n ∧
  (get_hybrid_recommendations_single prefs l user thr movies movies2 ii
     excluded weighted h).1
  = get_TFIDF_recommendations_single prefs (deref l h) user thr movies movies2
      ii excluded.
Proof.
  intros Hthr Hlen. split.
  - rewrite get_hybrid_recommendations_pure. unfold get_TFIDF_recommendations.
    destruct (key prefs user) as [ur|e]; [|done]. cbn [mbind result_bind].
    rewrite Hlen.
    rewrite (for_each_ext _ (tfidf_item ur (deref l h) thr movies)); [done|].
    intros i recs. unfold score_item, tfidf_item.
    destruct (key movies i) as [ti|e]; [|done]. cbn [mbind result_bind].
    case_decide; [done|]. by rewrite hybrid_row_pure_tfidf.
  - rewrite get_hybrid_recommendations_single_pure.
    unfold get_TFIDF_recommendations_single.
    destruct (key prefs user) as [ur|e]; [|done]. cbn [mbind result_bind].
    by rewrite hybrid_single_row_pure_tfidf.
Qed.

Lemma hybrid_is_tfidf_above_zero_witness :
  (0 < qc 1 2 ∧ length (deref 1%positive store4) = size movies4) ∧
  (get_hybrid_recommendations prefs_u 1%positive "u" (qc 1 2) movies4 itemsim4
     true 1 store4).1
  = get_TFIDF_recommendations prefs_u cosim4 "u" (qc 1 2) movies4 1.
Proof.
  assert (H1 : 0 < qc 1 2) by by_compute.
  assert (H2 : length (deref 1%positive store4) = size movies4) by by_compute.
  split; [done|].
  exact (proj1 (hybrid_is_tfidf_above_zero prefs_u 1%positive "u" (qc 1 2)
                  movies4 movies4_ids itemsim4 "C" true 1 store4 H1 H2)).
Defined.

(** ** Predicted ratings lie between the ratings they average *)

Lemma for_each_inv {X S} (P : S → Prop) (body : X → S → result S) xs (s s' : S) :
  (∀ x s s', body x s = Ok s' → P s → P s') →
  for_each body xs s = Ok s' → P s → P s'.
Proof.
  intros Hbody. revert s. induction xs as [|x xs IH]; intros s.
  { by intros [= <-]. }
  intros (s1 & Hx & Hrest)%for_each_cons_Ok Hs. eauto.
Qed.

Lemma averages_0 lo hi : averages lo hi (0, 0).
Proof. unfold averages. simpl. Qc_unfold. lra. Qed.

Lemma averages_add lo hi (acc : Qc * Qc) (r c : Qc) :
  lo ≤ r → r ≤ hi → 0 ≤ c → averages lo hi acc →
  averages lo hi (acc.1 + r * c, acc.2 + c).
Proof.
  destruct acc as [num denom]. unfold averages. simpl.
  intros H1 H2 H3 (H4 & H5 & H6). Qc_unfold. split_and!; nra.
Qed.

Lemma averages_quotient lo hi (num denom : Qc) :
  averages lo hi (num, denom) → 0 < denom →
  lo ≤ num / denom ∧ num / denom ≤ hi.
Proof.
  unfold averages. simpl. intros (H1 & H2 & H3) Hpos.
  assert (Hd : denom ≠ 0) by (Qc_unfold; lra).
  assert (Hs : num / denom * denom = num) by (field; done).
  set (s := num / denom) in *. clearbody s.
  Qc_unfold. split; nra.
Qed.

Section bounds.
Variables (ur : gmap string Qc) (lo hi thr : Qc).
Hypothesis thr_nonneg : 0 ≤ thr.
Hypothesis ratings_within : ∀ t r, ur !! t = Some r → lo ≤ r ∧ r ≤ hi.

Lemma tfidf_row_averages m movies i acc :
  tfidf_row ur m thr movies i = Ok acc → averages lo hi acc.
Proof.
  unfold tfidf_row. intros Hloop.
  eapply (for_each_inv (averages lo hi)); [|exact Hloop|apply averages_0].
  intros j s s'. unfold tfidf_pair.
  destruct (key movies j) as [tj|]; [|done]. cbn [mbind result_bind].
  destruct (ur !! tj) as [r|] eqn:Hr; [|by intros [= <-]].
  case_decide; [by intros [= <-]|].
  destruct (cell _ _ _) as [c|]; [|done]. cbn [mbind result_bind].
  destruct (decide (c < thr)) as [|Hge%Qcnot_lt_le]; [by intros [= <-]|].
  intros [= <-] Hs. destruct (ratings_within _ _ Hr).
  apply averages_add; [done..| |done]. by trans thr.
Qed.

Lemma tfidf_single_row_averages m movies movies2 excluded acc :
  tfidf_single_row ur m thr movies movies2 excluded = Ok acc →
  averages lo hi acc.
Proof.
  unfold tfidf_single_row. intros Hloop.
  eapply (for_each_inv (averages lo hi)); [|exact Hloop|apply averages_0].
  intros j s s'. unfold tfidf_single_pair.
  destruct (key movies j) as [tj|]; [|done]. cbn [mbind result_bind].
  destruct (ur !! tj) as [r|] eqn:Hr; [|by intros [= <-]].
  destruct (key movies2 excluded) as [e|]; [|done]. cbn [mbind result_bind].
  case_decide; [by intros [= <-]|].
  destruct (cell _ _ _) as [c|]; [|done]. cbn [mbind result_bind].
  destruct (decide (c < thr)) as [|Hge%Qcnot_lt_le]; [by intros [= <-]|].
  intros [= <-] Hs. destruct (ratings_within _ _ Hr).
  apply averages_add; [done..| |done]. by trans thr.
Qed.

Lemma hybrid_weight_nonneg ii weighted m r t j tj w :
  hybrid_weight ii weighted thr m r t j tj = Ok (Some w) → 0 ≤ w.
Proof.
  unfold hybrid_weight.
  destruct (cell m r (j - 1)) as [c|]; [|done]. cbn [mbind result_bind].
  destruct (decide (c < thr)) as [|Hge%Qcnot_lt_le]; [done|].
  case_decide.
  - destruct (key ii t) as [row|]; [|done]. cbn [mbind result_bind].
    destruct (row !! tj) as [v|]; [|done].
    destruct (decide (v ≤ 0)) as [|Hv%Qcnot_le_lt]; [done|].
    intros [= <-]. destruct weighted; [|by apply Qclt_le_weak].
    unfold HYBRID_WEIGHTING, qc. Qc_unfold. nra.
  - intros [= <-]. by trans thr.
Qed.

Lemma add_weight_averages acc r w :
  lo ≤ r → r ≤ hi → (∀ w', w = Some w' → 0 ≤ w') →
  averages lo hi acc → averages lo hi (add_weight acc r w).
Proof.
  intros ?? Hw Hacc. destruct w as [w'|]; [|done]. simpl.
  apply averages_add; auto.
Qed.

Lemma hybrid_row_pure_averages m movies ii weighted i ti acc :
  hybrid_row_pure ur m thr movies ii weighted i ti = Ok acc →
  averages lo hi acc.
Proof.
  unfold hybrid_row_pure. intros Hloop.
  eapply (for_each_inv (averages lo hi)); [|exact Hloop|apply averages_0].
  intros j s s'. cbv beta.
  destruct (key movies j) as [tj|]; [|done]. cbn [mbind result_bind].
  destruct (ur !! tj) as [r|] eqn:Hr; [|by intros [= <-]].
  case_decide; [by intros [= <-]|].
  destruct (hybrid_weight _ _ _ _ _ _ _ _) as [w|] eqn:Hw; [|done].
  cbn [mbind result_bind]. intros [= <-] Hs. destruct (ratings_within _ _ Hr).
  apply add_weight_averages; [done..| |done].
  intros w' ->. by eapply hybrid_weight_nonneg.
Qed.

Lemma hybrid_single_row_pure_averages m movies movies2 ii excluded weighted acc :
  hybrid_single_row_pure ur m thr movies movies2 ii excluded weighted = Ok acc →
  averages lo hi acc.
Proof.
  unfold hybrid_single_row_pure. intros Hloop.
  eapply (for_each_inv (averages lo hi)); [|exact Hloop|apply averages_0].
  intros j s s'. cbv beta.
  destruct (key movies j) as [tj|]; [|done]. cbn [mbind result_bind].
  destruct (ur !! tj) as [r|] eqn:Hr; [|by intros [= <-]].
  destruct (key movies2 excluded) as [e|]; [|done]. cbn [mbind result_bind].
  case_decide; [by intros [= <-]|].
  destruct (hybrid_weight _ _ _ _ _ _ _ _) as [w|] eqn:Hw; [|done].
  cbn [mbind result_bind]. intros [= <-] Hs. destruct (ratings_within _ _ Hr).
  apply add_weight_averages; [done..| |done].
  intros w' ->. by eapply hybrid_weight_nonneg.
Qed.
End bounds.

(** X7: with a threshold that is not negative every weight is at least 0,
    so a predicted rating is a weighted average of the user's ratings: if
    these lie between [lo] and [hi], so does every score the four TF-IDF
    and hybrid scorers produce. *)
Theorem score_within_ratings (prefs : RatingMatrix) (l : loc) (h : store)
    (user : string) (thr : Qc) (movies : Catalog) (movies2 : TitleIndex)
    (ii : ItemSim) (excluded : string) (weighted : bool) (n : nat)
    (ur : gmap string Qc) (lo hi : Qc) :
  0 ≤ thr → prefs !! user = Some ur →
  (∀ t r, ur !! t = Some r → lo ≤ r ∧ r ≤ hi) →
  (∀ out s t,
     get_TFIDF_recommendations prefs (deref l h) user thr movies n = Ok out →
     (s, t) ∈ returned out → lo ≤ s ∧ s ≤ hi) ∧
  (∀ out s t,
     (get_hybrid_recommendations prefs l user thr movies ii weighted n h).1
     = Ok out →
     (s, t) ∈ returned out → lo ≤ s ∧ s ≤ hi) ∧
  (∀ s,
     get_TFIDF_recommendations_single prefs (deref l h) user thr movies
       movies2 ii excluded = Ok (Some s, excluded) →
     lo ≤ s ∧ s ≤ hi) ∧
  (∀ s,
     (get_hybrid_recommendations_single prefs l user thr movies movies2 ii
        excluded weighted h).1 = Ok (Some s, excluded) →
     lo ≤ s ∧ s ≤ hi).
Proof.
  intros Hthr Hur Hwithin. split_and!.
  - intros out s t. unfold get_TFIDF_recommendations, key. rewrite Hur.
    cbn [mbind result_bind].
    destruct (for_each _ _ _) as [recs|] eqn:Hloop; [|done].
    intros [= <-] Hin. simpl in Hin.
    apply (score_items_elem_of (λ i _, tfidf_row ur (deref l h) thr movies i)
             ur movies _ [] recs s t Hloop) in Hin
      as [[]%elem_of_nil|(i & _ & _ & _ & num & denom & Hrow & _ & Hd & ->)].
    apply (averages_quotient lo hi); [|done].
    by eapply tfidf_row_averages.
  - intros out s t. rewrite get_hybrid_recommendations_pure. unfold key.
    rewrite Hur. cbn [mbind result_bind].
    destruct (for_each _ _ _) as [recs|] eqn:Hloop; [|done].
    intros [= <-] Hin. simpl in Hin.
    apply (score_items_elem_of _ ur movies _ [] recs s t Hloop) in Hin
      as [[]%elem_of_nil|(i & _ & _ & _ & num & denom & Hrow & _ & Hd & ->)].
    apply (averages_quotient lo hi); [|done].
    by eapply hybrid_row_pure_averages.
  - intros s. unfold get_TFIDF_recommendations_single, key. rewrite Hur.
    cbn [mbind result_bind].
    destruct (tfidf_single_row _ _ _ _ _ _) as [[num denom]|] eqn:Hrow; [|done].
    cbn [mbind result_bind]. case_decide as Hpos; [|done]. intros [= <-].
    apply (averages_quotient lo hi); [|by destruct Hpos].
    by eapply tfidf_single_row_averages.
  - intros s. rewrite get_hybrid_recommendations_single_pure. unfold key.
    rewrite Hur. cbn [mbind result_bind].
    destruct (hybrid_single_row_pure _ _ _ _ _ _ _ _) as [[num denom]|] eqn:Hrow;
      [|done].
    cbn [mbind result_bind]. case_decide as Hpos; [|done]. intros [= <-].
    apply (averages_quotient lo hi); [|by destruct Hpos].
    by eapply hybrid_single_row_pure_averages.
Qed.

Lemma score_within_ratings_witness :
  (0 ≤ 0 ∧
   prefs_u !! "u" = Some ({[ "A" := qc 1 1; "B" := qc 5 1 ]} : gmap string Qc) ∧
   (∀ t r, ({[ "A" := qc 1 1; "B" := qc 5 1 ]} : gmap string Qc) !! t = Some r →
           qc 1 1 ≤ r ∧ r ≤ qc 5 1)) ∧
  (get_hybrid_recommendations prefs_u 1%positive "u" 0 movies4 itemsim4 true 1
     store4).1
  = Ok {| printed := [(qc 5 1, "D")];
          returned := [(qc 5 2, "C"); (qc 5 1, "D")] |} ∧
  qc 1 1 ≤ qc 5 2 ∧ qc 5 2 ≤ qc 5 1.
Proof.
  assert (H1 : (0 : Qc) ≤ 0) by by_compute.
  assert (H2 : prefs_u !! "u"
               = Some ({[ "A" := qc 1 1; "B" := qc 5 1 ]} : gmap string Qc))
    by by_compute.
  assert (H3 : ∀ t r,
            ({[ "A" := qc 1 1; "B" := qc 5 1 ]} : gmap string Qc) !! t = Some r →
            qc 1 1 ≤ r ∧ r ≤ qc 5 1).
  { intros t r [[_ <-]|[_ [_ <-]%lookup_singleton_Some]]%lookup_insert_Some;
      split; by_compute. }
  assert (H4 : (get_hybrid_recommendations prefs_u 1%positive "u" 0 movies4
                  itemsim4 true 1 store4).1
               = Ok {| printed := [(qc 5 1, "D")];
                       returned := [(qc 5 2, "C"); (qc 5 1, "D")] |})
    by by_compute.
  split; [done|]. split; [done|].
  apply (proj1 (proj2 (score_within_ratings prefs_u 1%positive store4 "u" 0
                         movies4 movies4_ids itemsim4 "C" true 1 _ _ _ H1 H2 H3))
           _ (qc 5 2) "C" H4).
  simpl. left.
Defined.

(** ** The single-item scorers and the full-catalog scorers *)

Lemma score_items_row_Ok (row : Z → string → result (Qc * Qc))
    (ur : gmap string Qc) (movies : Catalog) (ids : list Z)
    (recs0 recs : list (Qc * string)) (i : Z) (ti : string) :
  for_each (score_item row ur movies) ids recs0 = Ok recs →
  i ∈ ids → movies !! i = Some ti → ur !! ti = None →
  ∃ num denom, row i ti = Ok (num, denom).
Proof.
  revert recs0. induction ids as [|j ids IH]; intros recs0 Hloop Hi Hti Hun.
  { by apply elem_of_nil in Hi. }
  apply for_each_cons_Ok in Hloop as (recs1 & Hj & Hrest).
  apply elem_of_cons in Hi as [->|Hi]; [|by eapply IH].
  apply score_item_Ok in Hj as (ti' & Hti' & Hcase).
  rewrite Hti in Hti'. injection Hti' as <-.
  destruct Hcase as [[[r Hr] _]|(_ & num & denom & Hrow & _)]; [congruence|].
  eauto.
Qed.

Lemma elem_of_range1_iff (n : nat) (i : Z) :
  i ∈ range1 n ↔ (1 ≤ i ≤ Z.of_nat n)%Z.
Proof. unfold range1. rewrite elem_of_seqZ. lia. Qed.

Lemma tfidf_single_row_eq (ur : gmap string Qc) (m : matrix) (thr : Qc)
    (movies : Catalog) (movies2 : TitleIndex) (excluded : string) (i : Z) :
  movies2 !! excluded = Some i →
  tfidf_single_row ur m thr movies movies2 excluded
  = tfidf_row ur m thr movies i.
Proof.
  intros Hi. unfold tfidf_single_row, tfidf_row. apply for_each_ext.
  intros j acc. unfold tfidf_single_pair, tfidf_pair, key. by rewrite Hi.
Qed.

Lemma hybrid_single_row_pure_eq_row (ur : gmap string Qc) (m : matrix)
    (thr : Qc) (movies : Catalog) (movies2 : TitleIndex) (ii : ItemSim)
    (excluded : string) (weighted : bool) (i : Z) :
  movies2 !! excluded = Some i →
  hybrid_single_row_pure ur m thr movies movies2 ii excluded weighted
  = hybrid_row_pure ur m thr movies ii weighted i excluded.
Proof.
  intros Hi. unfold hybrid_single_row_pure, hybrid_row_pure. apply for_each_ext.
  intros j acc. unfold key. by rewrite Hi.
Qed.

Section single_and_full.
Variable row : Z → string → result (Qc * Qc).
Variables (ur : gmap string Qc) (movies : Catalog).
Variables (ids : list Z) (recs : list (Qc * string)).
Variables (i : Z) (excluded : string).
Hypothesis full : for_each (score_item row ur movies) ids [] = Ok recs.
Hypothesis i_in : i ∈ ids.
Hypothesis title_i : movies !! i = Some excluded.
Hypothesis unrated : ur !! excluded = None.
Hypothesis title_once : ∀ j, j ∈ ids → movies !! j = Some excluded → j = i.

Lemma single_agrees :
  ∃ num denom, row i excluded = Ok (num, denom) ∧
    ∀ s, (if decide (0 < num ∧ 0 < denom) then Some (num / denom) else None)
         = Some s ↔ (s, excluded) ∈ recs.
Proof.
  destruct (score_items_row_Ok row ur movies ids [] recs i excluded full i_in
              title_i unrated) as (num & denom & Hrow).
  exists num, denom. split; [done|]. intros s.
  rewrite (score_items_elem_of row ur movies ids [] recs s excluded full).
  rewrite elem_of_nil. unfold yields. split.
  - case_decide as Hpos; [|done]. intros [= <-]. right. exists i.
    split; [done|]. split_and!; [done..|]. exists num, denom. naive_solver.
  - intros [[]|(j & Hj & Htj & _ & num' & denom' & Hrow' & Hn & Hd & ->)].
    apply title_once in Htj as ->; [|done].
    rewrite Hrow in Hrow'. injection Hrow' as <- <-.
    by rewrite decide_True by done.
Qed.
End single_and_full.

(** X8: for an item the user has not rated, whose title the catalog has
    once and the index maps back to its id, the single-item scorers return
    the score the full-catalog scorers list for that title, and [None] when
    they list none. *)
Theorem single_agrees_with_full (prefs : RatingMatrix) (l : loc) (h : store)
    (user : string) (thr : Qc) (movies : Catalog) (movies2 : TitleIndex)
    (ii : ItemSim) (excluded : string) (weighted : bool) (n : nat)
    (ur : gmap string Qc) (i : Z) :
  prefs !! user = Some ur → ur !! excluded = None →
  movies2 !! excluded = Some i → movies !! i = Some excluded →
  (∀ j, movies !! j = Some excluded → j = i) →
  (∀ out, (1 ≤ i ≤ Z.of_nat (size movies))%Z →
     get_TFIDF_recommendations prefs (deref l h) user thr movies n = Ok out →
     ∃ r, get_TFIDF_recommendations_single prefs (deref l h) user thr movies
            movies2 ii excluded = Ok (r, excluded) ∧
          ∀ s, r = Some s ↔ (s, excluded) ∈ returned out) ∧
  (∀ out, (1 ≤ i ≤ Z.of_nat (length (deref l h)))%Z →
     (get_hybrid_recommendations prefs l user thr movies ii weighted n h).1
     = Ok out →
     ∃ r, (get_hybrid_recommendations_single prefs l user thr movies movies2
             ii excluded weighted h).1 = Ok (r, excluded) ∧
          ∀ s, r = Some s ↔ (s, excluded) ∈ returned out).
Proof.
  intros Hur Hun Hidx Htitle Honce. split.
  - intros out Hi. unfold get_TFIDF_recommendations,
      get_TFIDF_recommendations_single, key. rewrite Hur.
    cbn [mbind result_bind].
    destruct (for_each _ _ _) as [recs|] eqn:Hloop; [|done].
    intros [= <-]. simpl.
    destruct (single_agrees (λ i _, tfidf_row ur (deref l h) thr movies i)
                ur movies _ recs i excluded Hloop) as (num & denom & Hrow & Hs);
      [by apply elem_of_range1_iff|done..|by intros; apply Honce|].
    rewrite (tfidf_single_row_eq _ _ _ _ _ _ i Hidx), Hrow.
    cbn [mbind result_bind].
    exists (if decide (0 < num ∧ 0 < denom) then Some (num / denom) else None).
    split; [by case_decide|exact Hs].
  - intros out Hi. rewrite get_hybrid_recommendations_pure,
      get_hybrid_recommendations_single_pure. unfold key. rewrite Hur.
    cbn [mbind result_bind].
    destruct (for_each _ _ _) as [recs|] eqn:Hloop; [|done].
    intros [= <-]. simpl.
    destruct (single_agrees _ ur movies _ recs i excluded Hloop)
      as (num & denom & Hrow & Hs);
      [by apply elem_of_range1_iff|done..|by intros; apply Honce|].
    rewrite (hybrid_single_row_pure_eq_row _ _ _ _ _ _ _ _ i Hidx), Hrow.
    cbn [mbind result_bind].
    exists (if decide (0 < num ∧ 0 < denom) then Some (num / denom) else None).
    split; [by case_decide|exact Hs].
Qed.

Lemma single_agrees_with_full_witness :
  (prefs_u !! "u" = Some ({[ "A" := qc 1 1; "B" := qc 5 1 ]} : gmap string Qc) ∧
   ({[ "A" := qc 1 1; "B" := qc 5 1 ]} : gmap string Qc) !! "C" = None ∧
   movies4_ids !! "C" = Some 3%Z ∧ movies4 !! 3%Z = Some "C" ∧
   (∀ j, movies4 !! j = Some "C" → j = 3%Z)) ∧
  ∃ r, get_TFIDF_recommendations_single prefs_u cosim4 "u" 0 movies4
         movies4_ids itemsim4 "C" = Ok (r, "C") ∧
       ∀ s, r = Some s ↔ (s, "C") ∈ [(qc 1 1, "C"); (qc 5 1, "D")].
Proof.
  assert (H1 : prefs_u !! "u"
               = Some ({[ "A" := qc 1 1; "B" := qc 5 1 ]} : gmap string Qc))
    by by_compute.
  assert (H2 : ({[ "A" := qc 1 1; "B" := qc 5 1 ]} : gmap string Qc) !! "C"
               = None) by by_compute.
  assert (H3 : movies4_ids !! "C" = Some 3%Z) by by_compute.
  assert (H4 : movies4 !! 3%Z = Some "C") by by_compute.
  assert (H5 : ∀ j, movies4 !! j = Some "C" → j = 3%Z).
  { intros j Hj. unfold movies4 in Hj.
    apply lookup_insert_Some in Hj as [[_ [=]]|[_ Hj]].
    apply lookup_insert_Some in Hj as [[_ [=]]|[_ Hj]].
    apply lookup_insert_Some in Hj as [[<- _]|[_ Hj]]; [done|].
    by apply lookup_singleton_Some in Hj as [_ [=]]. }
  assert (H6 : (1 ≤ 3 ≤ Z.of_nat (size movies4))%Z) by by_compute.
  assert (H7 : get_TFIDF_recommendations prefs_u (deref 1%positive store4) "u" 0
                 movies4 1
               = Ok {| printed := [(qc 5 1, "D")];
                       returned := [(qc 1 1, "C"); (qc 5 1, "D")] |})
    by by_compute.
  split; [done|].
  exact (proj1 (single_agrees_with_full prefs_u 1%positive store4 "u" 0 movies4
                  movies4_ids itemsim4 "C" true 1 _ 3 H1 H2 H3 H4 H5) _ H6 H7).
Defined.

(** ** What the feature encoder returns *)

Lemma cap_sorted_desc (n : nat) (recs : list (npf * string)) :
  Sorted rec_ge (cap n (sorted_desc recs)) ∧
  (length (cap n (sorted_desc recs)) ≤ n `max` 10)%nat.
Proof.
  unfold cap. case_decide as Hlen.
  - destruct (take_sorted_desc n recs) as [Hs Hl]. split; [done|lia].
  - split; [apply (Sorted_merge_sort rec_ge)|lia].
Qed.

Lemma fe_item_sorted (features : Features) (movies : Catalog)
    (m : list (list Qc)) (n : nat) (id : Z) (recs out : list (npf * string)) :
  fe_item features movies m n id recs = Ok out →
  Sorted rec_ge recs ∧ (length recs ≤ n `max` 10)%nat →
  Sorted rec_ge out ∧ (length out ≤ n `max` 10)%nat.
Proof.
  unfold fe_item. destruct (get features id) as [row|]; [|done].
  cbn [mbind result_bind]. case_decide; [by intros [= <-]|].
  destruct (key movies (id + 1)%Z) as [t|]; [|done]. cbn [mbind result_bind].
  intros [= <-] _. apply cap_sorted_desc.
Qed.

Lemma fe_item_elem_of (features : Features) (movies : Catalog)
    (m : list (list Qc)) (n : nat) (id : Z) (recs out : list (npf * string))
    (x : npf * string) :
  fe_item features movies m n id recs = Ok out → x ∈ out →
  x ∈ recs ∨ ∃ row, get features id = Ok row ∧ movies !! (id + 1)%Z = Some x.2 ∧
                    x.1 = final_rec m row.
Proof.
  unfold fe_item. destruct (get features id) as [row|]; [|done].
  cbn [mbind result_bind]. case_decide; [intros [= <-]; by left|].
  unfold key. destruct (movies !! (id + 1)%Z) as [t|] eqn:Ht; [|done].
  cbn [mbind result_bind]. intros [= <-] Hx.
  assert (x ∈ sorted_desc (recs ++ [(final_rec m row, t)])) as Hx'.
  { unfold cap in Hx. case_decide; [|done].
    rewrite <-(take_drop n (sorted_desc _)). apply elem_of_app. by left. }
  unfold sorted_desc in Hx'. rewrite merge_sort_Permutation in Hx'.
  apply elem_of_app in Hx' as [?|Hx']; [by left|right].
  apply list_elem_of_singleton in Hx' as ->. by exists row.
Qed.

Lemma fe_rate_loop_rated (idx : TitleIndex) (entries : list (string * Qc))
    (st st' : list (list Qc) * gset Z) (x : Z) :
  for_each (fe_rate idx) entries st = Ok st' →
  x ∈ st'.2 ↔ x ∈ st.2 ∨ ∃ t r idz, (t, r) ∈ entries ∧ idx !! t = Some idz ∧
                                    x = (idz - 1)%Z.
Proof.
  revert st. induction entries as [|[t r] entries IH]; intros st.
  { intros [= <-]. split; [by left|]. by intros [?|(? & ? & ? & []%elem_of_nil & _)]. }
  intros (st1 & Hstep & Hrest)%for_each_cons_Ok.
  rewrite (IH _ Hrest). unfold fe_rate, key in Hstep. simpl in Hstep.
  destruct (idx !! t) as [idz|] eqn:Hidz; [|done]. simpl in Hstep.
  destruct (scale_row st.1 (idz - 1) r) as [m'|]; [|done]. simpl in Hstep.
  injection Hstep as <-. simpl. rewrite elem_of_union, elem_of_singleton.
  setoid_rewrite elem_of_cons. split.
  - intros [[->|?]|(t' & r' & idz' & ? & ? & ->)]; [|by left|].
    + right. exists t, r, idz. auto.
    + right. exists t', r', idz'. auto.
  - intros [?|(t' & r' & idz' & [[= -> ->]|?] & Hi & ->)]; [by left; right| |].
    + left; left. congruence.
    + right. exists t', r', idz'. auto.
Qed.

Lemma fe_encode_unrated (set_iter : gset Z → list Z) (prefs : RatingMatrix)
    (features : Features) (idx : TitleIndex) (user : string)
    (ur : gmap string Qc) (e : encoding) (id : Z) :
  (∀ s x, x ∈ set_iter s → x ∈ s) →
  prefs !! user = Some ur →
  fe_encode set_iter prefs features idx user = Ok e →
  id ∈ unrated_ids e →
  (0 ≤ id < Z.of_nat (length features))%Z ∧
  ∀ t idz, is_Some (ur !! t) → idx !! t = Some idz → (idz - 1)%Z ≠ id.
Proof.
  intros Hiter Hur. unfold fe_encode, key. rewrite Hur. cbn [mbind result_bind].
  destruct (for_each (fe_rate idx) _ _) as [[m rated]|] eqn:Hloop; [|done].
  cbn [mbind result_bind].
  destruct (for_each _ _ m) as [m'|]; [|done]. cbn [mbind result_bind].
  intros [= <-]. simpl. intros [Hid Hnot]%Hiter%elem_of_difference.
  apply elem_of_id_set in Hid. split; [done|].
  intros t idz [r Hr] Hidz <-. apply Hnot.
  apply (fe_rate_loop_rated idx _ _ _ (idz - 1) Hloop). right.
  exists t, r, idz. split_and!; [|done..]. by apply elem_of_map_to_list.
Qed.

Lemma fe_loop_props (features : Features) (movies : Catalog)
    (m : list (list Qc)) (n : nat) (ids : list Z)
    (recs out : list (npf * string)) :
  for_each (fe_item features movies m n) ids recs = Ok out →
  (Sorted rec_ge recs ∧ (length recs ≤ n `max` 10)%nat →
   Sorted rec_ge out ∧ (length out ≤ n `max` 10)%nat) ∧
  ∀ x, x ∈ out →
    x ∈ recs ∨ ∃ id row, id ∈ ids ∧ get features id = Ok row ∧
                         movies !! (id + 1)%Z = Some x.2 ∧
                         x.1 = final_rec m row.
Proof.
  revert recs. induction ids as [|id ids IH]; intros recs.
  { intros [= <-]. split; [done|]. intros x ?. by left. }
  intros (recs1 & Hitem & Hrest)%for_each_cons_Ok.
  destruct (IH _ Hrest) as [Hs Hin]. split.
  - intros Hrecs. by apply Hs, (fe_item_sorted _ _ _ _ _ _ _ Hitem).
  - intros x [Hx|(id' & row & Hid' & ?)]%Hin.
    + apply (fe_item_elem_of _ _ _ _ _ _ _ _ Hitem) in Hx as [?|(row & ?)];
        [by left|right].
      exists id, row. split; [by left|done].
    + right. exists id', row. split; [by right|done].
Qed.

(** X9: the list [get_FE_recommendations] returns is sorted from high to
    low, by score and then by title, and has at most [n] entries, or at most
    10 when [n] is less than 10. *)
Theorem fe_returns_sorted (set_iter : gset Z → list Z) (prefs : RatingMatrix)
    (features : Features) (movie_title_to_id : TitleIndex) (movies : Catalog)
    (user : string) (n : nat) (recs : list (npf * string)) :
  get_FE_recommendations set_iter prefs features movie_title_to_id movies
    user n = Ok recs →
  Sorted rec_ge recs ∧ (length recs ≤ n `max` 10)%nat.
Proof.
  unfold get_FE_recommendations.
  destruct (fe_encode _ _ _ _ _) as [e|]; [|done]. cbn [mbind result_bind].
  intros Hloop%fe_loop_props. apply Hloop. split; [constructor|simpl; lia].
Qed.

Lemma fe_returns_sorted_witness :
  get_FE_recommendations ascending prefs13 features13 movies13_ids movies13
    "u" 5
  = Ok [(Fin (qc 3 1), "m"); (Fin (qc 3 1), "l"); (Fin (qc 3 1), "k");
        (Fin (qc 3 1), "j"); (Fin (qc 3 1), "i"); (Fin (qc 3 1), "h")] ∧
  (6 ≤ 5 `max` 10)%nat.
Proof.
  assert (H : get_FE_recommendations ascending prefs13 features13 movies13_ids
                movies13 "u" 5
              = Ok [(Fin (qc 3 1), "m"); (Fin (qc 3 1), "l");
                    (Fin (qc 3 1), "k"); (Fin (qc 3 1), "j");
                    (Fin (qc 3 1), "i"); (Fin (qc 3 1), "h")]) by by_compute.
  split; [exact H|].
  exact (proj2 (fe_returns_sorted _ _ _ _ _ _ _ _ H)).
Defined.

(** X10: when the index maps every title of the catalog to its id and the
    loop over a set visits only its elements, every title
    [get_FE_recommendations] returns is a title of the catalog that the
    user has not rated, with an id from 1 to the number of rows of the
    feature matrix. *)
Theorem fe_recommends_unrated (set_iter : gset Z → list Z)
    (prefs : RatingMatrix) (features : Features)
    (movie_title_to_id : TitleIndex) (movies : Catalog) (user : string)
    (n : nat) (ur : gmap string Qc) (recs : list (npf * string)) :
  (∀ s x, x ∈ set_iter s → x ∈ s) →
  (∀ id t, movies !! id = Some t → movie_title_to_id !! t = Some id) →
  prefs !! user = Some ur →
  get_FE_recommendations set_iter prefs features movie_title_to_id movies
    user n = Ok recs →
  ∀ s t, (s, t) ∈ recs →
    ur !! t = None ∧
    ∃ id, movies !! id = Some t ∧ (1 ≤ id ≤ Z.of_nat (length features))%Z.
Proof.
  intros Hiter Hidx Hur. unfold get_FE_recommendations.
  destruct (fe_encode _ _ _ _ _) as [e|] eqn:He; [|done].
  cbn [mbind result_bind].
  intros [_ Hin]%fe_loop_props s t [[]%elem_of_nil|(id & row & Hid & _ & Ht & _)]%Hin.
  simpl in Ht.
  destruct (fe_encode_unrated set_iter prefs features movie_title_to_id user ur
              e id Hiter Hur He Hid) as [Hrange Hnot].
  split.
  - destruct (ur !! t) as [r|] eqn:Hr; [|done].
    destruct (Hnot t (id + 1)%Z); [by eexists|by apply Hidx|lia].
  - exists (id + 1)%Z. split; [done|lia].
Qed.

Lemma fe_recommends_unrated_witness :
  ((∀ s x, x ∈ ascending s → x ∈ s) ∧
   (∀ id t, movies5 !! id = Some t → movies5_ids !! t = Some id) ∧
   prefs5 !! "u" = Some ({[ "a" := qc 4 1; "b" := qc 2 1 ]} : gmap string Qc) ∧
   get_FE_recommendations ascending prefs5 features5 movies5_ids movies5 "u" 15
   = Ok [(Fin (qc 4 1), "d"); (Fin (qc 10 3), "c"); (Fin (qc 2 1), "e")]) ∧
  ({[ "a" := qc 4 1; "b" := qc 2 1 ]} : gmap string Qc) !! "d" = None.
Proof.
  assert (H1 : ∀ s x, x ∈ ascending s → x ∈ s)
    by (intros s x; apply ascending_elem_of).
  assert (H2 : ∀ id t, movies5 !! id = Some t → movies5_ids !! t = Some id).
  { change (map_Forall (λ id t, movies5_ids !! t = Some id) movies5).
    by_compute. }
  assert (H3 : prefs5 !! "u"
               = Some ({[ "a" := qc 4 1; "b" := qc 2 1 ]} : gmap string Qc))
    by by_compute.
  assert (H4 : get_FE_recommendations ascending prefs5 features5 movies5_ids
                 movies5 "u" 15
               = Ok [(Fin (qc 4 1), "d"); (Fin (qc 10 3), "c");
                     (Fin (qc 2 1), "e")]) by by_compute.
  assert (H5 : (Fin (qc 4 1), "d")
               ∈ [(Fin (qc 4 1), "d"); (Fin (qc 10 3), "c"); (Fin (qc 2 1), "e")])
    by left.
  split; [by split_and!|].
  exact (proj1 (fe_recommends_unrated ascending prefs5 features5 movies5_ids
                  movies5 "u" 15 _ _ H1 H2 H3 H4 (Fin (qc 4 1)) "d" H5)).
Defined.

(** ** The lists of the leave-one-out loop *)

Lemma results_bind {A B} (P : B → Prop) (m : M A) (f : A → M B) :
  (∀ a, results P (f a)) → results P (m ≫= f).
Proof.
  intros Hf h b h'. unfold mbind, M_bind.
  destruct (m h) as [[a|e] h1]; [|done]. apply Hf.
Qed.

Lemma results_ret {A} (P : A → Prop) (a : A) : P a → results P (mret a).
Proof. intros Ha h a' h' [= <- _]. done. Qed.

Lemma results_for_eachM {X S} (P : S → Prop) (body : X → S → M S) xs s :
  (∀ x s, P s → results P (body x s)) → P s →
  results P (for_eachM body xs s).
Proof.
  intros Hbody. revert s. induction xs as [|x xs IH]; intros s Hs.
  { by apply results_ret. }
  intros h s' h'. rewrite for_eachM_cons. unfold mbind, M_bind.
  destruct (body x s h) as [[s1|e] h1] eqn:Hx; [|done].
  apply IH. by eapply Hbody.
Qed.

Lemma tallies_ok_nil : tallies_ok (Tallies [] [] []).
Proof. by split_and!. Qed.

Lemma tallies_ok_snoc (t : tallies) (actual pred : Qc) :
  pred ≠ 0 → tallies_ok t →
  tallies_ok {| true_list := true_list t ++ [actual];
                pred_list := pred_list t ++ [pred];
                error_list := error_list t ++ [(actual - pred) ^ 2] |}.
Proof.
  intros Hp (Hlen & Herr & Hne). split_and!; cbn [true_list pred_list error_list].
  - rewrite !length_app. simpl. lia.
  - rewrite zip_with_app by done. by rewrite Herr.
  - apply Forall_app. split; [done|]. by constructor.
Qed.

Lemma results_record_error prefs i out rec t :
  tallies_ok t → results tallies_ok (record_error prefs i out rec t).
Proof.
  intros Ht h t' h'. unfold record_error.
  destruct rec.1 as [pred|]; [|by intros [= <- _]].
  case_decide as Hc; [|by intros [= <- _]].
  destruct (_ ≫= _) as [actual|]; [|by intros [= <- _]].
  intros [= <- _]. apply tallies_ok_snoc; [by destruct Hc|done].
Qed.

Lemma squares_nonneg (t : tallies) :
  tallies_ok t → Forall (λ e, 0 ≤ e) (error_list t).
Proof.
  intros (_ & -> & _). generalize (pred_list t).
  induction (true_list t) as [|a l IH]; intros [|p ps]; simpl; try constructor.
  - replace ((a - p) ^ 2) with ((a - p) * (a - p)) by (simpl; ring).
    set (d := a - p). clearbody d. Qc_unfold. nra.
  - apply IH.
Qed.

Section loo_cv_lists.
Variable algo :
  prefs_ref → string → Catalog → TitleIndex → string → option bool →
  M (option Qc * string).
Variable report : tallies → result ().

Lemma results_trial prefs newPrefs movies newMovies weighted i out t :
  tallies_ok t →
  results tallies_ok (trial algo prefs newPrefs movies newMovies weighted i out t).
Proof.
  intros Ht. unfold trial. do 6 (apply results_bind; intros ?).
  by apply results_record_error.
Qed.

Lemma results_user_trials prefs newPrefs movies newMovies weighted i t :
  tallies_ok t →
  results tallies_ok
    (user_trials algo prefs newPrefs movies newMovies weighted i t).
Proof.
  intros Ht. unfold user_trials. do 2 (apply results_bind; intros ?).
  apply (results_for_eachM tallies_ok); [|done]. intros. by apply results_trial.
Qed.

Lemma loo_cv_sim_lists prefs movies weighted h errs h' :
  loo_cv_sim algo report prefs movies weighted h = (Ok errs, h') →
  ∃ t, report t = Ok () ∧ errs = error_list t ∧ tallies_ok t.
Proof.
  unfold loo_cv_sim. unfold mbind at 1, M_bind at 1.
  destruct (deepcopy_prefs prefs h) as [[newPrefs|e] h1]; [|done].
  unfold mbind at 1, M_bind at 1.
  destruct (for_eachM _ _ _ h1) as [[t|e] h2] eqn:Hloop; [|done].
  assert (Ht : tallies_ok t).
  { eapply (results_for_eachM tallies_ok); [|apply tallies_ok_nil|exact Hloop].
    intros. by apply results_user_trials. }
  unfold mbind, M_bind, lift. destruct (report t) as [[]|] eqn:Hrep; [|done].
  intros [= <- _]. by exists t.
Qed.
End loo_cv_lists.

(** X11: when [loo_cv_sim] returns, the metrics were computed from lists
    that go together: one actual and one predicted rating per tallied
    trial, never a predicted rating of 0, and the list returned holds,
    trial by trial, the square of actual less predicted, so none of its
    entries is negative. *)
Theorem loo_cv_sim_returns_squared_errors
    (algo : prefs_ref → string → Catalog → TitleIndex → string → option bool →
            M (option Qc * string))
    (report : tallies → result ()) (prefs : prefs_ref) (movies : Catalog)
    (weighted : bool) (h h' : store) (errs : list Qc) :
  loo_cv_sim algo report prefs movies weighted h = (Ok errs, h') →
  (∃ t, report t = Ok () ∧ errs = error_list t ∧ tallies_ok t) ∧
  Forall (λ e, 0 ≤ e) errs.
Proof.
  intros (t & Hrep & -> & Ht)%loo_cv_sim_lists. split; [by exists t|].
  by apply squares_nonneg.
Qed.

(** ** Values of the two similarity functions *)

Lemma sum_Qc_nil : sum_Qc [] = 0.
Proof. done. Qed.

Lemma sum_Qc_zero {A} (f : A → Qc) (l : list A) :
  (∀ a, a ∈ l → f a = 0) → sum_Qc (f <$> l) = 0.
Proof.
  induction l as [|a l IH]; intros Hf; [done|].
  rewrite fmap_cons, sum_Qc_cons, Hf, IH; [ring| |left].
  intros b Hb. apply Hf. by right.
Qed.

Lemma sum_Qc_const {A} (c : Qc) (l : list A) :
  sum_Qc ((λ _, c) <$> l) = Qc_of_nat (length l) * c.
Proof.
  induction l as [|a l IH].
  { simpl. rewrite sum_Qc_nil. Qc_unfold.
    change (inject_Z (Z.of_nat 0)) with 0%Q. lra. }
  rewrite fmap_cons, sum_Qc_cons, IH. simpl length.
  Qc_unfold. rewrite Nat2Z.inj_succ. unfold Z.succ. rewrite inject_Z_plus.
  change (inject_Z 1) with 1%Q. lra.
Qed.

Section similarity_values.
Variable sqrt : Qc → Qc.

Lemma shared_items_self (r : gmap string Qc) (e : string * (Qc * Qc)) :
  e ∈ shared_items r r → e.2.1 = e.2.2.
Proof.
  destruct e as [i [x y]]. intros [H1 H2]%elem_of_shared_items. simpl.
  congruence.
Qed.

Lemma shared_items_self_length (r : gmap string Qc) :
  r ≠ ∅ → length (shared_items r r) ≠ 0%nat.
Proof.
  intros (i & x & Hi)%map_choose.
  assert ((i, (x, x)) ∈ shared_items r r) as Hin
    by (by apply elem_of_shared_items).
  destruct (shared_items r r); [by apply elem_of_nil in Hin|done].
Qed.

Lemma sim_distance_self (prefs : RatingMatrix) (p : string)
    (r : gmap string Qc) :
  sqrt 0 = 0 → prefs !! p = Some r →
  sim_distance sqrt prefs p p 0 = Ok (if decide (r = ∅) then 0 else 1).
Proof.
  intros Hsqrt Hp. unfold sim_distance, key. rewrite Hp.
  cbn [mbind result_bind]. case_decide as Hr; [done|].
  cbn [mbind result_bind].
  rewrite decide_False by (by apply shared_items_self_length).
  rewrite (decide_False (P := (0 : Qc) ≠ 0)) by (by intros []).
  rewrite sum_Qc_zero.
  - rewrite Hsqrt. by_compute.
  - intros [i [x y]] Hin%shared_items_self. simpl in Hin. subst. ring.
Qed.

Lemma sim_distance_unweighted_bounds (prefs : RatingMatrix) (p1 p2 : string)
    (s : Qc) :
  (∀ x, 0 ≤ sqrt x) →
  sim_distance sqrt prefs p1 p2 0 = Ok s →
  0 ≤ s ∧ s ≤ 1 ∧ (s = 0 ↔ shared_count prefs p1 p2 = 0%nat).
Proof.
  intros Hsqrt. unfold sim_distance, shared_count, key.
  destruct (prefs !! p1) as [r1|]; [|done]. cbn [mbind result_bind default].
  case_decide as Hr1.
  { intros [= <-]. subst. rewrite shared_items_empty_l.
    split_and!; [by_compute..|done]. }
  destruct (prefs !! p2) as [r2|]; [|done]. cbn [mbind result_bind default].
  case_decide as Hlen.
  { intros [= <-]. split_and!; [by_compute..|done]. }
  rewrite (decide_False (P := (0 : Qc) ≠ 0)) by (by intros []).
  intros [= <-].
  set (a := sqrt _). pose proof (Hsqrt (sum_Qc ((λ '(_, (x, y)), (x - y) * (x - y))
                                         <$> shared_items r1 r2))) as Ha.
  fold a in Ha. clearbody a.
  assert (Hb : 1 + a ≠ 0) by (Qc_unfold; lra).
  assert (Hs : 1 / (1 + a) * (1 + a) = 1) by (field; done).
  set (s := 1 / (1 + a)) in *. clearbody s.
  split_and!.
  - Qc_unfold. nra.
  - Qc_unfold. nra.
  - split; [|done]. intros ->. exfalso. Qc_unfold. lra.
Qed.

(** [sim_pearson] of two users whose shared items all have the same rating
    by the first. *)
Lemma sim_pearson_constant (prefs : RatingMatrix) (p1 p2 : string) (k c : Qc)
    (r1 r2 : gmap string Qc) :
  sqrt 0 = 0 → prefs !! p1 = Some r1 → prefs !! p2 = Some r2 →
  (∀ i x y, (i, (x, y)) ∈ shared_items r1 r2 → x = c) →
  sim_pearson sqrt prefs p1 p2 k = Ok 0.
Proof.
  intros Hsqrt H1 H2 Hconst. unfold sim_pearson, key. rewrite H1, H2.
  cbn [mbind result_bind]. case_decide; [done|].
  case_decide as Hlen; [done|].
  set (si := shared_items r1 r2) in *.
  assert (Hn : Qc_of_nat (length si) ≠ 0).
  { Qc_unfold. intros E. apply Hlen.
    assert (Z.of_nat (length si) = 0%Z) as E'; [|lia].
    revert E. generalize (Z.of_nat (length si)). intros z.
    unfold Qeq, inject_Z. simpl. lia. }
  assert (Havg : sum_Qc ((λ '(_, (x, _)), x) <$> si) / Qc_of_nat (length si) = c).
  { rewrite (sum_Qc_ext _ (λ _, c)).
    - rewrite sum_Qc_const. by field.
    - intros [i [x y]] Hin. by eapply Hconst. }
  rewrite Havg.
  rewrite (sum_Qc_zero (λ '(_, (x, _)), (x - c) ^ 2)).
  2:{ intros [i [x y]] Hin. rewrite (Hconst _ _ _ Hin). simpl. ring. }
  rewrite Hsqrt, Qcmult_0_l. by rewrite decide_False by (by intros []).
Qed.
End similarity_values.

Lemma loo_cv_sim_returns_squared_errors_witness :
  loo_cv_sim (algo_hybrid 1%positive 0 itemsim_u) (λ _, Ok ()) prefs_ref_u
    movies4 false store_u
  = (Ok [qc 16 1; qc 16 1],
     (loo_cv_sim (algo_hybrid 1%positive 0 itemsim_u) (λ _, Ok ()) prefs_ref_u
        movies4 false store_u).2) ∧
  Forall (λ e, 0 ≤ e) [qc 16 1; qc 16 1].
Proof.
  assert (H : loo_cv_sim (algo_hybrid 1%positive 0 itemsim_u) (λ _, Ok ())
                prefs_ref_u movies4 false store_u
              = (Ok [qc 16 1; qc 16 1],
                 (loo_cv_sim (algo_hybrid 1%positive 0 itemsim_u) (λ _, Ok ())
                    prefs_ref_u movies4 false store_u).2)).
  { rewrite <-loo_cv_sim_example. apply surjective_pairing. }
  split; [exact H|].
  exact (proj2 (loo_cv_sim_returns_squared_errors _ _ _ _ _ _ _ _ H)).
Defined.

Lemma sqrt_on_squares_nonneg (x : Qc) : 0 ≤ sqrt_on_squares x.
Proof.
  unfold sqrt_on_squares. Qc_unfold. unfold Qle. simpl.
  pose proof (Z.sqrt_nonneg (Qnum x)). lia.
Qed.

(** X12: without weighting, [sim_distance] returns a number from 0 to 1, and
    0 exactly when the two users share no item (for every function that,
    like [math.sqrt], returns no negative number). *)
Theorem sim_distance_in_unit_interval (sqrt : Qc → Qc) (prefs : RatingMatrix)
    (p1 p2 : string) (s : Qc) :
  (∀ x, 0 ≤ sqrt x) →
  sim_distance sqrt prefs p1 p2 0 = Ok s →
  0 ≤ s ∧ s ≤ 1 ∧ (s = 0 ↔ shared_count prefs p1 p2 = 0%nat).
Proof. apply sim_distance_unweighted_bounds. Qed.

Lemma sim_distance_in_unit_interval_witness :
  ((∀ x, 0 ≤ sqrt_on_squares x) ∧
   sim_distance sqrt_on_squares prefs_pearson "A" "B" 0 = Ok (qc 1 3)) ∧
  0 ≤ qc 1 3 ∧ qc 1 3 ≤ 1.
Proof.
  assert (H : sim_distance sqrt_on_squares prefs_pearson "A" "B" 0
              = Ok (qc 1 3)) by by_compute.
  split; [split; [apply sqrt_on_squares_nonneg|exact H]|].
  destruct (sim_distance_in_unit_interval sqrt_on_squares prefs_pearson "A" "B"
              (qc 1 3) sqrt_on_squares_nonneg H) as (H1 & H2 & _).
  by split.
Defined.

(** X13: the unweighted Euclidean similarity of a user with themself is 1
    when they have rated something, and 0 when they have rated nothing. *)
Theorem sim_distance_with_self (sqrt : Qc → Qc) (prefs : RatingMatrix)
    (p : string) (r : gmap string Qc) :
  sqrt 0 = 0 → prefs !! p = Some r →
  sim_distance sqrt prefs p p 0 = Ok (if decide (r = ∅) then 0 else 1).
Proof. apply sim_distance_self. Qed.

Lemma sim_distance_with_self_witness :
  (sqrt_on_squares 0 = 0 ∧ prefs_pearson !! "A" = Some ratings_A) ∧
  sim_distance sqrt_on_squares prefs_pearson "A" "A" 0
  = Ok (if decide (ratings_A = ∅) then 0 else 1).
Proof.
  assert (H1 : sqrt_on_squares 0 = 0) by by_compute.
  assert (H2 : prefs_pearson !! "A" = Some ratings_A) by by_compute.
  split; [by split|].
  exact (sim_distance_with_self sqrt_on_squares prefs_pearson "A" ratings_A
           H1 H2).
Defined.

(** X14: the guard against a division by zero: when the items two users
    share all have the same rating by the first user, one shared item
    being the plainest case, [sim_pearson] returns 0, whatever the
    weighting. *)
Theorem sim_pearson_no_variance (sqrt : Qc → Qc) (prefs : RatingMatrix)
    (p1 p2 : string) (k : Qc) (r1 r2 : gmap string Qc) :
  sqrt 0 = 0 → prefs !! p1 = Some r1 → prefs !! p2 = Some r2 →
  ((∃ c, ∀ i x y, (i, (x, y)) ∈ shared_items r1 r2 → x = c) →
   sim_pearson sqrt prefs p1 p2 k = Ok 0) ∧
  (shared_count prefs p1 p2 = 1%nat →
   sim_pearson sqrt prefs p1 p2 k = Ok 0).
Proof.
  intros Hsqrt H1 H2. split.
  - intros [c Hc]. by eapply sim_pearson_constant.
  - rewrite (shared_count_eq _ _ _ _ _ H1 H2). intros Hlen.
    destruct (shared_items r1 r2) as [|[i0 [x0 y0]] [|??]] eqn:Hsi; try done.
    apply (sim_pearson_constant sqrt prefs p1 p2 k x0 r1 r2); [done..|].
    intros i x y. rewrite Hsi. by intros [= -> -> ->]%list_elem_of_singleton.
Qed.

Lemma sim_pearson_no_variance_witness :
  (sqrt_on_squares 0 = 0 ∧
   transformPrefs prefs_u !! "A" = Some ({[ "u" := qc 1 1 ]} : gmap string Qc) ∧
   transformPrefs prefs_u !! "B" = Some ({[ "u" := qc 5 1 ]} : gmap string Qc) ∧
   shared_count (transformPrefs prefs_u) "A" "B" = 1%nat) ∧
  sim_pearson sqrt_on_squares (transformPrefs prefs_u) "A" "B" SIM_WEIGHTING
  = Ok 0.
Proof.
  assert (H0 : sqrt_on_squares 0 = 0) by by_compute.
  assert (H1 : transformPrefs prefs_u !! "A"
               = Some ({[ "u" := qc 1 1 ]} : gmap string Qc)) by by_compute.
  assert (H2 : transformPrefs prefs_u !! "B"
               = Some ({[ "u" := qc 5 1 ]} : gmap string Qc)) by by_compute.
  assert (H3 : shared_count (transformPrefs prefs_u) "A" "B" = 1%nat)
    by by_compute.
  split; [by split_and!|].
  exact (proj2 (sim_pearson_no_variance sqrt_on_squares _ "A" "B" SIM_WEIGHTING
                  _ _ H0 H1 H2) H3).
Defined.

(** X15: significance weighting as the two functions apply it, with [m] the
    number of shared items: [sim_distance] multiplies by m/k when
    0 < m < k and leaves the similarity alone when m >= k; [sim_pearson]
    multiplies by m/k for every k other than 0, also when m >= k. *)
Theorem similarity_weighting_as_coded (sqrt : Qc → Qc) (prefs : RatingMatrix)
    (p1 p2 : string) (k : Qc) :
  is_Some (prefs !! p1) → is_Some (prefs !! p2) → 0 < k →
  let m := Qc_of_nat (shared_count prefs p1 p2) in
  (0 < m → m < k →
     sim_distance sqrt prefs p1 p2 k
     = (λ s, s * (m / k)) <$> sim_distance sqrt prefs p1 p2 0) ∧
  (k ≤ m →
     sim_distance sqrt prefs p1 p2 k = sim_distance sqrt prefs p1 p2 0) ∧
  sim_pearson sqrt prefs p1 p2 k
  = (λ s, s * (m / k)) <$> sim_pearson sqrt prefs p1 p2 0.
Proof.
  intros H1 H2 Hk m.
  destruct (sim_distance_weighting sqrt prefs p1 p2 k H1 H2 Hk) as [Ha Hb].
  split_and!; [exact Ha|exact Hb|].
  apply sim_pearson_weighting; [done..|].
  intros ->. by apply (irreflexivity Qclt) in Hk.
Qed.

Lemma similarity_weighting_as_coded_witness :
  (is_Some (prefs_pearson !! "A") ∧ is_Some (prefs_pearson !! "B") ∧
   0 < SIM_WEIGHTING) ∧
  sim_pearson sqrt_on_squares prefs_pearson "A" "B" SIM_WEIGHTING
  = (λ s, s * (Qc_of_nat (shared_count prefs_pearson "A" "B") / SIM_WEIGHTING))
      <$> sim_pearson sqrt_on_squares prefs_pearson "A" "B" 0.
Proof.
  assert (HA : is_Some (prefs_pearson !! "A")) by by_compute.
  assert (HB : is_Some (prefs_pearson !! "B")) by by_compute.
  assert (Hk : 0 < SIM_WEIGHTING) by by_compute.
  split; [by split_and!|].
  exact (proj2 (proj2 (similarity_weighting_as_coded sqrt_on_squares
                         prefs_pearson "A" "B" SIM_WEIGHTING HA HB Hk))).
Defined.

(** ** What the full-catalog scorers print, and the catalog they need *)

Lemma top_n_of_sorted (n : nat) (recs : list (Qc * string)) :
  let top := take n (sorted_desc recs) in
  Sorted rec_ge top ∧ (length top ≤ n)%nat ∧
  (∀ x, x ∈ top → x ∈ recs) ∧
  (∀ x y, x ∈ top → y ∈ recs → y ∉ top → rec_ge x y).
Proof.
  intros top. destruct (take_sorted_desc n recs) as [Hs Hl].
  assert (Hperm : sorted_desc recs ≡ₚ recs) by apply merge_sort_Permutation.
  split_and!; [done..| |].
  - intros x Hx. rewrite <-Hperm, <-(take_drop n (sorted_desc recs)).
    apply elem_of_app. by left.
  - intros x y Hx Hy Hny.
    pose proof (Sorted_merge_sort rec_ge recs) as Hsorted.
    apply Sorted_StronglySorted in Hsorted; [|apply _].
    fold (sorted_desc recs) in Hsorted.
    rewrite <-Hperm, <-(take_drop n (sorted_desc recs)) in Hy.
    rewrite <-(take_drop n (sorted_desc recs)) in Hsorted.
    apply elem_of_app in Hy as [?|Hy]; [done|].
    by eapply StronglySorted_app_1_elem_of.
Qed.

(** X16: what the two full-catalog scorers print is the best [n] of what they
    return: sorted from high to low by score and then by title, at most [n]
    entries, all of them entries of the returned list, and each ranking at
    least as high as every returned entry that is not printed. *)
Theorem printed_is_best_n (prefs : RatingMatrix) (l : loc) (h : store)
    (user : string) (thr : Qc) (movies : Catalog) (ii : ItemSim)
    (weighted : bool) (n : nat) (out : output) :
  get_TFIDF_recommendations prefs (deref l h) user thr movies n = Ok out ∨
  (get_hybrid_recommendations prefs l user thr movies ii weighted n h).1
  = Ok out →
  Sorted rec_ge (printed out) ∧ (length (printed out) ≤ n)%nat ∧
  (∀ x, x ∈ printed out → x ∈ returned out) ∧
  (∀ x y, x ∈ printed out → y ∈ returned out → y ∉ printed out → rec_ge x y).
Proof.
  rewrite get_hybrid_recommendations_pure. unfold get_TFIDF_recommendations.
  intros [H|H]; destruct (key prefs user) as [ur|]; try done;
    cbn [mbind result_bind] in H;
    destruct (for_each _ _ _) as [recs|]; try done;
    injection H as <-; apply top_n_of_sorted.
Qed.

Lemma printed_is_best_n_witness :
  get_TFIDF_recommendations prefs_u (deref 1%positive store4) "u" 0 movies4 1
  = Ok {| printed := [(qc 5 1, "D")];
          returned := [(qc 1 1, "C"); (qc 5 1, "D")] |} ∧
  Sorted rec_ge [(qc 5 1, "D")] ∧ (length [(qc 5 1, "D")] ≤ 1)%nat.
Proof.
  assert (H : get_TFIDF_recommendations prefs_u (deref 1%positive store4) "u" 0
                movies4 1
              = Ok {| printed := [(qc 5 1, "D")];
                      returned := [(qc 1 1, "C"); (qc 5 1, "D")] |})
    by by_compute.
  split; [exact H|].
  destruct (printed_is_best_n prefs_u 1%positive store4 "u" 0 movies4 itemsim4
              true 1 _ (or_introl H)) as (H1 & H2 & _).
  by split.
Defined.

Lemma for_each_Ok_body {X S} (body : X → S → result S) xs (s s' : S) (x : X) :
  for_each body xs s = Ok s' → x ∈ xs → ∃ s1 s2, body x s1 = Ok s2.
Proof.
  revert s. induction xs as [|y xs IH]; intros s Hloop Hx.
  { by apply elem_of_nil in Hx. }
  apply for_each_cons_Ok in Hloop as (s1 & Hy & Hrest).
  apply elem_of_cons in Hx as [->|Hx]; eauto.
Qed.

(** X17: the ids of the catalog have to be the numbers from 1 up: a call of
    a full-catalog scorer that returns has found the user and a title for
    every id from 1 to the number of entries of the catalog (TF-IDF) or to
    the number of rows of the matrix (hybrid); with an id missing in that
    range the call raises. *)
Theorem scorers_need_ids_from_1 (prefs : RatingMatrix) (l : loc) (h : store)
    (user : string) (thr : Qc) (movies : Catalog) (ii : ItemSim)
    (weighted : bool) (n : nat) :
  (∀ out,
     get_TFIDF_recommendations prefs (deref l h) user thr movies n = Ok out →
     is_Some (prefs !! user) ∧
     ∀ i, (1 ≤ i ≤ Z.of_nat (size movies))%Z → is_Some (movies !! i)) ∧
  (∀ out,
     (get_hybrid_recommendations prefs l user thr movies ii weighted n h).1
     = Ok out →
     is_Some (prefs !! user) ∧
     ∀ i, (1 ≤ i ≤ Z.of_nat (length (deref l h)))%Z → is_Some (movies !! i)).
Proof.
  split; intros out.
  - unfold get_TFIDF_recommendations, key.
    destruct (prefs !! user) as [ur|]; [|done]. cbn [mbind result_bind].
    destruct (for_each _ _ _) as [recs|] eqn:Hloop; [|done]. intros _.
    split; [done|]. intros i Hi%elem_of_range1_iff.
    destruct (for_each_Ok_body _ _ _ _ i Hloop Hi) as (s1 & s2 & Hbody).
    unfold tfidf_item, key in Hbody. by destruct (movies !! i).
  - rewrite get_hybrid_recommendations_pure. unfold key.
    destruct (prefs !! user) as [ur|]; [|done]. cbn [mbind result_bind].
    destruct (for_each _ _ _) as [recs|] eqn:Hloop; [|done]. intros _.
    split; [done|]. intros i Hi%elem_of_range1_iff.
    destruct (for_each_Ok_body _ _ _ _ i Hloop Hi) as (s1 & s2 & Hbody).
    unfold score_item, key in Hbody. by destruct (movies !! i).
Qed.

(** A catalog with the ids 1, 2 and 4: the call raises [KeyError]. *)
Lemma scorers_need_ids_from_1_example :
  get_TFIDF_recommendations prefs_u cosim4 "u" 0
    {[ 1%Z := "A"; 2%Z := "B"; 4%Z := "D" ]} 1
  = Raise KeyError.
Proof. by_compute. Qed.

(** ** A user who has rated nothing *)

Lemma col_sums_all_zero (m : list (list Qc)) :
  all_zero m → Forall (λ x, x = 0) (col_sums m).
Proof.
  unfold col_sums.
  assert (Forall (λ x : Qc, x = 0) (replicate (ncols m) 0)) as Hacc
    by (by apply Forall_replicate).
  revert Hacc. generalize (replicate (ncols m) (0 : Qc)).
  induction m as [|row m IH]; intros acc Hacc Hm; [done|].
  apply Forall_cons in Hm as [Hrow Hm]. simpl. apply IH; [|done].
  clear IH Hm. revert acc Hacc. induction Hrow as [|x row -> _ IH];
    intros [|a acc] Hacc; simpl; try done.
  apply Forall_cons in Hacc as [-> Hacc]. constructor; [ring|by apply IH].
Qed.

Lemma overall_sum_all_zero (m : list (list Qc)) :
  all_zero m → overall_sum m = 0.
Proof.
  intros Hm. unfold overall_sum.
  assert (Forall (λ x : Qc, x = 0) (concat m)) as Hc.
  { induction Hm as [|row m Hrow _ IH]; simpl; [done|]. by apply Forall_app. }
  rewrite <-(list_fmap_id (concat m)). apply sum_Qc_zero.
  rewrite Forall_forall in Hc. intros x Hx. by apply Hc.
Qed.

Lemma np_nansum_all_NaN (v : list npf) :
  Forall (λ x, x = NaN) v → np_nansum v = Fin 0.
Proof.
  intros Hv. unfold np_nansum.
  assert (filter (λ x, x ≠ NaN) v = []) as ->; [|done].
  induction Hv as [|x v -> _ IH]; [done|].
  by rewrite filter_cons, decide_False by (by intros []).
Qed.

Lemma zip_with_all_NaN_r {A} (f : A → npf → npf) (l : list A) (v : list npf) :
  (∀ a, f a NaN = NaN) → Forall (λ x, x = NaN) v →
  Forall (λ x, x = NaN) (zip_with f l v).
Proof.
  intros Hf Hv. revert l. induction Hv as [|x v -> _ IH]; intros [|a l];
    simpl; try constructor; auto.
Qed.

Lemma npf_mul_NaN_r (x : npf) : npf_mul x NaN = NaN.
Proof. by destruct x. Qed.

Lemma norm_weight_all_zero (m : list (list Qc)) (row : list Z) :
  all_zero m → Forall (λ x, x = NaN) (norm_weight m row).
Proof.
  intros Hm. unfold norm_weight, norm_vector.
  apply zip_with_all_NaN_r; [done|].
  rewrite (overall_sum_all_zero m Hm).
  pose proof (col_sums_all_zero m Hm) as Hc.
  induction Hc as [|c cs -> _ IH]; constructor; [|done].
  by_compute.
Qed.

Lemma final_rec_all_zero (m : list (list Qc)) (row : list Z) :
  all_zero m → final_rec m row = Fin 0.
Proof.
  intros Hm. unfold final_rec. apply np_nansum_all_NaN.
  apply zip_with_all_NaN_r; [apply npf_mul_NaN_r|].
  pose proof (norm_weight_all_zero m row Hm) as Hw.
  generalize (np_sum (norm_weight m row)). intros s.
  induction Hw as [|w ws -> _ IH]; constructor; [done|apply IH].
Qed.

Lemma fe_zero_loop_zeroes (ids : list Z) (m m1 : list (list Qc)) :
  for_each (λ id m, scale_row m id 0) ids m = Ok m1 →
  length m1 = length m ∧
  ∀ i row, Z.of_nat i ∈ ids → m1 !! i = Some row → Forall (λ x, x = 0) row.
Proof.
  intros Hloop. pose proof (fe_zero_loop_scale 0 ids ∅ m) as H.
  rewrite scale_rows_empty, Hloop in H. simpl in H.
  destruct H as (D' & Heq & Hlen & _ & Hids). split; [done|].
  intros i row Hi Hrow.
  assert (i ∈ D') as HD.
  { rewrite <-(Nat2Z.id i). apply Hids; [done|].
    apply lookup_lt_Some in Hrow. lia. }
  assert (Hl : scale_rows 0 D' m1 !! i = Some row) by (by rewrite <-Heq).
  rewrite lookup_scale_rows, Hrow in Hl. simpl in Hl.
  rewrite decide_True in Hl by done. injection Hl as Hl.
  rewrite <-Hl. apply Forall_fmap, Forall_true. intros x. simpl. ring.
Qed.

Lemma fe_encode_no_ratings (set_iter : gset Z → list Z) (prefs : RatingMatrix)
    (features : Features) (idx : TitleIndex) (user : string) (e : encoding) :
  (∀ s x, x ∈ s → x ∈ set_iter s) →
  prefs !! user = Some ∅ →
  fe_encode set_iter prefs features idx user = Ok e →
  all_zero (feature_preference e).
Proof.
  intros Hiter Hur. unfold fe_encode, key. rewrite Hur.
  cbn [mbind result_bind]. rewrite map_to_list_empty. cbn [for_each mbind result_bind].
  destruct (for_each _ _ _) as [m1|] eqn:Hloop; [|done].
  cbn [mbind result_bind]. intros [= <-]. simpl.
  apply fe_zero_loop_zeroes in Hloop as [Hlen Hzero].
  rewrite length_as_float in Hlen.
  unfold all_zero. apply Forall_lookup. intros i row Hrow.
  apply (Hzero i row); [|done]. apply Hiter, elem_of_difference.
  split; [|set_solver]. apply elem_of_id_set.
  apply lookup_lt_Some in Hrow. lia.
Qed.

(** X18: for a user who has rated nothing the encoder divides 0 by 0, which
    numpy answers with NaN and no exception, and [np.nansum] drops every
    NaN: each score [get_FE_recommendations] returns is 0.0, and
    [get_FE_recommendations_single] returns 0.0, or [None] when the feature
    matrix has no column. *)
Theorem fe_scores_without_ratings (set_iter : gset Z → list Z)
    (prefs : RatingMatrix) (features : Features) (movies : Catalog)
    (movies2 : TitleIndex) (user : string) (n : nat) (thr : Qc)
    (ii : ItemSim) (excluded : string) :
  (∀ s x, x ∈ s → x ∈ set_iter s) →
  prefs !! user = Some ∅ →
  (∀ recs s t,
     get_FE_recommendations set_iter prefs features movies2 movies user n
     = Ok recs →
     (s, t) ∈ recs → s = Fin 0) ∧
  (∀ r,
     get_FE_recommendations_single set_iter prefs features user thr movies
       movies2 ii excluded = Ok (r, excluded) →
     r = Some (Fin 0) ∨ r = None).
Proof.
  intros Hiter Hur. split.
  - intros recs s t. unfold get_FE_recommendations.
    destruct (fe_encode _ _ _ _ _) as [e|] eqn:He; [|done].
    cbn [mbind result_bind].
    intros [_ Hin]%fe_loop_props [[]%elem_of_nil|(id & row & _ & _ & _ & Hs)]%Hin.
    simpl in Hs. rewrite Hs. apply final_rec_all_zero.
    by eapply fe_encode_no_ratings.
  - intros r. unfold get_FE_recommendations_single.
    destruct (fe_encode _ _ _ _ _) as [e|] eqn:He; [|done].
    cbn [mbind result_bind].
    destruct (key movies2 excluded) as [idz|] eqn:Hidz; [|done].
    cbn [mbind result_bind].
    destruct (get features (idz - 1)) as [row|] eqn:Hrow; [|done].
    cbn [mbind result_bind]. case_decide; [intros [= <-]; by right|].
    unfold fe_guarded. rewrite Hidz. cbn [mbind result_bind]. rewrite Hrow.
    cbn [mbind result_bind]. intros [= <-]. left. f_equal.
    apply final_rec_all_zero. by eapply fe_encode_no_ratings.
Qed.

Lemma fe_scores_without_ratings_witness :
  ((∀ s x, x ∈ s → x ∈ ascending s) ∧
   ({[ "u" := ∅ ]} : RatingMatrix) !! "u" = Some ∅) ∧
  get_FE_recommendations ascending {[ "u" := ∅ ]} features5 movies5_ids
    movies5 "u" 15
  = Ok [(Fin 0, "e"); (Fin 0, "d"); (Fin 0, "c"); (Fin 0, "b"); (Fin 0, "a")] ∧
  Fin (qc 0 1) = Fin 0.
Proof.
  assert (H1 : ∀ s x, x ∈ s → x ∈ ascending s)
    by (intros s x; apply ascending_elem_of).
  assert (H2 : ({[ "u" := ∅ ]} : RatingMatrix) !! "u" = Some ∅) by by_compute.
  assert (H3 : get_FE_recommendations ascending {[ "u" := ∅ ]} features5
                 movies5_ids movies5 "u" 15
               = Ok [(Fin 0, "e"); (Fin 0, "d"); (Fin 0, "c"); (Fin 0, "b");
                     (Fin 0, "a")]) by by_compute.
  assert (H4 : (Fin (qc 0 1), "e")
               ∈ [(Fin 0, "e"); (Fin 0, "d"); (Fin 0, "c"); (Fin 0, "b");
                  (Fin 0, "a")]) by left.
  split; [by split|]. split; [exact H3|].
  exact (proj1 (fe_scores_without_ratings ascending {[ "u" := ∅ ]} features5
                  movies5 movies5_ids "u" 15 0 ∅ "a" H1 H2) _ _ _ H3 H4).
Defined.

(** ** The dense user-item matrix *)

Lemma list_index_Ok (l : list string) (i : nat) (x : string) :
  NoDup l → l !! i = Some x → list_index x l = Ok i.
Proof.
  intros Hnd Hi. unfold list_index.
  assert (list_find (λ y, y = x) l = Some (i, x)) as ->; [|done].
  apply list_find_Some. split_and!; [done..|].
  intros j y Hj Hlt ->. pose proof (NoDup_lookup _ _ _ _ Hnd Hi Hj). lia.
Qed.

Lemma dims_entry (nu ni : nat) (m : matrix) (i j : nat) :
  dims nu ni m → (i < nu)%nat → (j < ni)%nat → is_Some (entry m i j).
Proof.
  intros [Hlen Hrows] Hi Hj. unfold entry.
  destruct (lookup_lt_is_Some_2 m i) as [row Hrow]; [lia|]. rewrite Hrow. simpl.
  apply lookup_lt_is_Some_2. rewrite Forall_forall in Hrows.
  rewrite (Hrows row); [done|]. by eapply list_elem_of_lookup_2.
Qed.

Section dense.
Variables (U I : list string).
Hypothesis NoDup_U : NoDup U.
Hypothesis NoDup_I : NoDup I.

(** One assignment. *)
Lemma place_rating_spec (u t : string) (r : Qc) (a b : nat) (m : matrix) :
  dims (length U) (length I) m → U !! a = Some u → I !! b = Some t →
  ∃ m', place_rating U I u (t, r) m = Ok m' ∧ dims (length U) (length I) m' ∧
        ∀ i j, entry m' i j
               = if decide (i = a ∧ j = b) then Some r else entry m i j.
Proof.
  intros [Hlen Hrows] Ha Hb. unfold place_rating. cbn [fst snd].
  rewrite (list_index_Ok U a u), (list_index_Ok I b t) by done.
  cbn [mbind result_bind].
  assert (a < length m)%nat as Halt by (rewrite Hlen; by eapply lookup_lt_Some).
  destruct (lookup_lt_is_Some_2 m a Halt) as [row Hrow].
  assert (length row = length I) as Hrlen.
  { rewrite Forall_forall in Hrows. apply Hrows.
    by eapply list_elem_of_lookup_2. }
  assert (b < length row)%nat as Hblt by (rewrite Hrlen; by eapply lookup_lt_Some).
  assert (set_cell m (Z.of_nat a) (Z.of_nat b) r
          = Ok (<[a := <[b := r]> row]> m)) as ->.
  { unfold set_cell, get. rewrite (py_index_nat _ _ Halt).
    cbn [mbind result_bind]. rewrite Hrow. cbn [mbind result_bind].
    by rewrite (py_index_nat _ _ Hblt). }
  eexists. split; [done|]. split.
  - split; [by rewrite length_insert|].
    apply Forall_insert; [done|]. by rewrite length_insert.
  - intros i j. unfold entry.
    destruct (decide (i = a)) as [->|Hia].
    + rewrite list_lookup_insert_eq, Hrow by done. simpl.
      destruct (decide (j = b)) as [->|Hjb].
      * rewrite decide_True by done. by apply list_lookup_insert_eq.
      * rewrite decide_False by naive_solver. by rewrite list_lookup_insert_ne.
    + rewrite decide_False by naive_solver. by rewrite list_lookup_insert_ne.
Qed.

(** The ratings of one user. *)
Lemma place_ratings_spec (u : string) (a : nat) (l : list (string * Qc))
    (m : matrix) :
  dims (length U) (length I) m → U !! a = Some u →
  NoDup l.*1 → (∀ t, t ∈ l.*1 → t ∈ I) →
  ∃ m', for_each (place_rating U I u) l m = Ok m' ∧
        dims (length U) (length I) m' ∧
        ∀ i j, entry m' i j
               = if decide (i = a) then
                   match I !! j ≫= λ t, (list_to_map l : gmap string Qc) !! t with
                   | Some r => Some r
                   | None => entry m i j
                   end
                 else entry m i j.
Proof.
  intros Hdims Ha. revert m Hdims.
  induction l as [|[t r] l IH]; intros m Hdims Hnd HI.
  { exists m. split; [done|]. split; [done|]. intros i j.
    case_decide; [|done]. destruct (I !! j); simpl; [|done].
    by rewrite lookup_empty. }
  rewrite fmap_cons in Hnd, HI. apply NoDup_cons in Hnd as [Ht Hnd].
  assert (t ∈ I) as [b Hb]%list_elem_of_lookup by (apply HI; left).
  destruct (place_rating_spec u t r a b m Hdims Ha Hb) as (m1 & Hm1 & Hd1 & He1).
  destruct (IH m1 Hd1 Hnd) as (m' & Hm' & Hd' & He').
  { intros t' Ht'. apply HI. by right. }
  exists m'. rewrite for_each_cons, Hm1. cbn [mbind result_bind].
  split; [done|]. split; [done|]. intros i j. rewrite He', He1.
  destruct (decide (i = a)) as [->|Hia]; [|by rewrite decide_False by naive_solver].
  destruct (I !! j) as [t'|] eqn:Hj; simpl.
  - destruct (decide (t' = t)) as [->|Hne].
    + rewrite lookup_insert_eq, (not_elem_of_list_to_map_1 _ _ Ht).
      assert (j = b) as -> by exact (NoDup_lookup _ _ _ _ NoDup_I Hj Hb).
      by rewrite decide_True.
    + rewrite lookup_insert_ne by done.
      destruct (list_to_map l !! t'); [done|].
      rewrite decide_False; [done|]. intros [_ ->]. congruence.
  - rewrite decide_False; [done|]. intros [_ ->]. congruence.
Qed.

(** The ratings of all users. *)
Lemma place_all_spec (L : list (string * gmap string Qc)) (m : matrix) :
  dims (length U) (length I) m →
  NoDup L.*1 → (∀ u, u ∈ L.*1 → u ∈ U) →
  (∀ u rs t, (u, rs) ∈ L → is_Some (rs !! t) → t ∈ I) →
  ∃ m', for_each (λ '(user, ratings) ui_matrix,
                    for_each (place_rating U I user) (map_to_list ratings)
                      ui_matrix) L m = Ok m' ∧
        dims (length U) (length I) m' ∧
        ∀ i j, entry m' i j
               = match U !! i ≫= λ u, (list_to_map L : RatingMatrix) !! u ≫= λ rs,
                       I !! j ≫= λ t, rs !! t with
                 | Some r => Some r
                 | None => entry m i j
                 end.
Proof.
  revert m. induction L as [|[u rs] L IH]; intros m Hdims Hnd HU HI.
  { exists m. split; [done|]. split; [done|]. intros i j.
    destruct (U !! i); simpl; [|done]. by rewrite lookup_empty. }
  rewrite fmap_cons in Hnd, HU. apply NoDup_cons in Hnd as [Hu Hnd].
  assert (u ∈ U) as [a Ha]%list_elem_of_lookup by (apply HU; left).
  destruct (place_ratings_spec u a (map_to_list rs) m Hdims Ha)
    as (m1 & Hm1 & Hd1 & He1).
  { apply NoDup_fst_map_to_list. }
  { intros t Ht%elem_of_keys. eapply HI; [left|done]. }
  rewrite list_to_map_to_list in He1.
  destruct (IH m1 Hd1 Hnd) as (m' & Hm' & Hd' & He').
  { intros u' Hu'. apply HU. by right. }
  { intros u' rs' t Hin. eapply HI. by right. }
  exists m'. rewrite for_each_cons, Hm1. cbn [mbind result_bind].
  split; [done|]. split; [done|]. intros i j. rewrite He', He1.
  destruct (U !! i) as [u'|] eqn:Hi; simpl.
  - destruct (decide (u' = u)) as [->|Hne].
    + rewrite lookup_insert_eq, (not_elem_of_list_to_map_1 _ _ Hu). simpl.
      assert (i = a) as -> by exact (NoDup_lookup _ _ _ _ NoDup_U Hi Ha).
      by rewrite decide_True.
    + rewrite lookup_insert_ne by done.
      destruct (list_to_map L !! u' ≫= _); [done|].
      rewrite decide_False; [done|]. intros ->. congruence.
  - rewrite decide_False; [done|]. intros ->. congruence.
Qed.
End dense.

Lemma sort_keys_perm (l : list string) : sort_keys l ≡ₚ l.
Proof. apply merge_sort_Permutation. Qed.

Lemma entry_zeros (nu ni i j : nat) :
  (i < nu)%nat → (j < ni)%nat →
  entry (replicate nu (replicate ni (0 : Qc))) i j = Some 0.
Proof.
  intros Hi Hj. unfold entry. rewrite lookup_replicate_2 by done. simpl.
  by rewrite lookup_replicate_2.
Qed.

Lemma prefs_to_2D_list_spec (prefs : RatingMatrix) :
  let users := sort_keys (map_to_list prefs).*1 in
  let items := sort_keys (map_to_list (transformPrefs prefs)).*1 in
  ∃ m, prefs_to_2D_list prefs = Ok m ∧
       dims (size prefs) (size (transformPrefs prefs)) m ∧
       ∀ i j u t, users !! i = Some u → items !! j = Some t →
                  entry m i j = Some (default 0 (rating_of prefs u t)).
Proof.
  intros users items.
  assert (NoDup users) as HndU.
  { unfold users. rewrite sort_keys_perm. apply NoDup_fst_map_to_list. }
  assert (NoDup items) as HndI.
  { unfold items. rewrite sort_keys_perm. apply NoDup_fst_map_to_list. }
  assert (length users = size prefs) as HlenU.
  { unfold users. by rewrite sort_keys_perm, length_fmap, length_map_to_list. }
  assert (length items = size (transformPrefs prefs)) as HlenI.
  { unfold items. by rewrite sort_keys_perm, length_fmap, length_map_to_list. }
  destruct (place_all_spec users items HndU HndI (map_to_list prefs)
              (replicate (length users) (replicate (length items) (0 : Qc))))
    as (m & Hm & Hdims & Hentry).
  { split; [by rewrite length_replicate|].
    apply Forall_replicate. by rewrite length_replicate. }
  { apply NoDup_fst_map_to_list. }
  { intros u Hu. unfold users. by rewrite sort_keys_perm. }
  { intros u rs t Hin%elem_of_map_to_list Ht. unfold items.
    rewrite sort_keys_perm. apply elem_of_keys, transformPrefs_is_Some.
    exists u. unfold rating_of. by rewrite Hin. }
  exists m. split; [exact Hm|]. rewrite <-HlenU, <-HlenI. split; [done|].
  intros i j u t Hi Hj. rewrite Hentry, Hi, list_to_map_to_list. simpl.
  rewrite Hj. unfold rating_of.
  destruct (prefs !! u) as [rs|] eqn:Hu; simpl.
  - destruct (rs !! t); [done|]. simpl.
    apply entry_zeros; by eapply lookup_lt_Some.
  - apply entry_zeros; by eapply lookup_lt_Some.
Qed.

(** X19: [prefs_to_2D_list] raises nothing and returns the matrix with one
    row per user and one column per rated item, both in ascending order of
    their names, whose entry for a user and an item is the user's rating of
    the item, and 0.0 where the user has not rated it. *)
Theorem prefs_to_2D_list_cells (prefs : RatingMatrix) :
  let users := sort_keys (map_to_list prefs).*1 in
  let items := sort_keys (map_to_list (transformPrefs prefs)).*1 in
  ∃ m, prefs_to_2D_list prefs = Ok m ∧
       dims (size prefs) (size (transformPrefs prefs)) m ∧
       (Sorted String.le users ∧ users ≡ₚ (map_to_list prefs).*1) ∧
       (Sorted String.le items ∧
        ∀ t, t ∈ items ↔ ∃ u, is_Some (rating_of prefs u t)) ∧
       ∀ i j u t, users !! i = Some u → items !! j = Some t →
                  entry m i j = Some (default 0 (rating_of prefs u t)).
Proof.
  intros users items.
  destruct (prefs_to_2D_list_spec prefs) as (m & Hm & Hdims & Hentry).
  exists m. split_and!; [done..| | | | |done].
  - apply (Sorted_merge_sort String.le).
  - apply sort_keys_perm.
  - apply (Sorted_merge_sort String.le).
  - intros t. unfold items. rewrite sort_keys_perm, elem_of_keys.
    apply transformPrefs_is_Some.
Qed.

(** X20: [to_array] returns that matrix, and raises [IndexError], for the
    message it prints, when there is no user at all. *)
Theorem to_array_empty_raises (prefs : RatingMatrix) :
  to_array prefs
  = if decide (prefs = ∅) then Raise IndexError else prefs_to_2D_list prefs.
Proof.
  unfold to_array.
  destruct (prefs_to_2D_list_spec prefs) as (m & Hm & [Hlen Hrows] & _).
  rewrite Hm. cbn [mbind result_bind]. unfold get, py_index.
  destruct (decide (prefs = ∅)) as [He|He].
  - rewrite He, map_size_empty in Hlen.
    by rewrite Hlen.
  - assert (size prefs ≠ 0%nat) by (by intros ?%map_size_empty_inv).
    rewrite decide_True by lia. cbn [mbind result_bind]. simpl.
    destruct m as [|row m]; [simpl in Hlen; lia|done].
Qed.

Lemma prefs_to_2D_list_example :
  prefs_to_2D_list prefs_pearson
  = Ok [ [qc 1 1; qc 1 1; qc 3 1; qc 3 1]; [qc 2 1; qc 2 1; qc 4 1; qc 4 1] ] ∧
  prefs_to_2D_list {[ "u1" := {[ "b" := qc 2 1 ]}; "u0" := {[ "a" := qc 5 1 ]} ]}
  = Ok [ [qc 5 1; 0]; [0; qc 2 1] ].
Proof. split; by_compute. Qed.

(** ** Feature strings and documents *)

Lemma get_nat {A} (l : list A) (i : nat) (a : A) :
  l !! i = Some a → get l (Z.of_nat i) = Ok a.
Proof.
  intros Hi. unfold get.
  rewrite py_index_nat by (by eapply lookup_lt_Some). simpl. by rewrite Hi.
Qed.

Lemma string_app_cons (x : Ascii.ascii) (a b : string) :
  String x a +:+ b = String x (a +:+ b).
Proof. reflexivity. Qed.

Lemma string_app_nil_l (a : string) : "" +:+ a = a.
Proof. reflexivity. Qed.

Lemma string_app_assoc (a b c : string) : (a +:+ b) +:+ c = a +:+ (b +:+ c).
Proof.
  induction a as [|x a IH]; [done|]. rewrite !string_app_cons. by f_equal.
Qed.

Lemma string_app_nil_r (a : string) : a +:+ "" = a.
Proof.
  induction a as [|x a IH]; [done|]. rewrite string_app_cons. by f_equal.
Qed.

Lemma str_digit (x : Z) : (0 ≤ x ≤ 9)%Z → str x = String (digit x) "".
Proof.
  intros Hx.
  assert (x = 0 ∨ x = 1 ∨ x = 2 ∨ x = 3 ∨ x = 4 ∨ x = 5 ∨ x = 6 ∨ x = 7
          ∨ x = 8 ∨ x = 9)%Z as Hc by lia.
  destruct_or!; subst x; reflexivity.
Qed.

Lemma digit_is_1 (x : Z) : (0 ≤ x ≤ 9)%Z → digit x = "1"%char ↔ x = 1%Z.
Proof.
  intros Hx.
  assert (x = 0 ∨ x = 1 ∨ x = 2 ∨ x = 3 ∨ x = 4 ∨ x = 5 ∨ x = 6 ∨ x = 7
          ∨ x = 8 ∨ x = 9)%Z as Hc by lia.
  destruct_or!; subst x; split; (done || by vm_compute).
Qed.

(** The inner loop of [to_string] spells the rest of the row. *)
Lemma to_string_row_from (r xs pre : list Z) (row : string) :
  r = pre ++ xs →
  Forall (λ x, 0 ≤ x ≤ 9)%Z xs →
  for_each (λ j row, x ← get r j; Ok (row +:+ str x))
    (seqZ (Z.of_nat (length pre)) (Z.of_nat (length xs))) row
  = Ok (row +:+ String.string_of_list_ascii (map digit xs)).
Proof.
  revert pre row.
  induction xs as [|x xs IH]; intros pre row Hr Hd.
  - by rewrite string_app_nil_r.
  - apply Forall_cons in Hd as [Hx Hd].
    rewrite seqZ_cons by (simpl; lia). rewrite for_each_cons.
    rewrite (get_nat r (length pre) x)
      by (rewrite Hr; apply list_lookup_middle, eq_refl).
    cbn [mbind result_bind].
    replace (Z.succ (Z.of_nat (length pre)))
      with (Z.of_nat (length (pre ++ [x])))
      by (rewrite length_app; simpl; lia).
    replace (Z.pred (Z.of_nat (length (x :: xs))))
      with (Z.of_nat (length xs)) by (simpl; lia).
    rewrite IH; [|rewrite Hr, <-(assoc_L (++)); reflexivity|done].
    rewrite str_digit by done. rewrite string_app_assoc.
    by rewrite string_app_cons, string_app_nil_l.
Qed.

Lemma to_string_row (features : Features) (i : nat) (r : list Z) :
  features !! i = Some r →
  Forall (λ x, 0 ≤ x ≤ 9)%Z r →
  for_each (λ j row,
      r ← get features (Z.of_nat i); x ← get r j; Ok (row +:+ str x))
    (seqZ 0 (Z.of_nat (length r))) ""
  = Ok (String.string_of_list_ascii (map digit r)).
Proof.
  intros Hi Hd.
  rewrite (for_each_ext _ (λ j row, x ← get r j; Ok (row +:+ str x)))
    by (intros j row; by rewrite (get_nat _ _ _ Hi)).
  exact (to_string_row_from r r [] "" eq_refl Hd).
Qed.

Lemma to_string_rows (features : Features) (first : list Z)
    (fs fpre : list (list Z)) (acc : list string) :
  features = fpre ++ fs →
  Forall (λ row, length row = length first ∧
                 Forall (λ x, 0 ≤ x ≤ 9)%Z row) fs →
  for_each (λ i feature_str,
      row ← for_each (λ j row,
                r ← get features i;
                x ← get r j;
                Ok (row +:+ str x))
              (seqZ 0 (Z.of_nat (length first))) "";
      Ok (feature_str ++ [row]))
    (seqZ (Z.of_nat (length fpre)) (Z.of_nat (length fs))) acc
  = Ok (acc ++ map (λ row, String.string_of_list_ascii (map digit row)) fs).
Proof.
  intros Hf. revert fpre acc Hf.
  induction fs as [|r fs IH]; intros fpre acc Hf Hd.
  - by rewrite app_nil_r.
  - apply Forall_cons in Hd as [[Hlen Hx] Hd].
    rewrite (seqZ_cons (Z.of_nat (length fpre))) by (simpl; lia).
    rewrite for_each_cons.
    assert (Hr : features !! length fpre = Some r)
      by (rewrite Hf; apply list_lookup_middle, eq_refl).
    rewrite <-Hlen at 1.
    rewrite (to_string_row features (length fpre) r Hr Hx).
    cbn [mbind result_bind].
    replace (Z.succ (Z.of_nat (length fpre)))
      with (Z.of_nat (length (fpre ++ [r])))
      by (rewrite length_app; simpl; lia).
    replace (Z.pred (Z.of_nat (length (r :: fs))))
      with (Z.of_nat (length fs)) by (simpl; lia).
    rewrite IH; [|rewrite Hf, <-(assoc_L (++)); reflexivity|done].
    by rewrite <-(assoc_L (++)).
Qed.

Lemma to_string_spells (features : Features) :
  digit_rows features →
  to_string features =
    if decide (features = []) then Raise IndexError
    else Ok (map (λ row, String.string_of_list_ascii (map digit row))
               features).
Proof.
  intros Hd. destruct features as [|first fs]; [done|].
  rewrite decide_False by done. unfold to_string.
  set (features := first :: fs) in *.
  rewrite (for_each_ext _ (λ i feature_str,
      row ← for_each (λ j row,
                r ← get features i;
                x ← get r j;
                Ok (row +:+ str x))
              (seqZ 0 (Z.of_nat (length first))) "";
      Ok (feature_str ++ [row]))) by done.
  assert (Hrows := to_string_rows features first features [] [] eq_refl Hd).
  change (Z.of_nat (length [])) with 0%Z in Hrows. rewrite Hrows.
  reflexivity.
Qed.

(** ** Stripping *)

Lemma length_lstrip (s : string) :
  (String.length (lstrip s) ≤ String.length s)%nat.
Proof.
  induction s as [|c s IH]; simpl; [done|].
  destruct (isspace c); simpl; lia.
Qed.

Lemma length_rstrip (s : string) :
  (String.length (rstrip s) ≤ String.length s)%nat.
Proof.
  induction s as [|c s IH]; simpl; [done|].
  destruct (isspace c && bool_decide (rstrip s = "")); simpl; lia.
Qed.

Lemma stripped_lstrip (g : string) : strip g = g → lstrip g = g.
Proof.
  intros Hg. destruct g as [|c g]; [done|]. simpl.
  destruct (isspace c) eqn:Hc; [|done]. exfalso.
  assert (Hlen := length_rstrip (lstrip (String c g))).
  unfold strip in Hg. rewrite Hg in Hlen. simpl in Hlen. rewrite Hc in Hlen.
  pose proof (length_lstrip g). lia.
Qed.

Lemma stripped_rstrip (g : string) : strip g = g → rstrip g = g.
Proof.
  intros Hg. assert (Hl := stripped_lstrip g Hg).
  unfold strip in Hg. by rewrite Hl in Hg.
Qed.

Lemma lstrip_app (g t : string) :
  g ≠ "" → lstrip g = g → lstrip (g +:+ t) = g +:+ t.
Proof.
  intros Hne Hg. destruct g as [|c g]; [done|].
  rewrite string_app_cons. simpl in *.
  destruct (isspace c); [|done]. exfalso.
  assert (Hlen := length_lstrip g). rewrite Hg in Hlen. simpl in Hlen. lia.
Qed.

Lemma rstrip_app_keep (s t : string) :
  rstrip t ≠ "" → rstrip (s +:+ t) = s +:+ rstrip t.
Proof.
  intros Ht. induction s as [|c s IH]; [done|].
  rewrite !string_app_cons. simpl. rewrite IH.
  rewrite bool_decide_eq_false_2, andb_false_r; [done|].
  destruct s; [done|by rewrite string_app_cons].
Qed.

Lemma rstrip_app_drop (s t : string) :
  rstrip t = "" → rstrip (s +:+ t) = rstrip s.
Proof.
  intros Ht. induction s as [|c s IH]; [done|].
  rewrite string_app_cons. simpl. by rewrite IH.
Qed.

Lemma concat_ne (g : string) (gs : list string) :
  g ≠ "" → String.concat " " (g :: gs) ≠ "".
Proof.
  intros Hg. destruct g as [|c g]; [done|].
  destruct gs; simpl; [done|]. by rewrite string_app_cons.
Qed.

Lemma rstrip_spaced (gs : list string) :
  Forall stripped gs → rstrip (spaced gs) = String.concat " " gs.
Proof.
  induction gs as [|g gs IH]; intros Hgs; [done|].
  apply Forall_cons in Hgs as [[Hne Hg] Hgs]. specialize (IH Hgs).
  destruct gs as [|g' gs].
  - simpl. rewrite rstrip_app_drop by done. by apply stripped_rstrip.
  - apply Forall_cons in Hgs as [[Hne' _] _].
    assert (Hrest : rstrip (spaced (g' :: gs)) ≠ "")
      by (rewrite IH; by apply concat_ne).
    change (spaced (g :: g' :: gs))
      with (g +:+ (" " +:+ spaced (g' :: gs))).
    change (String.concat " " (g :: g' :: gs))
      with (g +:+ (" " +:+ String.concat " " (g' :: gs))).
    assert (Hsp : rstrip (" " +:+ spaced (g' :: gs))
                  = " " +:+ rstrip (spaced (g' :: gs)))
      by (by apply rstrip_app_keep).
    rewrite rstrip_app_keep; rewrite Hsp; [by rewrite IH|].
    by rewrite string_app_cons.
Qed.

Lemma strip_spaced (gs : list string) :
  Forall stripped gs → strip (spaced gs) = String.concat " " gs.
Proof.
  intros Hgs. unfold strip. destruct gs as [|g gs]; [done|].
  pose proof Hgs as [[Hne Hg] _]%Forall_cons.
  change (spaced (g :: gs)) with (g +:+ (" " +:+ spaced gs)).
  rewrite lstrip_app by (done || by apply stripped_lstrip).
  by apply (rstrip_spaced (g :: gs)).
Qed.

(** ** The documents of [to_docs] *)

Lemma string_get_lt (s : string) (i : nat) :
  (i < String.length s)%nat → is_Some (String.get i s).
Proof.
  revert i. induction s as [|c s IH]; intros i Hi; simpl in *; [lia|].
  destruct i; [by eexists|]. apply IH. lia.
Qed.

Lemma spaced_app (gs hs : list string) :
  spaced (gs ++ hs) = spaced gs +:+ spaced hs.
Proof.
  induction gs as [|g gs IH]; [done|].
  change (spaced ((g :: gs) ++ hs)) with (g +:+ (" " +:+ spaced (gs ++ hs))).
  change (spaced (g :: gs)) with (g +:+ (" " +:+ spaced gs)).
  by rewrite IH, !string_app_assoc.
Qed.

Lemma result_bind_Ok {A B} (a : A) (f : A → result B) : Ok a ≫= f = f a.
Proof. reflexivity. Qed.

Lemma result_bind_Raise {A B} (e : exn) (f : A → result B) :
  Raise e ≫= f = Raise e.
Proof. reflexivity. Qed.

(** The inner loop of [to_docs] over positions of the string. *)
Lemma to_docs_row (genres : Genres) (doc_str : string) (ps : list nat)
    (row : string) :
  Forall (λ i, i < String.length doc_str)%nat ps →
  let hits := filter (λ i, String.get i doc_str = Some "1"%char) ps in
  for_each (λ i row,
      c ← char_at doc_str i;
      if decide (c = "1"%char) then
        g ← key genres (Z.of_nat i);
        Ok (row +:+ (g +:+ " "))
      else Ok row) ps row
  = if decide (Forall (λ i, is_Some (genres !! Z.of_nat i)) hits)
    then Ok (row +:+ spaced (omap (λ i, genres !! Z.of_nat i) hits))
    else Raise KeyError.
Proof.
  intros Hps hits. subst hits. revert row.
  induction ps as [|i ps IH]; intros row.
  - cbn. rewrite decide_True by constructor. by rewrite string_app_nil_r.
  - apply Forall_cons in Hps as [Hi Hps]. specialize (IH Hps).
    rewrite for_each_cons.
    destruct (string_get_lt _ _ Hi) as [c Hc].
    assert (Hca : char_at doc_str i = Ok c)
      by (unfold char_at; by rewrite Hc).
    rewrite Hca, result_bind_Ok.
    destruct (decide (c = "1"%char)) as [->|Hone].
    + rewrite filter_cons_True by done.
      destruct (genres !! Z.of_nat i) as [g|] eqn:Hg.
      * assert (Hk : key genres (Z.of_nat i) = Ok g)
          by (unfold key; by rewrite Hg).
        rewrite Hk, !result_bind_Ok, IH.
        destruct (decide (Forall _ (filter _ ps))) as [Hall|Hall].
        -- rewrite decide_True by (constructor; [by rewrite Hg|done]).
           cbn [omap list_omap]. rewrite Hg.
           change (spaced (g :: ?l)) with (g +:+ (" " +:+ spaced l)).
           by rewrite !string_app_assoc.
        -- rewrite decide_False; [done|].
           by intros [_ ?]%Forall_cons.
      * assert (Hk : key genres (Z.of_nat i) = Raise KeyError)
          by (unfold key; by rewrite Hg).
        rewrite Hk, !result_bind_Raise. rewrite decide_False; [done|].
        intros [[? Hs] _]%Forall_cons. by rewrite Hg in Hs.
    + rewrite filter_cons_False by congruence. rewrite result_bind_Ok.
      apply IH.
Qed.

Lemma forall_lt_seq (n : nat) : Forall (λ i, i < n)%nat (seq 0 n).
Proof. apply Forall_forall. intros i Hi%elem_of_seq. lia. Qed.

Lemma to_docs_rows (genres : Genres) (features_str : list string)
    (feature_docs : list string) :
  for_each (λ doc_str feature_docs,
      row ← for_each (λ i row,
                c ← char_at doc_str i;
                if decide (c = "1"%char) then
                  g ← key genres (Z.of_nat i);
                  Ok (row +:+ (g +:+ " "))
                else Ok row)
              (seq 0 (String.length doc_str)) "";
      Ok (feature_docs ++ [strip row]))
    features_str feature_docs
  = if decide (Forall (named genres) features_str)
    then Ok (feature_docs
             ++ map (λ s, strip (spaced (genre_names genres s))) features_str)
    else Raise KeyError.
Proof.
  revert feature_docs.
  induction features_str as [|s l IH]; intros feature_docs.
  - cbn. rewrite decide_True by constructor. by rewrite app_nil_r.
  - rewrite for_each_cons.
    rewrite (to_docs_row genres s _ "" (forall_lt_seq _)).
    cbn zeta. fold (ones s).
    destruct (decide (Forall _ (ones s))) as [Hs|Hs].
    + rewrite !result_bind_Ok, IH.
      destruct (decide (Forall (named genres) l)) as [Hl|Hl].
      * rewrite decide_True by (by constructor).
        by rewrite <-(assoc_L (++)).
      * rewrite decide_False; [done|]. by intros [_ ?]%Forall_cons.
    + rewrite !result_bind_Raise. rewrite decide_False; [done|].
      by intros [? _]%Forall_cons.
Qed.

Lemma genre_names_stripped (genres : Genres) (s : string) :
  map_Forall (λ _ g, stripped g) genres →
  Forall stripped (genre_names genres s).
Proof.
  intros Hg. apply Forall_forall. intros g.
  unfold genre_names. rewrite list_elem_of_omap.
  intros (i & _ & Hi). by apply (Hg _ _ Hi).
Qed.

Lemma to_docs_joined (features_str : list string) (genres : Genres) :
  map_Forall (λ _ g, stripped g) genres →
  to_docs features_str genres
  = if decide (Forall (named genres) features_str)
    then Ok (map (λ s, String.concat " " (genre_names genres s))
               features_str)
    else Raise KeyError.
Proof.
  intros Hg. unfold to_docs. rewrite to_docs_rows.
  case_decide; [|done]. f_equal. cbn [app].
  apply map_ext. intros s. by apply strip_spaced, genre_names_stripped.
Qed.

(** ** From features to documents *)

Lemma length_string_of_list (l : list Ascii.ascii) :
  String.length (String.string_of_list_ascii l) = length l.
Proof. induction l as [|c l IH]; simpl; [done|by rewrite IH]. Qed.

Lemma get_string_of_list (l : list Ascii.ascii) (j : nat) :
  String.get j (String.string_of_list_ascii l) = l !! j.
Proof.
  revert j. induction l as [|c l IH]; intros j; simpl; [done|].
  destruct j; [done|apply IH].
Qed.

Lemma ones_digits (row : list Z) :
  Forall (λ x, 0 ≤ x ≤ 9)%Z row →
  ones (String.string_of_list_ascii (map digit row))
  = filter (λ j, row !! j = Some 1%Z) (seq 0 (length row)).
Proof.
  intros Hd. unfold ones.
  rewrite length_string_of_list, length_map.
  apply list_filter_iff. intros j.
  rewrite get_string_of_list.
  change (map digit row) with (digit <$> row). rewrite list_lookup_fmap.
  destruct (row !! j) as [x|] eqn:Hx; simpl; [|done].
  assert (Hr : (0 ≤ x ≤ 9)%Z) by exact (Forall_lookup_1 _ _ _ _ Hd Hx).
  split.
  - intros [= H1]. f_equal. by apply digit_is_1.
  - intros [= ->]. done.
Qed.

Lemma genre_names_digits (genres : Genres) (w : nat) (fs : Features) :
  Forall (λ row, length row = w ∧ Forall (λ x, 0 ≤ x ≤ 9)%Z row) fs →
  map (λ s, String.concat " " (genre_names genres s))
    (map (λ row, String.string_of_list_ascii (map digit row)) fs)
  = map (λ row, String.concat " " (row_genres genres row)) fs.
Proof.
  induction 1 as [|row l [_ Hrow] _ IH]; [done|].
  cbn [map]. rewrite IH. f_equal.
  unfold genre_names, row_genres. by rewrite ones_digits.
Qed.

Lemma named_digits (genres : Genres) (w : nat) (fs : Features) :
  (∀ j, (j < w)%nat → is_Some (genres !! Z.of_nat j)) →
  Forall (λ row, length row = w ∧ Forall (λ x, 0 ≤ x ≤ 9)%Z row) fs →
  Forall (named genres)
    (map (λ row, String.string_of_list_ascii (map digit row)) fs).
Proof.
  intros Hcols. induction 1 as [|row l [Hlen Hrow] _ IH]; [constructor|].
  cbn [map]. constructor; [|exact IH].
  unfold named. rewrite ones_digits by done.
  apply Forall_forall. intros j [_ Hj%elem_of_seq]%list_elem_of_filter.
  apply Hcols. lia.
Qed.

Lemma docs_of_digit_rows (features : Features) (genres : Genres) :
  digit_rows features →
  features ≠ [] →
  map_Forall (λ _ g, stripped g) genres →
  columns_named genres features →
  to_string features ≫= (λ feature_str, to_docs feature_str genres)
  = Ok (map (λ row, String.concat " " (row_genres genres row)) features).
Proof.
  intros Hd Hne Hg Hcols.
  rewrite (to_string_spells _ Hd), decide_False by done.
  rewrite result_bind_Ok, (to_docs_joined _ _ Hg).
  rewrite decide_True by (by eapply named_digits).
  f_equal. by eapply genre_names_digits.
Qed.






